(** * aminui_maker: the geometry pipeline

    A shallow embedding of the two geometric modules of the application,
    [PointCalculator] (the placement of the profile points) and
    [Shape3DRenderer] (envelope, revolution mesh, centroid, projection and
    the painter's-algorithm frame), with the properties the specification
    states about them.

    Numbers.  A JavaScript number is modelled by a real number: [+], [-],
    [*], [Math.sqrt], [Math.cos] and [Math.sin] are the operations of [R],
    [Math.PI] is [PI], and the decimal literals [1.3], [1.5], [0.3] are the
    rationals they denote.  Rounding is not modelled.  The one operation
    whose JavaScript result can fail to be a real number on real operands is
    the division: [num_div] returns [None] where the source computes an
    infinity or a NaN.  It is used at the division whose divisor nothing
    bounds away from zero; a division by a literal, or one that the
    surrounding control flow only reaches with a non-zero divisor, is
    written with the division of [R].

    Arrays are lists; [push] appends on the right.  A method that reads or
    writes the fields of [this] takes the state and, when it writes, returns
    the new one; [console.warn] and the drawing calls on the canvas context
    are kept as lists of events.  For the renderer, the view that the
    pointer handlers and the animation loop leave is any rotation, zoom and
    canvas size; the handlers themselves, the interpolation, the automatic
    viewport of [Point2DRenderer] and the table of [TableManager] are
    embedded after the two modules, with further properties at the end. *)

From Stdlib Require Import Reals Lra Lia List Arith PeanoNat Bool String.
From Stdlib Require Import Permutation Sorted.
Import ListNotations.

Open Scope R_scope.

(** ** Arrays *)

Definition push {A : Type} (arr : list A) (a : A) : list A := arr ++ [a].

(** ** Numbers *)

Definition num_div (a b : R) : option R :=
  if Req_dec_T b 0 then None else Some (a / b).

(** ** PointCalculator *)

Module PointCalculator.

(** [{x, y}], what [calculateNextPoint] returns. *)
Record xy := mk_xy { xy_x : R; xy_y : R }.

(** [{x, y, index}], an element of [pointCloud]. *)
Record point := mk_point { x : R; y : R; index : nat }.

(** [{index, radius}], an element of [radiusArray]. *)
Record radius_entry := mk_entry { entry_index : nat; radius : R }.

(** A call of [console.warn]; the message is kept as the two numbers it
    formats. *)
Inductive diagnostic := Warn (distance dy : R).

(** The fields of the object, and the console it writes to. *)
Record t := mk {
  baseRadius : R;
  radiusArray : list radius_entry;
  pointCloud : list point;
  console : list diagnostic
}.

(** [constructor()] *)
Definition new : t :=
  {| baseRadius := 0; radiusArray := []; pointCloud := []; console := [] |}.

Definition set_baseRadius (st : t) (b : R) : t :=
  {| baseRadius := b; radiusArray := radiusArray st;
     pointCloud := pointCloud st; console := console st |}.

Definition set_radiusArray (st : t) (rs : list radius_entry) : t :=
  {| baseRadius := baseRadius st; radiusArray := rs;
     pointCloud := pointCloud st; console := console st |}.

Definition set_pointCloud (st : t) (pts : list point) : t :=
  {| baseRadius := baseRadius st; radiusArray := radiusArray st;
     pointCloud := pts; console := console st |}.

Definition warn (st : t) (d : diagnostic) : t :=
  {| baseRadius := baseRadius st; radiusArray := radiusArray st;
     pointCloud := pointCloud st; console := push (console st) d |}.

(** [circumferenceToRadius(circumference)] *)
Definition circumferenceToRadius (circumference : R) : R :=
  circumference / (2 * PI).

(** [calculateNextPoint(prevPoint, targetY)] *)
Definition calculateNextPoint (st : t) (prevPoint : point) (targetY : R)
  : xy * t :=
  let distance := baseRadius st * (13 / 10) in
  let dy := targetY - y prevPoint in
  let discriminant := distance * distance - dy * dy in
  if Rle_dec 0 discriminant then
    let dx := sqrt discriminant in
    ({| xy_x := x prevPoint + dx; xy_y := targetY |}, st)
  else
    ({| xy_x := x prevPoint; xy_y := targetY |}, warn st (Warn distance dy)).

(** [tableData.map((circumference, index) => ...)], from position [i]. *)
Fixpoint to_radiusArray (i : nat) (tableData : list R) : list radius_entry :=
  match tableData with
  | [] => []
  | circumference :: rest =>
      {| entry_index := i + 1;
         radius := circumferenceToRadius circumference |}
      :: to_radiusArray (S i) rest
  end.

(** One turn of the loop of [calculate].  [None] is the [TypeError] of
    reading a field of [undefined]. *)
Definition calculate_step (st : t) (i : nat) : option t :=
  match nth_error (radiusArray st) i with
  | None => None
  | Some e =>
      if Nat.eqb i 0 then
        Some (set_pointCloud st
                (push (pointCloud st)
                   {| x := 0; y := radius e; index := entry_index e |}))
      else
        match nth_error (pointCloud st) (i - 1) with
        | None => None
        | Some prevPoint =>
            let '(newPoint, st1) := calculateNextPoint st prevPoint (radius e) in
            Some (set_pointCloud st1
                    (push (pointCloud st1)
                       {| x := xy_x newPoint; y := xy_y newPoint;
                          index := entry_index e |}))
        end
  end.

(** [for (let i = ...; i < this.radiusArray.length; i++)], with [turns]
    turns left and [i] the current index. *)
Fixpoint calculate_loop (turns : nat) (st : t) (i : nat) : option t :=
  match turns with
  | O => Some st
  | S turns' =>
      match calculate_step st i with
      | None => None
      | Some st' => calculate_loop turns' st' (S i)
      end
  end.

(** [calculate(tableData)]; the argument is an array, so that the test
    [!tableData] is false. *)
Definition calculate (st : t) (tableData : list R) : option (list point * t) :=
  match tableData with
  | [] => Some ([], st)
  | _ :: _ =>
      let st1 := set_radiusArray st (to_radiusArray 0 tableData) in
      match nth_error (radiusArray st1) 0 with
      | None => None
      | Some e0 =>
          let st2 := set_baseRadius st1 (radius e0) in
          let st3 := set_pointCloud st2 [] in
          match calculate_loop (List.length (radiusArray st3)) st3 0 with
          | None => None
          | Some st4 => Some (pointCloud st4, st4)
          end
      end
  end.

End PointCalculator.

(** ** Shape3DRenderer *)

Module Shape3DRenderer.

(** [{x, y, z}]: the rotation, the centroid, a rotated point. *)
Record vec3 := mk_vec3 { x : R; y : R; z : R }.

(** A 2D point [{x, y}].  It is the one kind of object the module compares
    by reference ([!==] in [generateEnvelope]), so it carries the identity
    of the object, [oid], next to its fields: two references are the same
    object when their [oid]s are equal.  No 2D point is mutated after its
    creation. *)
Record point2D := mk_point2D { oid : nat; px : R; py : R }.

(** An element of [points3D].  The cap centre is pushed without the two
    tags. *)
Record vertex := mk_vertex {
  vx : R; vy : R; vz : R;
  originalIndex : option nat;
  rotationIndex : option nat
}.

(** A colour string: [`hsl(${hue}, 70%, 60%)`] or a literal. *)
Inductive color :=
| hsl (hue saturation lightness : nat)
| literal (s : string).

(** [{indices: [a, b, c], color}]; every face the module builds has three
    indices. *)
Record face := mk_face { indices : nat * nat * nat; face_color : color }.

(** [{x, y, z}] as [project3DTo2D] returns it: [None] for a coordinate that
    is not a real number. *)
Record projected := mk_projected {
  proj_x : option R; proj_y : option R; proj_z : R
}.

(** What a frame does to the canvas context. *)
Inductive draw_event :=
| Clear
| Message (text : string)
| Fill (c : color) (alpha : R) (path : list projected)
| Stroke (alpha : R) (path : list projected).

(** The fields of the object that the geometry reads or writes, the size of
    its canvas, and [next_oid], the identity the next 2D point created
    will receive (identities below it are in use). *)
Record t := mk {
  rotation : vec3;
  zoom : R;
  autoRotate : bool;
  points3D : list vertex;
  faces : list face;
  centroid : vec3;
  rotationDivisions : nat;
  alphaRadius : R;
  envelopeSmoothing : R;
  canvas_width : R;
  canvas_height : R;
  next_oid : nat
}.

(** [constructor(canvasId)], on a canvas of the given size. *)
Definition new (width height : R) (fresh : nat) : t :=
  {| rotation := mk_vec3 0 0 0; zoom := 1; autoRotate := false;
     points3D := []; faces := []; centroid := mk_vec3 0 0 0;
     rotationDivisions := 16;
     alphaRadius := 3 / 2; envelopeSmoothing := 3 / 10;
     canvas_width := width; canvas_height := height; next_oid := fresh |}.

Definition set_points3D (st : t) (pts : list vertex) : t :=
  {| rotation := rotation st; zoom := zoom st; autoRotate := autoRotate st;
     points3D := pts; faces := faces st; centroid := centroid st;
     rotationDivisions := rotationDivisions st;
     alphaRadius := alphaRadius st; envelopeSmoothing := envelopeSmoothing st;
     canvas_width := canvas_width st; canvas_height := canvas_height st;
     next_oid := next_oid st |}.

Definition set_faces (st : t) (fs : list face) : t :=
  {| rotation := rotation st; zoom := zoom st; autoRotate := autoRotate st;
     points3D := points3D st; faces := fs; centroid := centroid st;
     rotationDivisions := rotationDivisions st;
     alphaRadius := alphaRadius st; envelopeSmoothing := envelopeSmoothing st;
     canvas_width := canvas_width st; canvas_height := canvas_height st;
     next_oid := next_oid st |}.

Definition set_centroid (st : t) (c : vec3) : t :=
  {| rotation := rotation st; zoom := zoom st; autoRotate := autoRotate st;
     points3D := points3D st; faces := faces st; centroid := c;
     rotationDivisions := rotationDivisions st;
     alphaRadius := alphaRadius st; envelopeSmoothing := envelopeSmoothing st;
     canvas_width := canvas_width st; canvas_height := canvas_height st;
     next_oid := next_oid st |}.

(** The view as the mouse, wheel and touch handlers and [resize] leave it:
    they write [rotation], [zoom] and the canvas size, nothing else. *)
Definition set_view (st : t) (rot : vec3) (zm width height : R) : t :=
  {| rotation := rot; zoom := zm; autoRotate := autoRotate st;
     points3D := points3D st; faces := faces st; centroid := centroid st;
     rotationDivisions := rotationDivisions st;
     alphaRadius := alphaRadius st; envelopeSmoothing := envelopeSmoothing st;
     canvas_width := width; canvas_height := height;
     next_oid := next_oid st |}.

(** The object literal [{x: .., y: ..}]: a new object. *)
Definition new_point2D (st : t) (x0 y0 : R) : point2D * t :=
  ({| oid := next_oid st; px := x0; py := y0 |},
   {| rotation := rotation st; zoom := zoom st; autoRotate := autoRotate st;
      points3D := points3D st; faces := faces st; centroid := centroid st;
      rotationDivisions := rotationDivisions st;
      alphaRadius := alphaRadius st; envelopeSmoothing := envelopeSmoothing st;
      canvas_width := canvas_width st; canvas_height := canvas_height st;
      next_oid := S (next_oid st) |}).

(** [a !== b] on two array reads: an element is an object, a read out of
    range is [undefined]. *)
Definition not_same_object (a b : option point2D) : bool :=
  match a, b with
  | Some p, Some q => negb (Nat.eqb (oid p) (oid q))
  | None, None => false
  | _, _ => true
  end.

(** [arr[arr.length - 1]] *)
Definition last_element {A : Type} (arr : list A) : option A :=
  nth_error arr (List.length arr - 1).

(** The loop [for (let i = 0; i < pointCloud2D.length; i += sampleStep)] of
    [generateEnvelope]: [pointCloud2D[i]] is an element exactly when
    [i < pointCloud2D.length].  [fuel] bounds the number of turns. *)
Fixpoint sample_loop (fuel : nat) (pointCloud2D : list point2D)
  (sampleStep i : nat) (st : t) (envelope : list point2D)
  : list point2D * t :=
  match fuel with
  | O => (envelope, st)
  | S fuel' =>
      match nth_error pointCloud2D i with
      | None => (envelope, st)
      | Some point =>
          let expandedY := py point * alphaRadius st in
          let '(o, st1) := new_point2D st (px point) expandedY in
          sample_loop fuel' pointCloud2D sampleStep (i + sampleStep) st1
            (push envelope o)
      end
  end.

(** [generateEnvelope] up to the smoothing: the subsample and the last
    point.  The loop takes at most [pointCloud2D.length] turns, since
    [sampleStep >= 1]. *)
Definition envelope_samples (st : t) (pointCloud2D : list point2D)
  : list point2D * t :=
  let sampleStep := Nat.max 1 (List.length pointCloud2D / 8) in
  let '(envelope, st1) :=
    sample_loop (List.length pointCloud2D) pointCloud2D sampleStep 0 st [] in
  if not_same_object (last_element envelope) (last_element pointCloud2D) then
    match last_element pointCloud2D with
    | None => (envelope, st1)
    | Some lastPoint =>
        let '(o, st2) :=
          new_point2D st1 (px lastPoint) (py lastPoint * alphaRadius st1) in
        (push envelope o, st2)
    end
  else (envelope, st1).

(** The loop of [smoothEnvelope].  [None] is the [TypeError] of reading a
    field of [undefined]. *)
Fixpoint smooth_loop (turns : nat) (envelope : list point2D) (i : nat)
  (st : t) (smoothed : list point2D) : option (list point2D * t) :=
  match turns with
  | O => Some (smoothed, st)
  | S turns' =>
      match nth_error envelope (Nat.max 0 (i - 1)),
            nth_error envelope i,
            nth_error envelope (Nat.min (List.length envelope - 1) (i + 1)) with
      | Some prev, Some curr, Some next =>
          let weight := envelopeSmoothing st in
          let '(o, st1) :=
            new_point2D st
              (px curr * (1 - weight) + (px prev + px next) * weight / 2)
              (py curr * (1 - weight) + (py prev + py next) * weight / 2) in
          smooth_loop turns' envelope (S i) st1 (push smoothed o)
      | _, _, _ => None
      end
  end.

(** [smoothEnvelope(envelope)] *)
Definition smoothEnvelope (st : t) (envelope : list point2D)
  : option (list point2D * t) :=
  if Nat.ltb (List.length envelope) 3 then Some (envelope, st)
  else smooth_loop (List.length envelope) envelope 0 st [].

(** [generateEnvelope(pointCloud2D)] *)
Definition generateEnvelope (st : t) (pointCloud2D : list point2D)
  : option (list point2D * t) :=
  if Nat.ltb (List.length pointCloud2D) 2 then Some (pointCloud2D, st)
  else
    let '(envelope, st1) := envelope_samples st pointCloud2D in
    if Rlt_dec 0 (envelopeSmoothing st1) then smoothEnvelope st1 envelope
    else Some (envelope, st1).

(** The inner loop of [generate3DPoints], [for (let i = ...; i < divisions; i++)],
    with [turns] turns left.  A turn is only taken when [i < divisions], so
    the divisor of [angle] is at least one. *)
Fixpoint rotation_loop (turns divisions : nat) (point : point2D)
  (pointIndex i : nat) (points3D : list vertex) : list vertex :=
  match turns with
  | O => points3D
  | S turns' =>
      let x2D := px point in
      let y2D := py point in
      let angle := (2 * PI * INR i) / INR divisions in
      let x3D := x2D in
      let y3D := y2D * cos angle in
      let z3D := y2D * sin angle in
      rotation_loop turns' divisions point pointIndex (S i)
        (push points3D
           {| vx := x3D; vy := y3D; vz := z3D;
              originalIndex := Some pointIndex; rotationIndex := Some i |})
  end.

(** [pointCloud2D.forEach((point, pointIndex) => ...)], from [pointIndex]. *)
Fixpoint forEach_point (pointCloud2D : list point2D) (pointIndex divisions : nat)
  (points3D : list vertex) : list vertex :=
  match pointCloud2D with
  | [] => points3D
  | point :: rest =>
      forEach_point rest (S pointIndex) divisions
        (rotation_loop divisions divisions point pointIndex 0 points3D)
  end.

(** [generate3DPoints(pointCloud2D)] *)
Definition generate3DPoints (st : t) (pointCloud2D : list point2D) : list vertex :=
  forEach_point pointCloud2D 0 (rotationDivisions st) [].

(** [getColorForFace(ringIndex, segmentIndex)] *)
Definition getColorForFace (ringIndex segmentIndex : nat) : color :=
  let hue := ((ringIndex * 30 + segmentIndex * 5) mod 360)%nat in
  hsl hue 70 60.

(** The loop over [j] of the side faces, for ring [i]. *)
Fixpoint segment_loop (turns divisions i j : nat) (faces : list face) : list face :=
  match turns with
  | O => faces
  | S turns' =>
      let nextJ := ((j + 1) mod divisions)%nat in
      let idx1 := (i * divisions + j)%nat in
      let idx2 := (i * divisions + nextJ)%nat in
      let idx3 := ((i + 1) * divisions + nextJ)%nat in
      let idx4 := ((i + 1) * divisions + j)%nat in
      let faces1 :=
        push faces {| indices := (idx1, idx2, idx3);
                      face_color := getColorForFace i j |} in
      let faces2 :=
        push faces1 {| indices := (idx1, idx3, idx4);
                       face_color := getColorForFace i j |} in
      segment_loop turns' divisions i (S j) faces2
  end.

(** The loop over [i] of the side faces, [for (...; i < pointCount - 1; i++)]. *)
Fixpoint ring_loop (turns divisions i : nat) (faces : list face) : list face :=
  match turns with
  | O => faces
  | S turns' =>
      ring_loop turns' divisions (S i) (segment_loop divisions divisions i 0 faces)
  end.

(** The loop over [j] of the cap faces. *)
Fixpoint cap_loop (turns divisions centerIndex j : nat) (faces : list face)
  : list face :=
  match turns with
  | O => faces
  | S turns' =>
      let nextJ := ((j + 1) mod divisions)%nat in
      cap_loop turns' divisions centerIndex (S j)
        (push faces {| indices := (centerIndex, nextJ, j);
                       face_color := literal "#666666" |})
  end.

(** [generateMesh(pointCloud2D)]: returns the faces, and pushes the cap
    centre on [this.points3D]. *)
Definition generateMesh (st : t) (pointCloud2D : list point2D) : list face * t :=
  let divisions := rotationDivisions st in
  let pointCount := List.length pointCloud2D in
  let faces := ring_loop (pointCount - 1) divisions 0 [] in
  match pointCloud2D with
  | first :: _ =>
      if Req_dec_T (px first) 0 then (faces, st)
      else
        let centerIndex := List.length (points3D st) in
        let st1 :=
          set_points3D st
            (push (points3D st)
               {| vx := px first; vy := 0; vz := 0;
                  originalIndex := None; rotationIndex := None |}) in
        (cap_loop divisions divisions centerIndex 0 faces, st1)
  | [] => (faces, st)
  end.

(** The three sums of [calculateCentroid], [this.points3D.forEach(...)]. *)
Definition sum_positions (points : list vertex) : R * R * R :=
  fold_left
    (fun '(sumX, sumY, sumZ) point =>
       (sumX + vx point, sumY + vy point, sumZ + vz point))
    points (0, 0, 0).

(** [calculateCentroid()]; the divisions are behind the test of the length. *)
Definition calculateCentroid (st : t) : vec3 :=
  match points3D st with
  | [] => {| x := 0; y := 0; z := 0 |}
  | _ :: _ =>
      let '(sumX, sumY, sumZ) := sum_positions (points3D st) in
      let n := INR (List.length (points3D st)) in
      {| x := sumX / n; y := sumY / n; z := sumZ / n |}
  end.

(** What [generateShape] returns. *)
Record shape := mk_shape {
  shape_points : list vertex;
  shape_faces : list face;
  shape_centroid : vec3
}.

(** [generateShape(pointCloud2D)] *)
Definition generateShape (st : t) (pointCloud2D : list point2D)
  : option (shape * t) :=
  match generateEnvelope st pointCloud2D with
  | None => None
  | Some (envelopePoints, st1) =>
      let st2 := set_points3D st1 (generate3DPoints st1 envelopePoints) in
      let '(fs, st3) := generateMesh st2 envelopePoints in
      let st4 := set_faces st3 fs in
      let st5 := set_centroid st4 (calculateCentroid st4) in
      Some ({| shape_points := points3D st5; shape_faces := faces st5;
               shape_centroid := centroid st5 |}, st5)
  end.

(** [rotatePoint(point)] *)
Definition rotatePoint (st : t) (point : vertex) : vec3 :=
  let x0 := vx point - x (centroid st) in
  let y0 := vy point - y (centroid st) in
  let z0 := vz point - z (centroid st) in
  let cosX := cos (x (rotation st)) in
  let sinX := sin (x (rotation st)) in
  let y1 := y0 * cosX - z0 * sinX in
  let z1 := y0 * sinX + z0 * cosX in
  let cosY := cos (y (rotation st)) in
  let sinY := sin (y (rotation st)) in
  let x2 := x0 * cosY + z1 * sinY in
  let z2 := - x0 * sinY + z1 * cosY in
  {| x := x2 + x (centroid st);
     y := y1 + y (centroid st);
     z := z2 + z (centroid st) |}.

(** [project3DTo2D(point)].  Nothing keeps [perspective + relZ] away from
    zero: there the source's [scale] is an infinity or a NaN, and so are
    [x2D] and [y2D]. *)
Definition project3DTo2D (st : t) (point : vertex) : projected :=
  let rotated := rotatePoint st point in
  let relX := x rotated - x (centroid st) in
  let relY := y rotated - y (centroid st) in
  let relZ := z rotated - z (centroid st) in
  let perspective := 500 in
  let scale :=
    option_map (fun q => q * zoom st * 50)
      (num_div perspective (perspective + relZ)) in
  let x2D := option_map (fun s => canvas_width st / 2 + relX * s) scale in
  let y2D := option_map (fun s => canvas_height st / 2 - relY * s) scale in
  {| proj_x := x2D; proj_y := y2D; proj_z := relZ |}.

(** The elements of [face.indices], in order. *)
Definition indices_list (f : face) : list nat :=
  let '(a, b, c) := indices f in [a; b; c].

(** [face.indices.reduce((sum, idx) => sum + rotatePoint(points3D[idx]).z, 0)];
    [None] is the [TypeError] of [rotatePoint(undefined)]. *)
Definition depth_sum (st : t) (idxs : list nat) : option R :=
  fold_left
    (fun sum idx =>
       match sum, nth_error (points3D st) idx with
       | Some s, Some p =>
           let rotated := rotatePoint st p in
           Some (s + z rotated)
       | _, _ => None
       end)
    idxs (Some 0).

(** The [avgZ] of a face; [face.indices.length] is three. *)
Definition avgZ (st : t) (f : face) : option R :=
  option_map (fun sum => sum / 3) (depth_sum st (indices_list f)).

(** [this.faces.map(face => ({face, avgZ}))] *)
Fixpoint facesWithDepth (st : t) (fs : list face) : option (list (face * R)) :=
  match fs with
  | [] => Some []
  | f :: rest =>
      match avgZ st f, facesWithDepth st rest with
      | Some d, Some l => Some ((f, d) :: l)
      | _, _ => None
      end
  end.

(** [facesWithDepth.sort((a, b) => a.avgZ - b.avgZ)].  [Array.prototype.sort]
    is stable and the comparator is a total preorder on real depths, which
    fixes the sorted array; the stable insertion sort computes it.  [a] goes
    after [b] exactly when [a.avgZ - b.avgZ > 0]. *)
Fixpoint insert_by_depth (a : face * R) (sorted : list (face * R))
  : list (face * R) :=
  match sorted with
  | [] => [a]
  | b :: rest =>
      if Rlt_dec 0 (snd a - snd b) then b :: insert_by_depth a rest
      else a :: b :: rest
  end.

Definition sort_by_depth (l : list (face * R)) : list (face * R) :=
  fold_right insert_by_depth [] l.

(** [points.every(p => p)], with the points when it holds. *)
Fixpoint every_defined {A : Type} (points : list (option A)) : option (list A) :=
  match points with
  | [] => Some []
  | None :: _ => None
  | Some p :: rest =>
      match every_defined rest with
      | Some l => Some (p :: l)
      | None => None
      end
  end.

(** [drawFace(face, projectedPoints)]: one filled path at opacity 0.7, or
    nothing when a projected point is missing. *)
Definition drawFace (f : face) (projectedPoints : list projected)
  : list draw_event :=
  let points := map (nth_error projectedPoints) (indices_list f) in
  match every_defined points with
  | None => []
  | Some path => [Fill (face_color f) (7 / 10) path]
  end.

(** [drawWireframe(projectedPoints)]: one stroked path per face of
    [this.faces], at opacity 0.3. *)
Definition drawWireframe (st : t) (projectedPoints : list projected)
  : list draw_event :=
  flat_map
    (fun f =>
       let points := map (nth_error projectedPoints) (indices_list f) in
       match every_defined points with
       | None => []
       | Some path => [Stroke (3 / 10) path]
       end)
    (faces st).

(** [render()]: the events of one frame, in order.  The text of the
    placeholder message is the source's, in English. *)
Definition render (st : t) : option (list draw_event) :=
  if Nat.eqb (List.length (points3D st)) 0 then
    Some [Clear; Message "no 3D shape data"]
  else
    let projectedPoints := map (project3DTo2D st) (points3D st) in
    match facesWithDepth st (faces st) with
    | None => None
    | Some withDepth =>
        let sorted := sort_by_depth withDepth in
        Some ([Clear]
              ++ flat_map (fun fd => drawFace (fst fd) projectedPoints) sorted
              ++ drawWireframe st projectedPoints)
    end.

End Shape3DRenderer.

(** * Properties *)

(** ** The placement, as a function of the radii

    [place] is what the loop of [calculate] appends after the point [prev],
    and [place_console] what it writes to the console; they are related to
    the loop by [calculate_loop_run] below. *)

Module Placement.
Import PointCalculator.

Definition discriminant (b : R) (prev : point) (targetY : R) : R :=
  b * (13 / 10) * (b * (13 / 10)) - (targetY - y prev) * (targetY - y prev).

Definition next_point (b : R) (prev : point) (e : radius_entry) : point :=
  if Rle_dec 0 (discriminant b prev (radius e)) then
    {| x := x prev + sqrt (discriminant b prev (radius e));
       y := radius e; index := entry_index e |}
  else {| x := x prev; y := radius e; index := entry_index e |}.

Definition next_console (b : R) (prev : point) (e : radius_entry)
  : list diagnostic :=
  if Rle_dec 0 (discriminant b prev (radius e)) then []
  else [Warn (b * (13 / 10)) (radius e - y prev)].

Fixpoint place (b : R) (prev : point) (es : list radius_entry) : list point :=
  match es with
  | [] => []
  | e :: rest => next_point b prev e :: place b (next_point b prev e) rest
  end.

Fixpoint place_console (b : R) (prev : point) (es : list radius_entry)
  : list diagnostic :=
  match es with
  | [] => []
  | e :: rest =>
      next_console b prev e ++ place_console b (next_point b prev e) rest
  end.

(** The first point of a profile. *)
Definition first_point (e : radius_entry) : point :=
  {| x := 0; y := radius e; index := entry_index e |}.

End Placement.

(** ** The revolution, in closed form

    What the loops of [generate3DPoints] and [generateMesh] push, one turn
    at a time; the lemmas of [RevolutionProofs] relate them to the loops. *)

Module Revolution.
Import Shape3DRenderer.

(** The vertex of envelope point [point], of index [pointIndex], at the
    angular step [i]. *)
Definition revolved (divisions : nat) (point : point2D) (pointIndex i : nat)
  : vertex :=
  {| vx := px point;
     vy := py point * cos (2 * PI * INR i / INR divisions);
     vz := py point * sin (2 * PI * INR i / INR divisions);
     originalIndex := Some pointIndex; rotationIndex := Some i |}.

(** The two triangles of the quad of ring [i] and segment [j]. *)
Definition quad_faces (divisions i j : nat) : list face :=
  let nextJ := ((j + 1) mod divisions)%nat in
  [ {| indices := ((i * divisions + j)%nat, (i * divisions + nextJ)%nat,
                   ((i + 1) * divisions + nextJ)%nat);
       face_color := getColorForFace i j |};
    {| indices := ((i * divisions + j)%nat, ((i + 1) * divisions + nextJ)%nat,
                   ((i + 1) * divisions + j)%nat);
       face_color := getColorForFace i j |} ].

(** The cap triangle of segment [j]. *)
Definition cap_face (divisions centerIndex j : nat) : face :=
  {| indices := (centerIndex, ((j + 1) mod divisions)%nat, j);
     face_color := literal "#666666" |}.

(** The cap centre that [generateMesh] pushes for an envelope, if any. *)
Definition cap_vertices (envelope : list point2D) : list vertex :=
  match envelope with
  | first :: _ =>
      if Req_dec_T (px first) 0 then []
      else [ {| vx := px first; vy := 0; vz := 0;
                originalIndex := None; rotationIndex := None |} ]
  | [] => []
  end.

(** The sum of a list of numbers. *)
Definition Rsum (l : list R) : R := fold_right Rplus 0 l.

(** All three indices of a face are positions of an array of length [n]. *)
Definition valid_face (n : nat) (f : face) : Prop :=
  let '(a, b, c) := indices f in (a < n)%nat /\ (b < n)%nat /\ (c < n)%nat.

End Revolution.

(** ** A frame, face by face

    What the claims about [render] speak of: the three vertices of a face,
    the mean of their centroid-relative depths, and the path that is filled
    or stroked for it. *)

Module Frame.
Import Shape3DRenderer.

(** The vertices at the three indices of a face, when all three are
    positions of [points3D]. *)
Definition face_corners (st : t) (f : face) : option (vertex * vertex * vertex) :=
  let '(a, b, c) := indices f in
  match nth_error (points3D st) a, nth_error (points3D st) b,
        nth_error (points3D st) c with
  | Some va, Some vb, Some vc => Some (va, vb, vc)
  | _, _, _ => None
  end.

(** The arithmetic mean of the depths that [project3DTo2D] gives the three
    vertices of a face: their rotated [z], relative to the centroid. *)
Definition mean_relative_depth (st : t) (f : face) : option R :=
  option_map
    (fun '(va, vb, vc) =>
       (proj_z (project3DTo2D st va) + proj_z (project3DTo2D st vb)
        + proj_z (project3DTo2D st vc)) / 3)
    (face_corners st f).

(** The projected triangle of a face. *)
Definition face_path (st : t) (f : face) : option (list projected) :=
  option_map
    (fun '(va, vb, vc) =>
       [project3DTo2D st va; project3DTo2D st vb; project3DTo2D st vc])
    (face_corners st f).

Definition fill_event (st : t) (f : face) : option draw_event :=
  option_map (Fill (face_color f) (7 / 10)) (face_path st f).

Definition stroke_event (st : t) (f : face) : option draw_event :=
  option_map (Stroke (3 / 10)) (face_path st f).

(** Ascending depth. *)
Definition depth_le (a b : face * R) : Prop := snd a <= snd b.

End Frame.

(** ** The rest of PointCalculator: the accessors and the statistics *)

(** [Math.min(...args)] and [Math.max(...args)]: [None] is the infinity
    they return without arguments. *)
Definition Math_min (args : list R) : option R :=
  match args with
  | [] => None
  | a :: rest => Some (fold_left Rmin rest a)
  end.

Definition Math_max (args : list R) : option R :=
  match args with
  | [] => None
  | a :: rest => Some (fold_left Rmax rest a)
  end.

Module PointCalculatorStats.
Import PointCalculator.

(** [getPointCloud()], [getRadiusArray()], [getBaseRadius()] *)
Definition getPointCloud (st : t) : list point := pointCloud st.
Definition getRadiusArray (st : t) : list radius_entry := radiusArray st.
Definition getBaseRadius (st : t) : R := baseRadius st.

(** What [getStats] returns when it is not [null]. *)
Record stats := mk_stats {
  pointCount : nat;
  stats_baseRadius : R;
  xMin : option R;
  xMax : option R;
  yMin : option R;
  yMax : option R
}.

(** [getStats()]; [None] is [null]. *)
Definition getStats (st : t) : option stats :=
  if Nat.eqb (List.length (pointCloud st)) 0 then None
  else
    let xValues := map x (pointCloud st) in
    let yValues := map y (pointCloud st) in
    Some {| pointCount := List.length (pointCloud st);
            stats_baseRadius := baseRadius st;
            xMin := Math_min xValues;
            xMax := Math_max xValues;
            yMin := Math_min yValues;
            yMax := Math_max yValues |}.

(** Every step from one radius to the next, starting from [y0], is at most
    [d] in absolute value. *)
Fixpoint steps_within (d y0 : R) (radii : list R) : Prop :=
  match radii with
  | [] => True
  | r :: rest => Rabs (r - y0) <= d /\ steps_within d r rest
  end.

End PointCalculatorStats.

(** ** The smoothing, point by point *)

Module Smoothing.
Import Shape3DRenderer.

(** The coordinates of the objects of an array. *)
Definition coords (points : list point2D) : list (R * R) :=
  map (fun o => (px o, py o)) points.

(** The coordinates that one turn of the loop of [smoothEnvelope] gives the
    point of index [i], with weight [w]. *)
Definition smoothed_xy (w : R) (envelope : list point2D) (i : nat)
  : option (R * R) :=
  match nth_error envelope (Nat.max 0 (i - 1)), nth_error envelope i,
        nth_error envelope (Nat.min (List.length envelope - 1) (i + 1)) with
  | Some prev, Some curr, Some next =>
      Some (px curr * (1 - w) + (px prev + px next) * w / 2,
            py curr * (1 - w) + (py prev + py next) * w / 2)
  | _, _, _ => None
  end.

(** [x] does not decrease along the array. *)
Definition x_sorted (points : list point2D) : Prop :=
  forall i j p q,
    (i <= j)%nat -> nth_error points i = Some p -> nth_error points j = Some q ->
    px p <= px q.

End Smoothing.

(** ** Shape3DRenderer: the pointer, wheel and touch handlers

    The handlers that [attachEventListeners] registers, [animate],
    [toggleAutoRotate] and [resize], as functions of the state they read and
    write: the renderer and the fields that only the handlers use. *)

Module Shape3DInput.
Import Shape3DRenderer.

(** An element of [e.touches]: [{clientX, clientY}]. *)
Record touch := mk_touch { clientX : R; clientY : R }.

Record t := mk {
  renderer : Shape3DRenderer.t;
  isDragging : bool;
  lastMouseX : R;
  lastMouseY : R;
  touches : list touch;
  lastTouchDistance : R
}.

(** The fields as the constructor and the first lines of
    [attachEventListeners] leave them. *)
Definition new (r : Shape3DRenderer.t) : t :=
  {| renderer := r; isDragging := false; lastMouseX := 0; lastMouseY := 0;
     touches := []; lastTouchDistance := 0 |}.

Definition set_autoRotate (r : Shape3DRenderer.t) (b : bool) : Shape3DRenderer.t :=
  {| rotation := rotation r; zoom := zoom r; autoRotate := b;
     points3D := points3D r; faces := faces r; centroid := centroid r;
     rotationDivisions := rotationDivisions r;
     alphaRadius := alphaRadius r; envelopeSmoothing := envelopeSmoothing r;
     canvas_width := canvas_width r; canvas_height := canvas_height r;
     next_oid := next_oid r |}.

(** [this.rotation.y += dy; this.rotation.x += dx] *)
Definition rotate_by (r : Shape3DRenderer.t) (dx dy : R) : Shape3DRenderer.t :=
  set_view r
    {| x := x (rotation r) + dx; y := y (rotation r) + dy; z := z (rotation r) |}
    (zoom r) (canvas_width r) (canvas_height r).

(** [this.zoom *= factor; this.zoom = Math.max(0.1, Math.min(5, this.zoom))] *)
Definition zoom_by (r : Shape3DRenderer.t) (factor : R) : Shape3DRenderer.t :=
  set_view r (rotation r) (Rmax (1 / 10) (Rmin 5 (zoom r * factor)))
    (canvas_width r) (canvas_height r).

(** [getTouchDistance()] *)
Definition getTouchDistance (s : t) : R :=
  match touches s with
  | t0 :: t1 :: _ =>
      let dx := clientX t0 - clientX t1 in
      let dy := clientY t0 - clientY t1 in
      sqrt (dx * dx + dy * dy)
  | _ => 0
  end.

(** The events the canvas delivers, with what the handlers read of them,
    and the three methods that change the view from outside. *)
Inductive event :=
| MouseDown (clientX clientY : R)
| MouseMove (clientX clientY : R)
| MouseUp
| MouseLeave
| Wheel (deltaY : R)
| TouchStart (touches : list touch)
| TouchMove (touches : list touch)
| TouchEnd (touches : list touch)
| TouchCancel
| AnimationFrame
| ToggleAutoRotate
| Resize (width height : R).

Definition with_renderer (s : t) (r : Shape3DRenderer.t) : t :=
  {| renderer := r; isDragging := isDragging s; lastMouseX := lastMouseX s;
     lastMouseY := lastMouseY s; touches := touches s;
     lastTouchDistance := lastTouchDistance s |}.

Definition with_drag (s : t) (dragging : bool) (mx my : R) : t :=
  {| renderer := renderer s; isDragging := dragging; lastMouseX := mx;
     lastMouseY := my; touches := touches s;
     lastTouchDistance := lastTouchDistance s |}.

Definition with_touches (s : t) (ts : list touch) : t :=
  {| renderer := renderer s; isDragging := isDragging s;
     lastMouseX := lastMouseX s; lastMouseY := lastMouseY s; touches := ts;
     lastTouchDistance := lastTouchDistance s |}.

Definition with_lastTouchDistance (s : t) (d : R) : t :=
  {| renderer := renderer s; isDragging := isDragging s;
     lastMouseX := lastMouseX s; lastMouseY := lastMouseY s;
     touches := touches s; lastTouchDistance := d |}.

(** The drag of the [mousemove] and one-finger [touchmove] handlers. *)
Definition drag_to (s : t) (cx cy : R) : t :=
  let deltaX := cx - lastMouseX s in
  let deltaY := cy - lastMouseY s in
  let r := rotate_by (renderer s) (deltaY * (1 / 100)) (deltaX * (1 / 100)) in
  with_drag (with_renderer s r) (isDragging s) cx cy.

(** What each handler does to the state; [AnimationFrame] is the body of
    [animate] up to its call of [render]. *)
Definition handle (s : t) (e : event) : t :=
  match e with
  | MouseDown cx cy => with_drag s true cx cy
  | MouseMove cx cy => if isDragging s then drag_to s cx cy else s
  | MouseUp => with_drag s false (lastMouseX s) (lastMouseY s)
  | MouseLeave => with_drag s false (lastMouseX s) (lastMouseY s)
  | Wheel deltaY =>
      with_renderer s (zoom_by (renderer s) (1 - deltaY * (1 / 1000)))
  | TouchStart ts =>
      let s1 := with_touches s ts in
      match ts with
      | [t0] => with_drag s1 true (clientX t0) (clientY t0)
      | [_; _] =>
          let s2 := with_drag s1 false (lastMouseX s1) (lastMouseY s1) in
          with_lastTouchDistance s2 (getTouchDistance s2)
      | _ => s1
      end
  | TouchMove ts =>
      let s1 := with_touches s ts in
      match ts with
      | [t0] => if isDragging s1 then drag_to s1 (clientX t0) (clientY t0) else s1
      | [_; _] =>
          let currentDistance := getTouchDistance s1 in
          let delta := currentDistance - lastTouchDistance s1 in
          let s2 :=
            with_renderer s1 (zoom_by (renderer s1) (1 + delta * (1 / 100))) in
          with_lastTouchDistance s2 currentDistance
      | _ => s1
      end
  | TouchEnd ts =>
      let s1 := with_touches s ts in
      match ts with
      | [] =>
          with_lastTouchDistance
            (with_drag s1 false (lastMouseX s1) (lastMouseY s1)) 0
      | [t0] =>
          with_lastTouchDistance
            (with_drag s1 true (clientX t0) (clientY t0)) 0
      | _ => s1
      end
  | TouchCancel =>
      with_lastTouchDistance
        (with_touches (with_drag s false (lastMouseX s) (lastMouseY s)) []) 0
  | AnimationFrame =>
      if autoRotate (renderer s) then
        let r := renderer s in
        with_renderer s
          (set_view r
             {| x := x (rotation r); y := y (rotation r) + 1 / 100;
                z := z (rotation r) |}
             (zoom r) (canvas_width r) (canvas_height r))
      else s
  | ToggleAutoRotate =>
      with_renderer s (set_autoRotate (renderer s) (negb (autoRotate (renderer s))))
  | Resize width height =>
      with_renderer s
        (set_view (renderer s) (rotation (renderer s)) (zoom (renderer s))
           width height)
  end.

(** The state after a sequence of events. *)
Definition run (s : t) (events : list event) : t := fold_left handle events s.

End Shape3DInput.

(** ** Point2DRenderer: the automatic viewport *)

Module Point2DRenderer.

(** The fields that [calculateViewport] and [toCanvasCoords] read and
    write, and the size of the canvas. *)
Record t := mk {
  canvas_width : R;
  canvas_height : R;
  padding : R;
  pointCloud : list PointCalculator.point;
  scale : R;
  offsetX : R;
  offsetY : R
}.

(** [constructor(canvasId)], on a canvas of the given size. *)
Definition new (width height : R) : t :=
  {| canvas_width := width; canvas_height := height; padding := 50;
     pointCloud := []; scale := 1; offsetX := 0; offsetY := 0 |}.

Definition set_pointCloud (st : t) (pts : list PointCalculator.point) : t :=
  {| canvas_width := canvas_width st; canvas_height := canvas_height st;
     padding := padding st; pointCloud := pts; scale := scale st;
     offsetX := offsetX st; offsetY := offsetY st |}.

(** [v || 1] on a number: 1 when [v] is zero. *)
Definition or_one (v : R) : R := if Req_dec_T v 0 then 1 else v.

(** [calculateViewport()].  The four bounds are real numbers, because the
    array is not empty past the first test; [None] stands for the case of
    an infinite bound, which is never reached.  The two divisors are made
    non-zero by [|| 1]. *)
Definition calculateViewport (st : t) : option t :=
  if Nat.eqb (List.length (pointCloud st)) 0 then Some st
  else
    let xValues := map PointCalculator.x (pointCloud st) in
    let yValues := map PointCalculator.y (pointCloud st) in
    match Math_min (xValues ++ [0]), Math_max xValues,
          Math_min (yValues ++ [0]), Math_max yValues with
    | Some xMin, Some xMax, Some yMin, Some yMax =>
        let dataWidth := xMax - xMin in
        let dataHeight := yMax - yMin in
        let canvasWidth := canvas_width st - 2 * padding st in
        let canvasHeight := canvas_height st - 2 * padding st in
        let scaleX := canvasWidth / or_one (dataWidth * (12 / 10)) in
        let scaleY := canvasHeight / or_one (dataHeight * (12 / 10)) in
        let scale' := Rmin scaleX scaleY in
        Some {| canvas_width := canvas_width st;
                canvas_height := canvas_height st;
                padding := padding st; pointCloud := pointCloud st;
                scale := scale';
                offsetX := padding st + (canvasWidth - dataWidth * scale') / 2
                           - xMin * scale';
                offsetY := canvas_height st - padding st
                           - (canvasHeight - dataHeight * scale') / 2
                           + yMin * scale' |}
    | _, _, _, _ => None
    end.

(** [toCanvasCoords(x, y)] *)
Definition toCanvasCoords (st : t) (x y : R) : R * R :=
  (offsetX st + x * scale st, offsetY st - y * scale st).

End Point2DRenderer.

(** ** TableManager: the table behind the buttons

    The state that the button handlers keep, without the document they
    redraw: the values are the whole numbers the buttons produce. *)

Module TableManager.

Open Scope Z_scope.

Record t := mk {
  baseNumber : Z;
  currentValue : Z;
  tableData : list Z;
  isBaseSet : bool;
  (** whether [onDataChange] registered a callback, and the arrays it was
      called with, the latest last *)
  changeCallback : bool;
  changes : list (list Z)
}.

(** [constructor(...)] *)
Definition new : t :=
  {| baseNumber := 1; currentValue := 1; tableData := []; isBaseSet := false;
     changeCallback := false; changes := [] |}.

(** [onDataChange(callback)] *)
Definition onDataChange (s : t) : t :=
  {| baseNumber := baseNumber s; currentValue := currentValue s;
     tableData := tableData s; isBaseSet := isBaseSet s;
     changeCallback := true; changes := changes s |}.

(** [if (this.changeCallback) this.changeCallback(this.tableData)] *)
Definition notify (s : t) : t :=
  if changeCallback s then
    {| baseNumber := baseNumber s; currentValue := currentValue s;
       tableData := tableData s; isBaseSet := isBaseSet s;
       changeCallback := true; changes := push (changes s) (tableData s) |}
  else s.

Definition set_currentValue (s : t) (v : Z) : t :=
  {| baseNumber := baseNumber s; currentValue := v;
     tableData := tableData s; isBaseSet := isBaseSet s;
     changeCallback := changeCallback s; changes := changes s |}.

Definition set_tableData (s : t) (l : list Z) : t :=
  {| baseNumber := baseNumber s; currentValue := currentValue s;
     tableData := l; isBaseSet := isBaseSet s;
     changeCallback := changeCallback s; changes := changes s |}.

(** [this.tableData[this.tableData.length - 1]]: [None] on the empty
    array. *)
Definition last_value (l : list Z) : option Z :=
  nth_error l (List.length l - 1).

(** [addToTable(value)] *)
Definition addToTable (s : t) (value : Z) : t :=
  notify (set_tableData s (push (tableData s) value)).

(** [handleUpDown(delta)] *)
Definition handleUpDown (s : t) (delta : Z) : t :=
  if negb (isBaseSet s) then
    set_currentValue s (Z.max 1 (currentValue s + delta))
  else
    let previousValue :=
      match last_value (tableData s) with
      | Some v => v
      | None => baseNumber s
      end in
    let s1 := set_currentValue s (previousValue + delta * baseNumber s) in
    addToTable s1 (currentValue s1).

(** [handleStay()] *)
Definition handleStay (s : t) : t :=
  if isBaseSet s then
    match last_value (tableData s) with
    | Some v =>
        let s1 := set_currentValue s v in
        addToTable s1 (currentValue s1)
    | None => s
    end
  else s.

(** [handleCheck()] *)
Definition handleCheck (s : t) : t :=
  if negb (isBaseSet s) then
    let s1 :=
      {| baseNumber := currentValue s; currentValue := currentValue s;
         tableData := tableData s; isBaseSet := true;
         changeCallback := changeCallback s; changes := changes s |} in
    addToTable s1 (currentValue s1)
  else addToTable s (currentValue s).

(** [handleResume()] *)
Definition handleResume (s : t) : t :=
  match tableData s with
  | [] => s
  | _ :: _ =>
      let s1 := set_tableData s (removelast (tableData s)) in
      let s2 :=
        match last_value (tableData s1) with
        | None =>
            {| baseNumber := baseNumber s1; currentValue := 1;
               tableData := tableData s1; isBaseSet := false;
               changeCallback := changeCallback s1; changes := changes s1 |}
        | Some v => set_currentValue s1 v
        end in
      notify s2
  end.

(** [handleReset()], with the answer to the confirmation dialog. *)
Definition handleReset (s : t) (confirmed : bool) : t :=
  if confirmed then
    notify {| baseNumber := 1; currentValue := 1; tableData := [];
              isBaseSet := false;
              changeCallback := changeCallback s; changes := changes s |}
  else s.

(** [getData()] *)
Definition getData (s : t) : list Z := tableData s.

(** [validate()] *)
Definition validate (s : t) : bool :=
  Nat.ltb 0 (List.length (tableData s))
  && forallb (fun v => Z.leb 1 v) (tableData s).

(** A click on one of the buttons. *)
Inductive button := Up | Down | Stay | Check | Resume | Reset (confirmed : bool).

Definition click (s : t) (b : button) : t :=
  match b with
  | Up => handleUpDown s 1
  | Down => handleUpDown s (-1)
  | Stay => handleStay s
  | Check => handleCheck s
  | Resume => handleResume s
  | Reset confirmed => handleReset s confirmed
  end.

Definition run (s : t) (clicks : list button) : t := fold_left click clicks s.

(** What the buttons keep true of the table. *)
Definition well_formed (s : t) : Prop :=
  1 <= baseNumber s
  /\ (isBaseSet s = false -> tableData s = [] /\ 1 <= currentValue s)
  /\ (isBaseSet s = true ->
      nth_error (tableData s) 0 = Some (baseNumber s)
      /\ last_value (tableData s) = Some (currentValue s))
  /\ (forall i u v,
         nth_error (tableData s) i = Some u ->
         nth_error (tableData s) (S i) = Some v ->
         v - u = - baseNumber s \/ v - u = 0 \/ v - u = baseNumber s).

End TableManager.

(** ** TableManager: loading data, and the unused interpolation of
    Shape3DRenderer *)

Module TableManagerData.
Import TableManager.

(** [setData(data)], for an array of whole numbers. *)
Definition setData (s : t) (data : list Z) : t :=
  match data with
  | [] => s
  | first :: _ =>
      {| baseNumber := first;
         currentValue := match last_value data with
                         | Some v => v
                         | None => first
                         end;
         tableData := data; isBaseSet := true;
         changeCallback := changeCallback s; changes := changes s |}
  end.

End TableManagerData.

Module Interpolation.
Import Shape3DRenderer.

(** [catmullRomInterpolate(p0, p1, p2, p3, t)] *)
Definition catmullRomInterpolate (p0 p1 p2 p3 t : R) : R :=
  let t2 := t * t in
  let t3 := t2 * t in
  1 / 2 * (2 * p1
           + (- p0 + p2) * t
           + (2 * p0 - 5 * p1 + 4 * p2 - p3) * t2
           + (- p0 + 3 * p1 - 3 * p2 + p3) * t3).

(** The loop over [j] of [interpolatePoints], from [j] with [turns] turns
    left; [t = j / (interpolationSteps + 1)], a divisor of at least one. *)
Fixpoint spline_loop (turns interpolationSteps : nat) (p0 p1 p2 p3 : point2D)
  (j : nat) (st : t) (interpolated : list point2D) : list point2D * t :=
  match turns with
  | O => (interpolated, st)
  | S turns' =>
      let t := INR j / (INR interpolationSteps + 1) in
      let x := catmullRomInterpolate (px p0) (px p1) (px p2) (px p3) t in
      let y := catmullRomInterpolate (py p0) (py p1) (py p2) (py p3) t in
      let '(o, st1) := new_point2D st x y in
      spline_loop turns' interpolationSteps p0 p1 p2 p3 (S j) st1
        (push interpolated o)
  end.

(** The loop over [i] of [interpolatePoints].  [None] is the [TypeError] of
    reading a field of [undefined].  The source reads [p0] and [p3] inside
    the loop over [j]; their indices are positions of the array whenever
    they are computed. *)
Fixpoint point_loop (turns interpolationSteps : nat) (pointCloud2D : list point2D)
  (i : nat) (st : t) (interpolated : list point2D)
  : option (list point2D * t) :=
  match turns with
  | O => Some (interpolated, st)
  | S turns' =>
      match nth_error pointCloud2D i with
      | None => None
      | Some current =>
          let '(copy, st1) := new_point2D st (px current) (py current) in
          let interpolated1 := push interpolated copy in
          if Nat.ltb i (List.length pointCloud2D - 1) then
            match nth_error pointCloud2D (i + 1),
                  (if Nat.ltb 0 i then nth_error pointCloud2D (i - 1)
                   else Some current) with
            | Some next, Some p0 =>
                match (if Nat.ltb i (List.length pointCloud2D - 2)
                       then nth_error pointCloud2D (i + 2) else Some next) with
                | Some p3 =>
                    let '(interpolated2, st2) :=
                      spline_loop interpolationSteps interpolationSteps
                        p0 current next p3 1 st1 interpolated1 in
                    point_loop turns' interpolationSteps pointCloud2D (S i)
                      st2 interpolated2
                | None => None
                end
            | _, _ => None
            end
          else
            point_loop turns' interpolationSteps pointCloud2D (S i)
              st1 interpolated1
      end
  end.

(** [interpolatePoints(pointCloud2D)]; [this.interpolationSteps], which the
    constructor sets to 0, is the first argument. *)
Definition interpolatePoints (interpolationSteps : nat) (st : t)
  (pointCloud2D : list point2D) : option (list point2D * t) :=
  if Nat.ltb (List.length pointCloud2D) 2 then Some (pointCloud2D, st)
  else point_loop (List.length pointCloud2D) interpolationSteps pointCloud2D
         0 st [].

End Interpolation.

Module PlacementProofs.
Import PointCalculator Placement.

Lemma two_PI_neq_0 : 2 * PI <> 0.
Proof. pose proof PI_RGT_0. lra. Qed.

Lemma calculateNextPoint_eq (st : t) (prev : point) (e : radius_entry) :
  calculateNextPoint st prev (radius e) =
  (let p := next_point (baseRadius st) prev e in mk_xy (x p) (y p),
   {| baseRadius := baseRadius st; radiusArray := radiusArray st;
      pointCloud := pointCloud st;
      console := console st ++ next_console (baseRadius st) prev e |}).
Proof.
  unfold calculateNextPoint, next_point, next_console, discriminant.
  destruct (Rle_dec 0 _) as [Hd | Hd]; cbn.
  - rewrite app_nil_r. destruct st; reflexivity.
  - reflexivity.
Qed.

Lemma to_radiusArray_length (i : nat) (tableData : list R) :
  List.length (to_radiusArray i tableData) = List.length tableData.
Proof.
  revert i; induction tableData as [| c rest IH]; intros i; cbn; auto.
Qed.

Lemma to_radiusArray_nth (tableData : list R) :
  forall i k c,
    nth_error tableData k = Some c ->
    nth_error (to_radiusArray i tableData) k =
    Some {| entry_index := i + k + 1; radius := circumferenceToRadius c |}.
Proof.
  induction tableData as [| c0 rest IH]; intros i k c Hk.
  - destruct k; discriminate.
  - destruct k as [| k]; cbn in *.
    + inversion Hk; subst. now rewrite Nat.add_0_r.
    + rewrite (IH (S i) k c Hk). do 3 f_equal. lia.
Qed.

(** The loop, started after the points [pts0 ++ [prev]], appends [place] and
    logs [place_console]; it reads every entry it needs, so it never raises. *)
Lemma calculate_loop_run (es : list radius_entry) :
  forall (st : t) (done : list radius_entry) (pts0 : list point) (prev : point),
    radiusArray st = done ++ es ->
    pointCloud st = pts0 ++ [prev] ->
    List.length done = S (List.length pts0) ->
    calculate_loop (List.length es) st (List.length done) =
    Some {| baseRadius := baseRadius st; radiusArray := radiusArray st;
            pointCloud := pointCloud st ++ place (baseRadius st) prev es;
            console := console st ++ place_console (baseRadius st) prev es |}.
Proof.
  induction es as [| e rest IH]; intros st done pts0 prev Hr Hp Hl.
  - cbn. rewrite !app_nil_r. destruct st; reflexivity.
  - assert (Hn1 : nth_error (radiusArray st) (List.length done) = Some e).
    { rewrite Hr, nth_error_app2 by lia. now rewrite Nat.sub_diag. }
    assert (Hn2 : nth_error (pointCloud st) (List.length done - 1) = Some prev).
    { rewrite Hp, Hl, nth_error_app2 by lia.
      now replace (S (List.length pts0) - 1 - List.length pts0)%nat with 0%nat by lia. }
    cbn [List.length calculate_loop]. unfold calculate_step.
    rewrite Hn1.
    destruct (Nat.eqb_spec (List.length done) 0) as [H0 | _]; [lia |].
    rewrite Hn2.
    rewrite calculateNextPoint_eq. cbn zeta.
    set (p := next_point (baseRadius st) prev e).
    assert (Hpe : {| x := xy_x (mk_xy (x p) (y p)); y := xy_y (mk_xy (x p) (y p));
                     index := entry_index e |} = p).
    { unfold p, next_point. destruct (Rle_dec 0 _); reflexivity. }
    rewrite Hpe. unfold set_pointCloud, push. cbn [baseRadius radiusArray pointCloud console].
    specialize (IH
      {| baseRadius := baseRadius st; radiusArray := radiusArray st;
         pointCloud := pointCloud st ++ [p];
         console := console st ++ next_console (baseRadius st) prev e |}
      (done ++ [e]) (pts0 ++ [prev]) p).
    cbn [baseRadius radiusArray pointCloud console] in IH.
    rewrite length_app in IH. cbn [List.length] in IH.
    replace (List.length done + 1)%nat with (S (List.length done)) in IH by lia.
    rewrite IH.
    + cbn [place place_console]. fold p. rewrite <- !app_assoc. reflexivity.
    + rewrite Hr, <- app_assoc. reflexivity.
    + rewrite Hp. reflexivity.
    + rewrite length_app. cbn. lia.
Qed.

(** [calculate] on a non-empty array: it returns, with the first point and
    then the placement of the other radii against the first radius. *)
Lemma calculate_run (st : t) (c : R) (rest : list R) :
  let e0 := {| entry_index := 1; radius := circumferenceToRadius c |} in
  let b := circumferenceToRadius c in
  let pts := first_point e0 :: place b (first_point e0) (to_radiusArray 1 rest) in
  calculate st (c :: rest) =
  Some (pts,
        {| baseRadius := b; radiusArray := to_radiusArray 0 (c :: rest);
           pointCloud := pts;
           console := console st
                      ++ place_console b (first_point e0) (to_radiusArray 1 rest) |}).
Proof.
  intros e0 b pts.
  pose proof (calculate_loop_run (to_radiusArray 1 rest)
    {| baseRadius := b;
       radiusArray := e0 :: to_radiusArray 1 rest;
       pointCloud := [first_point e0]; console := console st |}
    [e0] [] (first_point e0) eq_refl eq_refl eq_refl) as Hrun.
  cbn [List.length baseRadius radiusArray pointCloud console app] in Hrun.
  rewrite to_radiusArray_length in Hrun.
  unfold calculate.
  cbn [to_radiusArray Nat.add]. unfold set_pointCloud, set_baseRadius, set_radiusArray.
  cbn [radiusArray nth_error radius baseRadius pointCloud console List.length
       calculate_loop].
  unfold calculate_step, set_pointCloud, push.
  cbn [radiusArray nth_error Nat.eqb pointCloud app baseRadius console radius
       entry_index].
  rewrite to_radiusArray_length.
  subst pts e0 b. unfold first_point in *. cbn [radius entry_index] in *.
  rewrite Hrun. reflexivity.
Qed.

Lemma place_length (b : R) (es : list radius_entry) :
  forall prev, List.length (place b prev es) = List.length es.
Proof. induction es as [| e rest IH]; intros prev; cbn; auto. Qed.

(** Two neighbours of a profile are related by [next_point]. *)
Lemma place_neighbours (b : R) (es : list radius_entry) :
  forall prev i p q,
    nth_error (prev :: place b prev es) i = Some p ->
    nth_error (prev :: place b prev es) (S i) = Some q ->
    exists e, nth_error es i = Some e /\ q = next_point b p e.
Proof.
  induction es as [| e rest IH]; intros prev i p q Hp Hq.
  - destruct i; cbn in Hq; discriminate.
  - destruct i as [| i].
    + cbn in Hp, Hq. inversion Hp; inversion Hq; subst. exists e. split; reflexivity.
    + cbn [place] in Hp, Hq.
      change (nth_error (next_point b prev e :: place b (next_point b prev e) rest) i
              = Some p) in Hp.
      change (nth_error (next_point b prev e :: place b (next_point b prev e) rest) (S i)
              = Some q) in Hq.
      destruct (IH _ _ _ _ Hp Hq) as (e' & He' & ->). exists e'. split; [assumption | reflexivity].
Qed.

Lemma next_point_y (b : R) (prev : point) (e : radius_entry) :
  y (next_point b prev e) = radius e.
Proof. unfold next_point. destruct (Rle_dec 0 _); reflexivity. Qed.

Lemma next_point_index (b : R) (prev : point) (e : radius_entry) :
  index (next_point b prev e) = entry_index e.
Proof. unfold next_point. destruct (Rle_dec 0 _); reflexivity. Qed.

Lemma next_point_x_le (b : R) (prev : point) (e : radius_entry) :
  x prev <= x (next_point b prev e).
Proof.
  unfold next_point. destruct (Rle_dec 0 _) as [Hd | Hd]; cbn.
  - pose proof (sqrt_pos (discriminant b prev (radius e))). lra.
  - lra.
Qed.

Lemma place_nth (b : R) (es : list radius_entry) :
  forall prev k e,
    nth_error es k = Some e ->
    exists p, nth_error (place b prev es) k = Some p
              /\ y p = radius e /\ index p = entry_index e.
Proof.
  induction es as [| e0 rest IH]; intros prev k e Hk.
  - destruct k; discriminate.
  - destruct k as [| k]; cbn in Hk |- *.
    + inversion Hk; subst. eexists. split; [reflexivity |].
      split; [apply next_point_y | apply next_point_index].
    + apply IH; assumption.
Qed.

Lemma circumferenceToRadius_2PI (k : R) : circumferenceToRadius (2 * PI * k) = k.
Proof. unfold circumferenceToRadius. field. pose proof PI_RGT_0. lra. Qed.

Lemma circumferenceToRadius_one : circumferenceToRadius (2 * PI) = 1.
Proof. unfold circumferenceToRadius. field. pose proof PI_RGT_0. lra. Qed.

(** The profile of a non-empty array, with the loop unrolled into [place]. *)
Lemma calculate_profile (st : t) (tableData : list R) (pts : list point) (st' : t) :
  calculate st tableData = Some (pts, st') ->
  forall m0, nth_error tableData 0 = Some m0 ->
  baseRadius st' = circumferenceToRadius m0
  /\ exists e0,
       radius e0 = circumferenceToRadius m0 /\ entry_index e0 = 1%nat
       /\ pts = first_point e0
                :: place (circumferenceToRadius m0) (first_point e0)
                     (to_radiusArray 1 (tl tableData)).
Proof.
  intros Hc m0 Hm0. destruct tableData as [| c rest]; [discriminate |].
  cbn in Hm0. inversion Hm0; subst c.
  rewrite calculate_run in Hc. inversion Hc; subst. cbn [baseRadius tl].
  split; [reflexivity |]. eexists. repeat split; reflexivity.
Qed.

(** C3.  On a non-empty array of magnitudes [calculate] returns a profile of
    the same length; its first point is [(0, magnitudes[0] / 2π)] with
    index 1; the point at every position has for [y] the magnitude at that
    position divided by [2π], and for [index] the position plus one; and
    the [x] of a point is never below the [x] of the point before it,
    whichever branch of [calculateNextPoint] placed it. *)
Theorem calculate_length_radius_monotone (st : t) (tableData : list R) :
  tableData <> [] ->
  exists pts st',
    calculate st tableData = Some (pts, st')
    /\ List.length pts = List.length tableData
    /\ (forall m0, nth_error tableData 0 = Some m0 ->
        nth_error pts 0 = Some {| x := 0; y := m0 / (2 * PI); index := 1 |})
    /\ (forall i m, nth_error tableData i = Some m ->
        exists p, nth_error pts i = Some p
                  /\ y p = m / (2 * PI) /\ index p = (i + 1)%nat)
    /\ (forall i p q, nth_error pts i = Some p -> nth_error pts (S i) = Some q ->
        x p <= x q).
Proof.
  intros Hne. destruct tableData as [| c rest]; [contradiction |].
  eexists. eexists. split; [apply calculate_run |].
  split; [| split; [| split]].
  - cbn [List.length]. now rewrite place_length, to_radiusArray_length.
  - intros m0 Hm0. cbn in Hm0. inversion Hm0; subst. reflexivity.
  - intros i m Hi. destruct i as [| i].
    + cbn in Hi. inversion Hi; subst. eexists. split; [reflexivity |]. split; reflexivity.
    + cbn [nth_error] in Hi |- *.
      pose proof (to_radiusArray_nth rest 1 i m Hi) as He.
      destruct (place_nth (circumferenceToRadius c) _
                  (first_point {| entry_index := 1; radius := circumferenceToRadius c |})
                  _ _ He) as (p & Hp & Hy & Hidx).
      exists p. split; [exact Hp |]. cbn in Hy, Hidx. split; [exact Hy |].
      rewrite Hidx. lia.
  - intros i p q Hp Hq.
    destruct (place_neighbours _ _ _ _ _ _ Hp Hq) as (e & _ & ->).
    apply next_point_x_le.
Qed.

Lemma calculate_length_radius_monotone_witness :
  [2 * PI; 4 * PI; 2 * PI] <> []
  /\ exists pts st',
    calculate new [2 * PI; 4 * PI; 2 * PI] = Some (pts, st')
    /\ List.length pts = 3%nat
    /\ (forall m0, nth_error [2 * PI; 4 * PI; 2 * PI] 0 = Some m0 ->
        nth_error pts 0 = Some {| x := 0; y := m0 / (2 * PI); index := 1 |})
    /\ (forall i m, nth_error [2 * PI; 4 * PI; 2 * PI] i = Some m ->
        exists p, nth_error pts i = Some p
                  /\ y p = m / (2 * PI) /\ index p = (i + 1)%nat)
    /\ (forall i p q, nth_error pts i = Some p -> nth_error pts (S i) = Some q ->
        x p <= x q).
Proof.
  split; [discriminate |].
  apply (calculate_length_radius_monotone new [2 * PI; 4 * PI; 2 * PI]).
  discriminate.
Defined.

(** C2.  For positive magnitudes, two neighbours of the profile whose
    placement discriminant is not negative lie at distance
    [baseRadius * 1.3] from each other, [baseRadius] being the radius of the
    first magnitude (an equality of real numbers). *)
Theorem placement_distance (st : t) (tableData : list R) (pts : list point)
  (st' : t) (m0 : R) (i : nat) (p q : point) :
  (forall m, In m tableData -> 0 < m) ->
  calculate st tableData = Some (pts, st') ->
  nth_error tableData 0 = Some m0 ->
  nth_error pts i = Some p ->
  nth_error pts (S i) = Some q ->
  0 <= circumferenceToRadius m0 * (13 / 10) * (circumferenceToRadius m0 * (13 / 10))
       - (y q - y p) * (y q - y p) ->
  baseRadius st' = circumferenceToRadius m0
  /\ sqrt ((x q - x p) * (x q - x p) + (y q - y p) * (y q - y p))
     = baseRadius st' * (13 / 10).
Proof.
  intros Hpos Hc Hm0 Hp Hq Hd.
  destruct (calculate_profile _ _ _ _ Hc _ Hm0) as (Hb & e0 & _ & _ & ->).
  split; [exact Hb |]. rewrite Hb.
  destruct (place_neighbours _ _ _ _ _ _ Hp Hq) as (e & _ & Hqe).
  assert (Hyq : y q = radius e) by (rewrite Hqe; apply next_point_y).
  set (b := circumferenceToRadius m0) in *.
  assert (Hb0 : 0 <= b * (13 / 10)).
  { assert (0 < m0) by (apply Hpos; destruct tableData; [discriminate |];
                        cbn in Hm0; inversion Hm0; now left).
    unfold b, circumferenceToRadius.
    assert (0 < m0 / (2 * PI)).
    { apply Rdiv_lt_0_compat; [assumption | pose proof PI_RGT_0; lra]. }
    lra. }
  assert (Hx : x q = x p + sqrt (discriminant b p (radius e))).
  { rewrite Hqe. unfold next_point.
    destruct (Rle_dec 0 _) as [_ | Hn]; [reflexivity |].
    exfalso. apply Hn. unfold discriminant. rewrite <- Hyq. exact Hd. }
  rewrite Hx.
  replace (x p + sqrt (discriminant b p (radius e)) - x p)
    with (sqrt (discriminant b p (radius e))) by ring.
  rewrite sqrt_sqrt by (unfold discriminant; rewrite <- Hyq; exact Hd).
  unfold discriminant. rewrite <- Hyq.
  replace (b * (13 / 10) * (b * (13 / 10)) - (y q - y p) * (y q - y p)
           + (y q - y p) * (y q - y p))
    with (Rsqr (b * (13 / 10))) by (unfold Rsqr; ring).
  apply sqrt_Rsqr. exact Hb0.
Qed.

(** The profile of [[2π; 4π]]: radii 1 and 2, discriminant 0.69. *)
Lemma placement_distance_witness :
  let p := first_point (mk_entry 1 (circumferenceToRadius (2 * PI * 1))) in
  let q := next_point (circumferenceToRadius (2 * PI * 1)) p
             (mk_entry 2 (circumferenceToRadius (2 * PI * 2))) in
  sqrt ((x q - x p) * (x q - x p) + (y q - y p) * (y q - y p))
  = circumferenceToRadius (2 * PI * 1) * (13 / 10).
Proof.
  intros p q.
  assert (Hpos : forall m, In m [2 * PI * 1; 2 * PI * 2] -> 0 < m).
  { intros m [<- | [<- | []]]; pose proof PI_RGT_0; lra. }
  assert (Hd : 0 <= circumferenceToRadius (2 * PI * 1) * (13 / 10)
                    * (circumferenceToRadius (2 * PI * 1) * (13 / 10))
                    - (y q - y p) * (y q - y p)).
  { subst q. rewrite next_point_y. subst p. cbn [first_point y radius].
    rewrite !circumferenceToRadius_2PI. lra. }
  exact (proj2 (placement_distance new [2 * PI * 1; 2 * PI * 2] _ _ (2 * PI * 1)
                  0 p q Hpos (calculate_run new _ _) eq_refl eq_refl eq_refl Hd)).
Defined.

(** C4.  When the discriminant is negative, [calculateNextPoint] returns the
    previous [x] with the target [y] and writes one warning to the console;
    nothing is raised, and [calculate] goes on to return a point for every
    magnitude.  For the magnitudes [2π, 2π·10] the second point is
    [(0, 10)], under the first, with the warning for spacing 1.3 and
    [dy = 9]. *)
Theorem negative_discriminant_fallback :
  (forall (st : t) (prevPoint : point) (targetY : R),
      baseRadius st * (13 / 10) * (baseRadius st * (13 / 10))
      - (targetY - y prevPoint) * (targetY - y prevPoint) < 0 ->
      calculateNextPoint st prevPoint targetY =
      ({| xy_x := x prevPoint; xy_y := targetY |},
       warn st (Warn (baseRadius st * (13 / 10)) (targetY - y prevPoint))))
  /\ (forall (st : t) (tableData : list R),
         exists pts st',
           calculate st tableData = Some (pts, st')
           /\ List.length pts = List.length tableData)
  /\ (exists st',
         calculate new [2 * PI; 2 * PI * 10] =
         Some ([ {| x := 0; y := 1; index := 1 |};
                 {| x := 0; y := 10; index := 2 |} ], st')
         /\ console st' = [Warn (13 / 10) 9]).
Proof.
  split; [| split].
  - intros st prevPoint targetY Hd. unfold calculateNextPoint.
    destruct (Rle_dec 0 _) as [Hp | _]; [lra | reflexivity].
  - intros st [| c rest].
    + exists [], st. split; reflexivity.
    + eexists. eexists. split; [apply calculate_run |].
      cbn [List.length]. now rewrite place_length, to_radiusArray_length.
  - eexists. rewrite calculate_run. cbn [console new app to_radiusArray Nat.add
      place place_console first_point].
    rewrite !circumferenceToRadius_2PI, !circumferenceToRadius_one.
    unfold next_point, next_console, discriminant, first_point.
    cbn [radius entry_index y x].
    destruct (Rle_dec 0 _) as [Hp | _]; [exfalso; lra |].
    split.
    + f_equal.
    + cbn [console app]. f_equal. f_equal; lra.
Qed.

Lemma negative_discriminant_fallback_witness :
  calculateNextPoint (mk 1 [] [] []) {| x := 0; y := 1; index := 1 |} 10 =
  ({| xy_x := 0; xy_y := 10 |},
   warn (mk 1 [] [] []) (Warn (1 * (13 / 10)) (10 - 1))).
Proof.
  apply (proj1 negative_discriminant_fallback (mk 1 [] [] [])
           {| x := 0; y := 1; index := 1 |} 10).
  cbn [baseRadius y]. lra.
Defined.

End PlacementProofs.

Module RevolutionProofs.
Import Shape3DRenderer Revolution.

Lemma nth_error_seq_Some (start len j : nat) :
  (j < len)%nat -> nth_error (seq start len) j = Some (start + j)%nat.
Proof.
  revert start j; induction len as [| len IH]; intros start j Hj; [lia |].
  destruct j as [| j]; cbn.
  - f_equal; lia.
  - rewrite IH by lia. f_equal; lia.
Qed.

Lemma rotation_loop_eq (turns : nat) :
  forall divisions point pointIndex i acc,
    rotation_loop turns divisions point pointIndex i acc =
    acc ++ map (revolved divisions point pointIndex) (seq i turns).
Proof.
  induction turns as [| turns IH]; intros divisions point pointIndex i acc; cbn.
  - now rewrite app_nil_r.
  - rewrite IH. unfold push. rewrite <- app_assoc. reflexivity.
Qed.

Lemma forEach_point_eq (pointCloud2D : list point2D) :
  forall pointIndex divisions acc,
    forEach_point pointCloud2D pointIndex divisions acc =
    acc ++ forEach_point pointCloud2D pointIndex divisions [].
Proof.
  induction pointCloud2D as [| point rest IH]; intros pointIndex divisions acc; cbn.
  - now rewrite app_nil_r.
  - rewrite IH.
    rewrite (IH _ _ (rotation_loop divisions divisions point pointIndex 0 [])).
    rewrite !rotation_loop_eq. cbn [app]. now rewrite app_assoc.
Qed.

Lemma forEach_point_cons (point : point2D) (rest : list point2D)
  (pointIndex divisions : nat) :
  forEach_point (point :: rest) pointIndex divisions [] =
  map (revolved divisions point pointIndex) (seq 0 divisions)
  ++ forEach_point rest (S pointIndex) divisions [].
Proof.
  cbn [forEach_point]. rewrite forEach_point_eq, rotation_loop_eq. reflexivity.
Qed.

Lemma forEach_point_length (pointCloud2D : list point2D) :
  forall pointIndex divisions,
    List.length (forEach_point pointCloud2D pointIndex divisions []) =
    (List.length pointCloud2D * divisions)%nat.
Proof.
  induction pointCloud2D as [| point rest IH]; intros pointIndex divisions.
  - reflexivity.
  - rewrite forEach_point_cons, length_app, length_map, length_seq, IH. cbn. lia.
Qed.

Lemma forEach_point_nth (pointCloud2D : list point2D) :
  forall pointIndex divisions k j point,
    nth_error pointCloud2D k = Some point ->
    (j < divisions)%nat ->
    nth_error (forEach_point pointCloud2D pointIndex divisions [])
      (k * divisions + j) =
    Some (revolved divisions point (pointIndex + k) j).
Proof.
  induction pointCloud2D as [| p0 rest IH]; intros pointIndex divisions k j point Hk Hj.
  - destruct k; discriminate.
  - rewrite forEach_point_cons. destruct k as [| k].
    + cbn in Hk. inversion Hk; subst. cbn [Nat.mul Nat.add].
      rewrite nth_error_app1 by (rewrite length_map, length_seq; lia).
      rewrite nth_error_map, nth_error_seq_Some by lia. cbn.
      now rewrite Nat.add_0_r.
    + cbn in Hk.
      rewrite nth_error_app2 by (rewrite length_map, length_seq; cbn; lia).
      rewrite length_map, length_seq.
      replace (S k * divisions + j - divisions)%nat with (k * divisions + j)%nat
        by (cbn; lia).
      rewrite (IH (S pointIndex) divisions k j point Hk Hj).
      do 2 f_equal. lia.
Qed.

Lemma generate3DPoints_length (st : t) (envelope : list point2D) :
  List.length (generate3DPoints st envelope)
  = (List.length envelope * rotationDivisions st)%nat.
Proof. apply forEach_point_length. Qed.

(** [generateMesh] leaves in [points3D] what it found there, followed by the
    cap centre. *)
Lemma generateMesh_points3D (st : t) (envelope : list point2D) :
  points3D (snd (generateMesh st envelope)) = points3D st ++ cap_vertices envelope.
Proof.
  unfold generateMesh, cap_vertices. destruct envelope as [| first rest].
  - cbn. now rewrite app_nil_r.
  - destruct (Req_dec_T (px first) 0); cbn [snd set_points3D points3D push].
    + now rewrite app_nil_r.
    + reflexivity.
Qed.

(** C6.  [generate3DPoints] returns [envelope.length × divisions] vertices;
    the vertex of envelope point [p] of index [k] at the angular step [j]
    is [(p.x, p.y·cos(2πj/divisions), p.y·sin(2πj/divisions))], tagged
    [originalIndex = k] and [rotationIndex = j], at position
    [k·divisions + j]; every position of the array is of this form; and
    after [generateMesh] the array is these vertices followed by the cap
    centre, if there is one. *)
Theorem generate3DPoints_ring_major (st : t) (envelope : list point2D) :
  let divisions := rotationDivisions st in
  let vertices := generate3DPoints st envelope in
  List.length vertices = (List.length envelope * divisions)%nat
  /\ (forall k j p,
         nth_error envelope k = Some p -> (j < divisions)%nat ->
         nth_error vertices (k * divisions + j) =
         Some {| vx := px p;
                 vy := py p * cos (2 * PI * INR j / INR divisions);
                 vz := py p * sin (2 * PI * INR j / INR divisions);
                 originalIndex := Some k; rotationIndex := Some j |})
  /\ (forall n v,
         nth_error vertices n = Some v ->
         exists k j p,
           n = (k * divisions + j)%nat /\ (j < divisions)%nat
           /\ nth_error envelope k = Some p
           /\ originalIndex v = Some k /\ rotationIndex v = Some j)
  /\ points3D (snd (generateMesh (set_points3D st vertices) envelope))
     = vertices ++ cap_vertices envelope.
Proof.
  intros divisions vertices. unfold vertices, generate3DPoints. fold divisions.
  split; [apply forEach_point_length |]. split; [| split].
  - intros k j p Hk Hj.
    rewrite (forEach_point_nth envelope 0 divisions k j p Hk Hj). reflexivity.
  - intros n v Hn.
    assert (Hlt : (n < List.length envelope * divisions)%nat).
    { rewrite <- (forEach_point_length envelope 0 divisions).
      apply nth_error_Some. congruence. }
    assert (Hd : (0 < divisions)%nat) by (destruct divisions; lia).
    assert (Hk : (n / divisions < List.length envelope)%nat).
    { apply Nat.Div0.div_lt_upper_bound. lia. }
    destruct (nth_error envelope (n / divisions)) as [p |] eqn:Hp;
      [| apply nth_error_None in Hp; lia].
    assert (Hj : (n mod divisions < divisions)%nat) by (apply Nat.mod_upper_bound; lia).
    exists (n / divisions)%nat, (n mod divisions)%nat, p.
    assert (Hn' : n = (n / divisions * divisions + n mod divisions)%nat).
    { rewrite (Nat.div_mod_eq n divisions) at 1. lia. }
    split; [exact Hn' |]. split; [exact Hj |]. split; [exact Hp |].
    rewrite Hn' in Hn.
    rewrite (forEach_point_nth envelope 0 divisions _ _ p Hp Hj) in Hn.
    inversion Hn; subst v. cbn. split; reflexivity.
  - apply (generateMesh_points3D (set_points3D st (forEach_point envelope 0 divisions []))).
Qed.

(** The first ring of the shape of a one-point envelope, sixteen divisions. *)
Lemma generate3DPoints_ring_major_witness :
  nth_error (generate3DPoints (new 0 0 0) [mk_point2D 0 1 2]) (0 * 16 + 4) =
  Some {| vx := 1; vy := 2 * cos (2 * PI * INR 4 / INR 16);
          vz := 2 * sin (2 * PI * INR 4 / INR 16);
          originalIndex := Some 0%nat; rotationIndex := Some 4%nat |}.
Proof.
  apply (proj1 (proj2 (generate3DPoints_ring_major (new 0 0 0) [mk_point2D 0 1 2]))
           0%nat 4%nat (mk_point2D 0 1 2)).
  - reflexivity.
  - cbn. lia.
Defined.

Lemma segment_loop_eq (turns : nat) :
  forall divisions i j acc,
    segment_loop turns divisions i j acc =
    acc ++ flat_map (quad_faces divisions i) (seq j turns).
Proof.
  induction turns as [| turns IH]; intros divisions i j acc; cbn [segment_loop].
  - cbn. now rewrite app_nil_r.
  - rewrite IH. unfold push. cbn [seq flat_map quad_faces].
    rewrite <- !app_assoc. reflexivity.
Qed.

Lemma ring_loop_eq (turns : nat) :
  forall divisions i acc,
    ring_loop turns divisions i acc =
    acc ++ flat_map (fun i' => flat_map (quad_faces divisions i') (seq 0 divisions))
             (seq i turns).
Proof.
  induction turns as [| turns IH]; intros divisions i acc; cbn [ring_loop].
  - cbn. now rewrite app_nil_r.
  - rewrite IH, segment_loop_eq. cbn [seq flat_map].
    rewrite <- !app_assoc. reflexivity.
Qed.

Lemma cap_loop_eq (turns : nat) :
  forall divisions centerIndex j acc,
    cap_loop turns divisions centerIndex j acc =
    acc ++ map (cap_face divisions centerIndex) (seq j turns).
Proof.
  induction turns as [| turns IH]; intros divisions centerIndex j acc; cbn [cap_loop].
  - cbn. now rewrite app_nil_r.
  - rewrite IH. unfold push. cbn [seq map]. rewrite <- app_assoc. reflexivity.
Qed.

Lemma quad_row_length (divisions i : nat) (js : list nat) :
  List.length (flat_map (quad_faces divisions i) js) = (2 * List.length js)%nat.
Proof. induction js as [| j js IH]; cbn in *; lia. Qed.

Lemma ring_loop_length (turns divisions i : nat) :
  List.length (ring_loop turns divisions i []) = (2 * divisions * turns)%nat.
Proof.
  rewrite ring_loop_eq. cbn [app].
  replace turns with (List.length (seq i turns)) at 2 by apply length_seq.
  generalize (seq i turns) as is'.
  induction is' as [| i' is' IH]; cbn [flat_map List.length].
  - lia.
  - rewrite length_app, quad_row_length, length_seq, IH. lia.
Qed.

(** A side face is one of the two triangles of a quad between two
    neighbouring rings. *)
Lemma ring_loop_In (turns divisions : nat) (f : face) :
  In f (ring_loop turns divisions 0 []) ->
  exists i j, (i < turns)%nat /\ (j < divisions)%nat
              /\ In f (quad_faces divisions i j).
Proof.
  rewrite ring_loop_eq. cbn [app]. intros Hin.
  apply in_flat_map in Hin. destruct Hin as (i & Hi & Hin).
  apply in_flat_map in Hin. destruct Hin as (j & Hj & Hin).
  apply in_seq in Hi. apply in_seq in Hj. exists i, j. repeat split; [lia | lia | exact Hin].
Qed.

Lemma quad_faces_valid (divisions turns i j : nat) (f : face) :
  (i < turns)%nat -> (j < divisions)%nat ->
  In f (quad_faces divisions i j) ->
  valid_face (S turns * divisions) f.
Proof.
  intros Hi Hj Hin.
  assert (Hn : ((j + 1) mod divisions < divisions)%nat)
    by (apply Nat.mod_upper_bound; lia).
  set (nj := ((j + 1) mod divisions)%nat) in *.
  assert (Hb : (i * divisions + divisions <= turns * divisions)%nat) by nia.
  unfold quad_faces in Hin. fold nj in Hin.
  destruct Hin as [<- | [<- | []]]; unfold valid_face; cbn [indices];
    repeat split; nia.
Qed.

Lemma valid_face_mono (n m : nat) (f : face) :
  (n <= m)%nat -> valid_face n f -> valid_face m f.
Proof.
  unfold valid_face. destruct (indices f) as [[a b] c]. intros Hle (Ha & Hb & Hc).
  repeat split; lia.
Qed.

(** The mesh of an envelope with a first point: what [generateMesh] returns
    after [generate3DPoints], with its counts. *)
Lemma generateMesh_run (st : t) (envelope : list point2D) (first : point2D) :
  nth_error envelope 0 = Some first ->
  let divisions := rotationDivisions st in
  let L := List.length envelope in
  let capAdded := if Req_dec_T (px first) 0 then false else true in
  exists side capFaces st3,
    generateMesh (set_points3D st (generate3DPoints st envelope)) envelope
    = (side ++ capFaces, st3)
    /\ List.length (points3D st3)
       = (L * divisions + (if capAdded then 1 else 0))%nat
    /\ Forall (fun f => exists i j, (i < L - 1)%nat /\ (j < divisions)%nat
                                    /\ In f (quad_faces divisions i j)) side
    /\ List.length side = (2 * divisions * (L - 1))%nat
    /\ Forall (fun f => exists j, (j < divisions)%nat
                                  /\ f = cap_face divisions (L * divisions) j)
         capFaces
    /\ List.length capFaces = (if capAdded then divisions else 0)%nat
    /\ Forall (valid_face (List.length (points3D st3))) (side ++ capFaces).
Proof.
  intros Hfirst divisions L capAdded.
  destruct envelope as [| first' rest]; [discriminate |].
  cbn in Hfirst. inversion Hfirst; subst first'. clear Hfirst.
  assert (HL : L = S (List.length rest)) by reflexivity.
  assert (Hlen : List.length (generate3DPoints st (first :: rest))
                 = (L * divisions)%nat)
    by apply generate3DPoints_length.
  assert (Hside : Forall (fun f => exists i j, (i < L - 1)%nat /\ (j < divisions)%nat
                                    /\ In f (quad_faces divisions i j))
                    (ring_loop (L - 1) divisions 0 [])).
  { apply Forall_forall. intros f Hin. apply ring_loop_In. exact Hin. }
  assert (Hsidev : forall n, (L * divisions <= n)%nat ->
            Forall (valid_face n) (ring_loop (L - 1) divisions 0 [])).
  { intros n Hn. apply Forall_forall. intros f Hin.
    destruct (ring_loop_In _ _ _ Hin) as (i & j & Hi & Hj & Hq).
    apply (valid_face_mono (S (L - 1) * divisions)); [rewrite HL; cbn; lia |].
    apply (quad_faces_valid divisions (L - 1) i j f Hi Hj Hq). }
  unfold generateMesh, capAdded.
  cbn [rotationDivisions set_points3D points3D]. fold divisions. fold L.
  destruct (Req_dec_T (px first) 0) as [Hx | Hx].
  - exists (ring_loop (L - 1) divisions 0 []), [],
      (set_points3D st (generate3DPoints st (first :: rest))).
    rewrite app_nil_r. cbn [set_points3D points3D]. rewrite Hlen.
    repeat split.
    + lia.
    + exact Hside.
    + apply ring_loop_length.
    + constructor.
    + apply Hsidev. lia.
  - rewrite cap_loop_eq, Hlen.
    eexists. eexists. eexists. split; [reflexivity |].
    cbn [set_points3D points3D]. unfold push. rewrite length_app, Hlen. cbn [List.length].
    repeat split.
    + exact Hside.
    + apply ring_loop_length.
    + apply Forall_forall. intros f Hin. apply in_map_iff in Hin.
      destruct Hin as (j & <- & Hj). apply in_seq in Hj. exists j. split; [lia | reflexivity].
    + now rewrite length_map, length_seq.
    + apply Forall_app. split; [apply Hsidev; lia |].
      apply Forall_forall. intros f Hin. apply in_map_iff in Hin.
      destruct Hin as (j & <- & Hj). apply in_seq in Hj.
      assert (Hn : ((j + 1) mod divisions < divisions)%nat)
        by (apply Nat.mod_upper_bound; lia).
      unfold valid_face, cap_face. cbn [indices]. rewrite HL. repeat split; nia.
Qed.

(** C5.  For an envelope of length [L >= 1] and [D] divisions, the mesh that
    [generate3DPoints] and then [generateMesh] build has [L × D] vertices,
    and one more exactly when the [x] of the first envelope point is not
    zero; its faces are the side faces, [2 × D × (L - 1)] triangles of the
    quads between neighbouring rings, followed by the cap faces, [D]
    triangles around the cap centre when it was added and none otherwise;
    and the three indices of every face are positions of the vertex array. *)
Theorem mesh_counts (st : t) (envelope : list point2D) (first : point2D) :
  nth_error envelope 0 = Some first ->
  let divisions := rotationDivisions st in
  let L := List.length envelope in
  let capAdded := if Req_dec_T (px first) 0 then false else true in
  exists side capFaces st3,
    generateMesh (set_points3D st (generate3DPoints st envelope)) envelope
    = (side ++ capFaces, st3)
    /\ List.length (points3D st3)
       = (L * divisions + (if capAdded then 1 else 0))%nat
    /\ Forall (fun f => exists i j, (i < L - 1)%nat /\ (j < divisions)%nat
                                    /\ In f (quad_faces divisions i j)) side
    /\ List.length side = (2 * divisions * (L - 1))%nat
    /\ Forall (fun f => exists j, (j < divisions)%nat
                                  /\ f = cap_face divisions (L * divisions) j)
         capFaces
    /\ List.length capFaces = (if capAdded then divisions else 0)%nat
    /\ Forall (valid_face (List.length (points3D st3))) (side ++ capFaces).
Proof. exact (generateMesh_run st envelope first). Qed.

(** A two-point envelope that starts off the axis, sixteen divisions: 33
    vertices, 32 side faces, 16 cap faces. *)
Lemma mesh_counts_witness :
  let st := new 0 0 0 in
  let envelope := [mk_point2D 0 1 2; mk_point2D 1 3 2] in
  exists side capFaces st3,
    generateMesh (set_points3D st (generate3DPoints st envelope)) envelope
    = (side ++ capFaces, st3)
    /\ List.length (points3D st3) = 33%nat
    /\ List.length side = 32%nat
    /\ List.length capFaces = 16%nat
    /\ Forall (valid_face 33) (side ++ capFaces).
Proof.
  intros st envelope.
  destruct (mesh_counts st envelope (mk_point2D 0 1 2) eq_refl)
    as (side & capFaces & st3 & Hm & Hv & _ & Hs & _ & Hc & Hvalid).
  cbn [px] in Hv, Hc.
  destruct (Req_dec_T 1 0) as [H | _]; [exfalso; lra |].
  exists side, capFaces, st3. rewrite Hv in Hvalid.
  repeat split; assumption.
Defined.

End RevolutionProofs.

Module ShapeProofs.
Import Shape3DRenderer Revolution RevolutionProofs.

(** The loop of [smoothEnvelope] reads inside the array: it never raises. *)
Lemma smooth_loop_total (turns : nat) :
  forall envelope i st acc,
    (i + turns <= List.length envelope)%nat ->
    exists smoothed st',
      smooth_loop turns envelope i st acc = Some (smoothed, st')
      /\ centroid st' = centroid st /\ rotation st' = rotation st
      /\ rotationDivisions st' = rotationDivisions st
      /\ List.length smoothed = (List.length acc + turns)%nat.
Proof.
  induction turns as [| turns IH]; intros envelope i st acc Hle.
  - exists acc, st. cbn. repeat split; lia.
  - cbn [smooth_loop].
    destruct (nth_error envelope (Nat.max 0 (i - 1))) as [prev |] eqn:Hprev;
      [| apply nth_error_None in Hprev; lia].
    destruct (nth_error envelope i) as [curr |] eqn:Hcurr;
      [| apply nth_error_None in Hcurr; lia].
    destruct (nth_error envelope (Nat.min (List.length envelope - 1) (i + 1)))
      as [next |] eqn:Hnext; [| apply nth_error_None in Hnext; lia].
    cbn [new_point2D].
    match goal with
    | |- context [smooth_loop turns envelope (S i) ?s ?a] =>
        destruct (IH envelope (S i) s a) as (sm & st' & Hrun & Hc & Hr & Hd & Hl);
          [lia |]
    end.
    exists sm, st'. rewrite Hrun. cbn in Hc, Hr, Hd.
    unfold push in Hl. rewrite length_app in Hl. cbn in Hl.
    repeat split; try assumption. lia.
Qed.

Lemma sample_loop_fields (fuel : nat) :
  forall pointCloud2D sampleStep i st acc,
    let st' := snd (sample_loop fuel pointCloud2D sampleStep i st acc) in
    rotationDivisions st' = rotationDivisions st
    /\ alphaRadius st' = alphaRadius st
    /\ envelopeSmoothing st' = envelopeSmoothing st.
Proof.
  induction fuel as [| fuel IH]; intros pointCloud2D sampleStep i st acc; cbn.
  - repeat split.
  - destruct (nth_error pointCloud2D i) as [point |]; cbn; [| repeat split].
    match goal with
    | |- context [sample_loop fuel pointCloud2D sampleStep ?j ?s ?a] =>
        destruct (IH pointCloud2D sampleStep j s a) as (H1 & H2 & H3)
    end.
    cbn in H1, H2, H3. repeat split; assumption.
Qed.

(** [generateEnvelope] returns on every array, and leaves the number of
    divisions as it was. *)
Lemma generateEnvelope_total (st : t) (pointCloud2D : list point2D) :
  exists envelope st1,
    generateEnvelope st pointCloud2D = Some (envelope, st1)
    /\ rotationDivisions st1 = rotationDivisions st.
Proof.
  unfold generateEnvelope.
  destruct (Nat.ltb (List.length pointCloud2D) 2); [exists pointCloud2D, st; split; reflexivity |].
  assert (Hs : rotationDivisions (snd (envelope_samples st pointCloud2D))
               = rotationDivisions st).
  { unfold envelope_samples.
    pose proof (sample_loop_fields (List.length pointCloud2D) pointCloud2D
                  (Nat.max 1 (List.length pointCloud2D / 8)) 0 st []) as Hf.
    destruct (sample_loop _ _ _ _ _ _) as [envelope st1]. cbn in Hf.
    destruct Hf as (Hd & _ & _).
    destruct (not_same_object _ _); [| exact Hd].
    destruct (last_element pointCloud2D); exact Hd. }
  destruct (envelope_samples st pointCloud2D) as [envelope st1]. cbn in Hs.
  destruct (Rlt_dec 0 (envelopeSmoothing st1)); [| exists envelope, st1; split; [reflexivity | exact Hs]].
  unfold smoothEnvelope.
  destruct (Nat.ltb (List.length envelope) 3); [exists envelope, st1; split; [reflexivity | exact Hs] |].
  destruct (smooth_loop_total (List.length envelope) envelope 0 st1 [])
    as (sm & st' & Hrun & _ & _ & Hd & _); [lia |].
  exists sm, st'. split; [exact Hrun | congruence].
Qed.

Lemma sum_positions_eq (points : list vertex) :
  sum_positions points =
  (Rsum (map vx points), Rsum (map vy points), Rsum (map vz points)).
Proof.
  unfold sum_positions.
  assert (H : forall a b c,
    fold_left (fun '(sumX, sumY, sumZ) point =>
                 (sumX + vx point, sumY + vy point, sumZ + vz point))
      points (a, b, c) =
    (a + Rsum (map vx points), b + Rsum (map vy points), c + Rsum (map vz points))).
  { induction points as [| p rest IH]; intros a b c; cbn [fold_left map Rsum fold_right].
    - f_equal; [f_equal |]; ring.
    - rewrite IH. fold (Rsum (map vx rest)) (Rsum (map vy rest)) (Rsum (map vz rest)).
      f_equal; [f_equal |]; ring. }
  rewrite H. f_equal; [f_equal |]; ring.
Qed.

(** [generateShape] returns on every array; the state it leaves holds the
    revolved envelope followed by the cap centre, the faces of
    [generateMesh], and the centroid of exactly that vertex array. *)
Lemma generateShape_run (st : t) (pointCloud2D : list point2D) :
  exists envelope st1 shape st',
    generateEnvelope st pointCloud2D = Some (envelope, st1)
    /\ generateShape st pointCloud2D = Some (shape, st')
    /\ shape = {| shape_points := points3D st'; shape_faces := faces st';
                  shape_centroid := centroid st' |}
    /\ points3D st' = generate3DPoints st1 envelope ++ cap_vertices envelope
    /\ faces st' = fst (generateMesh
                          (set_points3D st1 (generate3DPoints st1 envelope))
                          envelope)
    /\ centroid st' = calculateCentroid st'
    /\ rotationDivisions st' = rotationDivisions st1.
Proof.
  destruct (generateEnvelope_total st pointCloud2D) as (envelope & st1 & He & _).
  exists envelope, st1. unfold generateShape. rewrite He.
  pose proof (generateMesh_points3D
                (set_points3D st1 (generate3DPoints st1 envelope)) envelope)
    as Hpts. cbn [set_points3D points3D] in Hpts.
  assert (Hd : rotationDivisions
                 (snd (generateMesh (set_points3D st1 (generate3DPoints st1 envelope))
                         envelope)) = rotationDivisions st1).
  { unfold generateMesh. destruct envelope as [| first rest]; [reflexivity |].
    destruct (Req_dec_T (px first) 0); reflexivity. }
  destruct (generateMesh (set_points3D st1 (generate3DPoints st1 envelope)) envelope)
    as [fs st3]. cbn [snd fst] in *.
  eexists. eexists. split; [reflexivity |]. split; [reflexivity |].
  cbn [set_centroid set_faces points3D faces centroid rotationDivisions].
  repeat split; try assumption.
Qed.

(** C7.  The centroid that [generateShape] returns and stores is, component
    by component, the sum of the positions of all the vertices of the shape
    divided by their number; the vertices are those of [generate3DPoints]
    followed by the cap centre when [generateMesh] added one, so that the
    cap centre is counted. *)
Theorem centroid_is_mean (st : t) (pointCloud2D : list point2D) :
  exists envelope st1 shape st',
    generateEnvelope st pointCloud2D = Some (envelope, st1)
    /\ generateShape st pointCloud2D = Some (shape, st')
    /\ shape_points shape = generate3DPoints st1 envelope ++ cap_vertices envelope
    /\ centroid st' = shape_centroid shape
    /\ (shape_points shape <> [] ->
        let n := INR (List.length (shape_points shape)) in
        n <> 0
        /\ x (shape_centroid shape) = Rsum (map vx (shape_points shape)) / n
        /\ y (shape_centroid shape) = Rsum (map vy (shape_points shape)) / n
        /\ z (shape_centroid shape) = Rsum (map vz (shape_points shape)) / n).
Proof.
  destruct (generateShape_run st pointCloud2D)
    as (envelope & st1 & shape & st' & He & Hs & -> & Hp & _ & Hc & _).
  exists envelope, st1. eexists. exists st'.
  split; [exact He |]. split; [exact Hs |]. cbn [shape_points shape_centroid].
  split; [exact Hp |]. split; [reflexivity |].
  intros Hne. rewrite Hc. unfold calculateCentroid.
  destruct (points3D st') as [| v rest] eqn:Hpts; [contradiction |].
  rewrite sum_positions_eq. cbn [x y z].
  split; [| repeat split].
  apply not_0_INR. cbn. lia.
Qed.

(** A one-point profile off the axis: sixteen ring vertices and the cap
    centre, seventeen positions in the mean. *)
Lemma centroid_is_mean_witness :
  exists envelope st1 shape st',
    generateEnvelope (new 0 0 1) [mk_point2D 0 1 2] = Some (envelope, st1)
    /\ generateShape (new 0 0 1) [mk_point2D 0 1 2] = Some (shape, st')
    /\ List.length (shape_points shape) = 17%nat
    /\ x (shape_centroid shape) = Rsum (map vx (shape_points shape)) / INR 17.
Proof.
  destruct (centroid_is_mean (new 0 0 1) [mk_point2D 0 1 2])
    as (envelope & st1 & shape & st' & He & Hs & Hp & _ & Hmean).
  exists envelope, st1, shape, st'.
  assert (Hl : List.length (shape_points shape) = 17%nat).
  { cbn in He. inversion He; subst envelope st1. rewrite Hp.
    rewrite length_app, generate3DPoints_length.
    cbn - [Req_dec_T]. destruct (Req_dec_T 1 0); [exfalso; lra | reflexivity]. }
  assert (Hne : shape_points shape <> []).
  { intros Hnil. rewrite Hnil in Hl. discriminate. }
  destruct (Hmean Hne) as (_ & Hx & _). rewrite Hl in Hx.
  repeat split; assumption.
Defined.

End ShapeProofs.

Module ProjectionProofs.
Import Shape3DRenderer.

(** The centroid-relative coordinates of the rotated point: the rotation
    about the x axis by [rotation.x], then about the y axis by
    [rotation.y], of the point minus the centroid. *)
Lemma rotatePoint_relative (st : t) (p : vertex) :
  let c := centroid st in
  let x0 := vx p - x c in
  let y0 := vy p - y c in
  let z0 := vz p - z c in
  let y1 := y0 * cos (x (rotation st)) - z0 * sin (x (rotation st)) in
  let z1 := y0 * sin (x (rotation st)) + z0 * cos (x (rotation st)) in
  x (rotatePoint st p) - x c = x0 * cos (y (rotation st)) + z1 * sin (y (rotation st))
  /\ y (rotatePoint st p) - y c = y1
  /\ z (rotatePoint st p) - z c
     = - x0 * sin (y (rotation st)) + z1 * cos (y (rotation st)).
Proof. cbn. repeat split; ring. Qed.

Lemma num_div_nonzero (a b : R) : b <> 0 -> num_div a b = Some (a / b).
Proof. intros Hb. unfold num_div. destruct (Req_dec_T b 0); [contradiction | reflexivity]. Qed.

Lemma num_div_zero (a : R) : num_div a 0 = None.
Proof. unfold num_div. destruct (Req_dec_T 0 0) as [_ | H]; [reflexivity | now contradiction H]. Qed.

(** C8.  [rotatePoint] turns the vertex about the centroid, first about the
    x axis by [rotation.x], then about the y axis by [rotation.y], and
    translates back; with [relX], [relY], [relZ] the rotated coordinates
    relative to the centroid, [project3DTo2D] returns the depth [relZ],
    [x = width/2 + relX·scale] and [y = height/2 - relY·scale] for
    [scale = 500/(500 + relZ)·zoom·50], the division being that of the
    source (real numbers where the divisor is not zero); [rotation.z] has
    no part in it. *)
Theorem projection_about_centroid (st : t) (p : vertex) :
  let c := centroid st in
  let x0 := vx p - x c in
  let y0 := vy p - y c in
  let z0 := vz p - z c in
  let y1 := y0 * cos (x (rotation st)) - z0 * sin (x (rotation st)) in
  let z1 := y0 * sin (x (rotation st)) + z0 * cos (x (rotation st)) in
  let relX := x0 * cos (y (rotation st)) + z1 * sin (y (rotation st)) in
  let relY := y1 in
  let relZ := - x0 * sin (y (rotation st)) + z1 * cos (y (rotation st)) in
  rotatePoint st p = {| x := relX + x c; y := relY + y c; z := relZ + z c |}
  /\ project3DTo2D st p =
     {| proj_x := option_map (fun q => canvas_width st / 2 + relX * (q * zoom st * 50))
                    (num_div 500 (500 + relZ));
        proj_y := option_map (fun q => canvas_height st / 2 - relY * (q * zoom st * 50))
                    (num_div 500 (500 + relZ));
        proj_z := relZ |}
  /\ (500 + relZ <> 0 ->
      let scale := 500 / (500 + relZ) * zoom st * 50 in
      project3DTo2D st p =
      {| proj_x := Some (canvas_width st / 2 + relX * scale);
         proj_y := Some (canvas_height st / 2 - relY * scale);
         proj_z := relZ |})
  /\ (forall rz : R,
         project3DTo2D
           (set_view st {| x := x (rotation st); y := y (rotation st); z := rz |}
              (zoom st) (canvas_width st) (canvas_height st)) p
         = project3DTo2D st p).
Proof.
  intros c x0 y0 z0 y1 z1 relX relY relZ.
  destruct (rotatePoint_relative st p) as (Hx & Hy & Hz).
  fold c x0 y0 z0 y1 z1 in Hx, Hy, Hz. fold relX in Hx. fold relY in Hy. fold relZ in Hz.
  split; [reflexivity |].
  split.
  { unfold project3DTo2D. fold c. rewrite Hx, Hy, Hz.
    destruct (num_div 500 (500 + relZ)); reflexivity. }
  split.
  - intros Hnz scale. unfold project3DTo2D. fold c. rewrite Hx, Hy, Hz.
    rewrite num_div_nonzero by exact Hnz. reflexivity.
  - intros rz. reflexivity.
Qed.

(** The vertex [(1, 2, 3)] seen without rotation from the origin, on a
    canvas of 800 by 600. *)
Lemma projection_about_centroid_witness :
  project3DTo2D (new 800 600 0) (mk_vertex 1 2 3 None None) =
  let relX := (1 - 0) * cos 0 + ((2 - 0) * sin 0 + (3 - 0) * cos 0) * sin 0 in
  let relY := (2 - 0) * cos 0 - (3 - 0) * sin 0 in
  let relZ := - (1 - 0) * sin 0 + ((2 - 0) * sin 0 + (3 - 0) * cos 0) * cos 0 in
  {| proj_x := Some (800 / 2 + relX * (500 / (500 + relZ) * 1 * 50));
     proj_y := Some (600 / 2 - relY * (500 / (500 + relZ) * 1 * 50));
     proj_z := relZ |}.
Proof.
  apply (proj1 (proj2 (proj2
           (projection_about_centroid (new 800 600 0) (mk_vertex 1 2 3 None None))))).
  cbn [new centroid rotation x y z vx vy vz]. rewrite sin_0, cos_0. lra.
Defined.

(** C10.  Nothing guards the perspective division.  Whenever the rotated,
    centroid-relative [z] of the vertex is [-500] the divisor
    [perspective + relZ] is zero and neither screen coordinate is a real
    number; this happens, for instance, for the vertex [(0, 0, -500)] in the
    initial view.  Whenever it is above [-500], both coordinates are real
    numbers. *)
Theorem projection_division_unguarded :
  (forall (st : t) (p : vertex),
      z (rotatePoint st p) - z (centroid st) = -500 ->
      proj_x (project3DTo2D st p) = None /\ proj_y (project3DTo2D st p) = None)
  /\ (z (rotatePoint (new 800 600 0) (mk_vertex 0 0 (-500) None None))
      - z (centroid (new 800 600 0)) = -500)
  /\ (forall (st : t) (p : vertex),
         -500 < z (rotatePoint st p) - z (centroid st) ->
         exists sx sy : R,
           proj_x (project3DTo2D st p) = Some sx
           /\ proj_y (project3DTo2D st p) = Some sy).
Proof.
  split; [| split].
  - intros st p Hz. unfold project3DTo2D. cbn [proj_x proj_y]. rewrite Hz.
    replace (500 + -500) with 0 by lra. rewrite num_div_zero. split; reflexivity.
  - cbn [new centroid rotation rotatePoint x y z vx vy vz]. rewrite sin_0, cos_0. lra.
  - intros st p Hz. unfold project3DTo2D. cbn [proj_x proj_y].
    rewrite num_div_nonzero by lra. cbn [option_map]. eexists. eexists. split; reflexivity.
Qed.

Lemma projection_division_unguarded_witness :
  (proj_x (project3DTo2D (new 800 600 0) (mk_vertex 0 0 (-500) None None)) = None
   /\ proj_y (project3DTo2D (new 800 600 0) (mk_vertex 0 0 (-500) None None)) = None)
  /\ exists sx sy : R,
       proj_x (project3DTo2D (new 800 600 0) (mk_vertex 0 0 0 None None)) = Some sx
       /\ proj_y (project3DTo2D (new 800 600 0) (mk_vertex 0 0 0 None None)) = Some sy.
Proof.
  split.
  - apply (proj1 projection_division_unguarded).
    apply (proj1 (proj2 projection_division_unguarded)).
  - apply (proj2 (proj2 projection_division_unguarded)).
    cbn [new centroid rotation rotatePoint x y z vx vy vz]. rewrite sin_0, cos_0. lra.
Defined.

End ProjectionProofs.

Module RenderProofs.
Import Shape3DRenderer Revolution Frame RevolutionProofs ShapeProofs ProjectionProofs.

(** *** The sines around a full turn cancel *)

Lemma Rsum_app (l1 l2 : list R) : Rsum (l1 ++ l2) = Rsum l1 + Rsum l2.
Proof.
  unfold Rsum. induction l1 as [| a l1 IH]; cbn [app fold_right].
  - ring.
  - rewrite IH. ring.
Qed.

Lemma Rsum_map_scale {A : Type} (c : R) (f : A -> R) (l : list A) :
  Rsum (map (fun a => c * f a) l) = c * Rsum (map f l).
Proof.
  unfold Rsum. induction l as [| a l IH]; cbn [map fold_right].
  - ring.
  - rewrite IH. ring.
Qed.

Lemma sin_telescope (theta : R) (n : nat) :
  2 * sin (theta / 2) * Rsum (map (fun j => sin (INR j * theta)) (seq 0 n))
  = cos (theta / 2) - cos ((INR n - 1 / 2) * theta).
Proof.
  induction n as [| n IH].
  - cbn [seq map Rsum fold_right INR].
    replace ((0 - 1 / 2) * theta) with (- (theta / 2)) by field.
    rewrite cos_neg. ring.
  - rewrite seq_S, map_app, Rsum_app. cbn [Nat.add map Rsum fold_right].
    rewrite Rmult_plus_distr_l, IH, S_INR.
    replace ((INR n - 1 / 2) * theta) with (INR n * theta - theta / 2) by field.
    replace ((INR n + 1 - 1 / 2) * theta) with (INR n * theta + theta / 2) by field.
    rewrite cos_minus, cos_plus. ring.
Qed.

Lemma sin_full_turn (divisions : nat) :
  Rsum (map (fun j => sin (2 * PI * INR j / INR divisions)) (seq 0 divisions)) = 0.
Proof.
  destruct divisions as [| [| d]].
  - reflexivity.
  - cbn [seq map Rsum fold_right INR].
    replace (2 * PI * 0 / 1) with 0 by field. rewrite sin_0. ring.
  - set (D := S (S d)).
    assert (HD : 2 <= INR D).
    { unfold D. rewrite !S_INR. pose proof (pos_INR d). lra. }
    set (theta := 2 * PI / INR D).
    assert (Hext : map (fun j => sin (2 * PI * INR j / INR D)) (seq 0 D)
                   = map (fun j => sin (INR j * theta)) (seq 0 D)).
    { apply map_ext. intros j. f_equal. unfold theta. field. lra. }
    rewrite Hext.
    pose proof (sin_telescope theta D) as Ht.
    replace ((INR D - 1 / 2) * theta) with (2 * PI - theta / 2) in Ht
      by (unfold theta; field; lra).
    rewrite cos_minus, cos_2PI, sin_2PI in Ht.
    assert (Hs : 0 < sin (theta / 2)).
    { pose proof PI_RGT_0 as Hpi.
      assert (Hq : theta / 2 = PI / INR D) by (unfold theta; field; lra).
      rewrite Hq. apply sin_gt_0.
      - apply Rdiv_lt_0_compat; lra.
      - apply (Rmult_lt_reg_r (INR D)); [lra |].
        unfold Rdiv. rewrite Rmult_assoc, Rinv_l by lra. nra. }
    assert (Hz : 2 * sin (theta / 2)
                 * Rsum (map (fun j => sin (INR j * theta)) (seq 0 D)) = 0)
      by (rewrite Ht; ring).
    apply Rmult_integral in Hz. destruct Hz as [Hz | Hz]; [lra | exact Hz].
Qed.

Lemma revolved_vz_sum (divisions : nat) (point : point2D) (pointIndex : nat) :
  Rsum (map vz (map (revolved divisions point pointIndex) (seq 0 divisions))) = 0.
Proof.
  rewrite map_map. cbn [revolved vz].
  rewrite (Rsum_map_scale (py point)
             (fun j => sin (2 * PI * INR j / INR divisions))).
  rewrite sin_full_turn. ring.
Qed.

Lemma forEach_point_vz_sum (pointCloud2D : list point2D) :
  forall pointIndex divisions,
    Rsum (map vz (forEach_point pointCloud2D pointIndex divisions [])) = 0.
Proof.
  induction pointCloud2D as [| point rest IH]; intros pointIndex divisions.
  - reflexivity.
  - rewrite forEach_point_cons, map_app, Rsum_app, revolved_vz_sum, IH. ring.
Qed.

(** After [generateShape] the centroid lies on the axis of revolution in
    [z]: a rotated depth and a centroid-relative depth are the same number. *)
Lemma generateShape_centroid_z (st : t) (pointCloud2D : list point2D)
  (s : shape) (st' : t) :
  generateShape st pointCloud2D = Some (s, st') -> z (centroid st') = 0.
Proof.
  intros Hs.
  destruct (generateShape_run st pointCloud2D)
    as (envelope & st1 & s0 & st0 & _ & Hs0 & _ & Hp & _ & Hc & _).
  rewrite Hs in Hs0. inversion Hs0; subst s0 st0. clear Hs0.
  rewrite Hc. unfold calculateCentroid.
  destruct (points3D st') as [| v rest] eqn:Hpts; [reflexivity |].
  rewrite sum_positions_eq. cbn [z]. rewrite Hp, map_app, Rsum_app.
  unfold generate3DPoints. rewrite forEach_point_vz_sum.
  assert (Hcap : Rsum (map vz (cap_vertices envelope)) = 0).
  { unfold cap_vertices. destruct envelope as [| first ?]; [reflexivity |].
    destruct (Req_dec_T (px first) 0); cbn; ring. }
  rewrite Hcap. unfold Rdiv. ring.
Qed.

(** *** The faces of a generated shape are drawable *)

Lemma valid_face_corners (st : t) (f : face) :
  valid_face (List.length (points3D st)) f ->
  exists corners, face_corners st f = Some corners.
Proof.
  unfold valid_face, face_corners. destruct (indices f) as [[a b] c].
  intros (Ha & Hb & Hc).
  destruct (nth_error (points3D st) a) eqn:Ea; [| apply nth_error_None in Ea; lia].
  destruct (nth_error (points3D st) b) eqn:Eb; [| apply nth_error_None in Eb; lia].
  destruct (nth_error (points3D st) c) eqn:Ec; [| apply nth_error_None in Ec; lia].
  eexists. reflexivity.
Qed.

Lemma generateShape_faces_valid (st : t) (pointCloud2D : list point2D)
  (s : shape) (st' : t) :
  generateShape st pointCloud2D = Some (s, st') ->
  Forall (valid_face (List.length (points3D st'))) (faces st').
Proof.
  intros Hs.
  destruct (generateShape_run st pointCloud2D)
    as (envelope & st1 & s0 & st0 & _ & Hs0 & _ & Hp & Hf & _ & _).
  rewrite Hs in Hs0. inversion Hs0; subst s0 st0. clear Hs0.
  rewrite Hf. destruct envelope as [| first rest] eqn:He.
  - cbn. constructor.
  - rewrite <- He in *.
    destruct (generateMesh_run st1 envelope first) as
      (side & capFaces & st3 & Hm & _ & _ & _ & _ & _ & Hvalid);
      [rewrite He; reflexivity |].
    pose proof (generateMesh_points3D
                  (set_points3D st1 (generate3DPoints st1 envelope)) envelope)
      as Hpts. cbn [set_points3D points3D] in Hpts.
    rewrite Hm in Hpts |- *. cbn [fst snd] in *. rewrite Hp, <- Hpts. exact Hvalid.
Qed.

Lemma avgZ_corners (st : t) (f : face) (va vb vc : vertex) :
  face_corners st f = Some (va, vb, vc) ->
  avgZ st f
  = Some ((0 + z (rotatePoint st va) + z (rotatePoint st vb)
           + z (rotatePoint st vc)) / 3).
Proof.
  unfold face_corners, avgZ, depth_sum, indices_list.
  destruct (indices f) as [[a b] c].
  destruct (nth_error (points3D st) a) eqn:Ea; [| discriminate].
  destruct (nth_error (points3D st) b) eqn:Eb; [| discriminate].
  destruct (nth_error (points3D st) c) eqn:Ec; [| discriminate].
  intros H. inversion H; subst. cbn [fold_left]. rewrite Ea, Eb, Ec. reflexivity.
Qed.

(** In any state, the [avgZ] of [render] is the mean of the rotated [z] as
    [rotatePoint] returns it, translated back: the mean centroid-relative
    depth plus the [z] of the centroid. *)
Lemma avgZ_relative_offset (st : t) (f : face) (corners : vertex * vertex * vertex) :
  face_corners st f = Some corners ->
  exists d, mean_relative_depth st f = Some d
            /\ avgZ st f = Some (d + z (centroid st)).
Proof.
  destruct corners as [[va vb] vc]. intros Hc.
  rewrite (avgZ_corners st f va vb vc Hc).
  unfold mean_relative_depth. rewrite Hc. eexists. split; [reflexivity |].
  unfold project3DTo2D. cbn [proj_z]. f_equal. field.
Qed.

Lemma drawFace_corners (st : t) (f : face) (corners : vertex * vertex * vertex) :
  face_corners st f = Some corners ->
  map Some (drawFace f (map (project3DTo2D st) (points3D st))) = [fill_event st f]
  /\ map Some (drawWireframe (set_faces st [f]) (map (project3DTo2D st) (points3D st)))
     = [stroke_event st f].
Proof.
  unfold fill_event, stroke_event, face_path, drawFace, drawWireframe.
  cbn [set_faces faces flat_map]. intros Hc. rewrite Hc.
  unfold face_corners in Hc. unfold indices_list.
  destruct (indices f) as [[a b] c].
  destruct (nth_error (points3D st) a) eqn:Ea; [| discriminate].
  destruct (nth_error (points3D st) b) eqn:Eb; [| discriminate].
  destruct (nth_error (points3D st) c) eqn:Ec; [| discriminate].
  inversion Hc; subst. cbn [map]. rewrite !nth_error_map, Ea, Eb, Ec.
  cbn. split; reflexivity.
Qed.

Lemma facesWithDepth_run (st : t) (fs : list face) :
  z (centroid st) = 0 ->
  Forall (valid_face (List.length (points3D st))) fs ->
  exists withDepth,
    facesWithDepth st fs = Some withDepth
    /\ map fst withDepth = fs
    /\ Forall (fun fd => mean_relative_depth st (fst fd) = Some (snd fd)) withDepth.
Proof.
  intros Hz Hv. induction Hv as [| f rest Hf _ IH].
  - exists []. repeat split. constructor.
  - destruct IH as (l & Hl & Hm & Hd).
    destruct (valid_face_corners st f Hf) as ([[va vb] vc] & Hc).
    exists ((f, (0 + z (rotatePoint st va) + z (rotatePoint st vb)
                 + z (rotatePoint st vc)) / 3) :: l).
    cbn [facesWithDepth]. rewrite (avgZ_corners st f va vb vc Hc), Hl.
    split; [reflexivity |]. split; [cbn; now rewrite Hm |].
    constructor; [| exact Hd].
    cbn [fst snd]. unfold mean_relative_depth. rewrite Hc.
    unfold project3DTo2D. cbn [option_map proj_z].
    f_equal. rewrite Hz. field.
Qed.

(** *** The sort *)

Lemma insert_by_depth_perm (a : face * R) (l : list (face * R)) :
  Permutation (insert_by_depth a l) (a :: l).
Proof.
  induction l as [| b rest IH]; cbn [insert_by_depth]; [reflexivity |].
  destruct (Rlt_dec 0 (snd a - snd b)); [| reflexivity].
  rewrite IH. apply perm_swap.
Qed.

Lemma sort_by_depth_perm (l : list (face * R)) : Permutation (sort_by_depth l) l.
Proof.
  induction l as [| a rest IH]; cbn [sort_by_depth fold_right]; [reflexivity |].
  fold (sort_by_depth rest). rewrite insert_by_depth_perm. now constructor.
Qed.

Lemma insert_by_depth_sorted (a : face * R) (l : list (face * R)) :
  StronglySorted depth_le l -> StronglySorted depth_le (insert_by_depth a l).
Proof.
  induction 1 as [| b rest Hs IH Hb]; cbn [insert_by_depth].
  - constructor; constructor.
  - destruct (Rlt_dec 0 (snd a - snd b)) as [Hlt | Hge].
    + constructor; [exact IH |].
      apply Forall_forall. intros c Hc.
      apply (Permutation_in _ (insert_by_depth_perm a rest)) in Hc.
      destruct Hc as [<- | Hc]; [unfold depth_le; lra |].
      exact (proj1 (Forall_forall _ _) Hb c Hc).
    + constructor; [constructor; assumption |].
      constructor; [unfold depth_le; lra |].
      apply Forall_forall. intros c Hc.
      pose proof (proj1 (Forall_forall _ _) Hb c Hc) as Hbc.
      unfold depth_le in *. lra.
Qed.

Lemma sort_by_depth_sorted (l : list (face * R)) :
  StronglySorted depth_le (sort_by_depth l).
Proof.
  induction l as [| a rest IH]; cbn [sort_by_depth fold_right]; [constructor |].
  apply insert_by_depth_sorted. exact IH.
Qed.

Lemma fills_of_faces (st : t) (l : list (face * R)) :
  Forall (fun fd => valid_face (List.length (points3D st)) (fst fd)) l ->
  map Some (flat_map
              (fun fd => drawFace (fst fd) (map (project3DTo2D st) (points3D st))) l)
  = map (fill_event st) (map fst l).
Proof.
  induction 1 as [| fd rest Hv _ IH]; [reflexivity |].
  destruct (valid_face_corners st (fst fd) Hv) as (corners & Hc).
  cbn [flat_map map]. rewrite map_app, IH.
  rewrite (proj1 (drawFace_corners st (fst fd) corners Hc)). reflexivity.
Qed.

Lemma strokes_of_faces (st : t) (projectedPoints : list projected) (fs : list face) :
  projectedPoints = map (project3DTo2D st) (points3D st) ->
  Forall (valid_face (List.length (points3D st))) fs ->
  map Some (drawWireframe (set_faces st fs) projectedPoints)
  = map (stroke_event st) fs.
Proof.
  intros ->. induction 1 as [| f rest Hv _ IH]; [reflexivity |].
  destruct (valid_face_corners st f Hv) as (corners & Hc).
  pose proof (proj2 (drawFace_corners st f corners Hc)) as Hs.
  unfold drawWireframe in *. cbn [set_faces faces flat_map map] in *.
  rewrite app_nil_r in Hs. rewrite map_app, IH, Hs. reflexivity.
Qed.

(** C9.  In a frame of a generated shape, whatever the view: [render]
    gives every face the arithmetic mean of the depths of its three
    vertices (their rotated [z] relative to the centroid, as
    [project3DTo2D] returns it); it clears the canvas, fills the faces in
    ascending order of that depth, each one once, and only then strokes the
    outline of every face in the order of [this.faces].  Without vertices
    there are no faces and the frame is the placeholder message. *)
Theorem painter_frame (st : t) (pointCloud2D : list point2D) (s : shape)
  (st' : t) (rot : vec3) (zm width height : R) :
  generateShape st pointCloud2D = Some (s, st') ->
  let frame := set_view st' rot zm width height in
  (points3D frame = [] ->
   faces frame = [] /\ render frame = Some [Clear; Message "no 3D shape data"])
  /\ (points3D frame <> [] ->
      exists withDepth fills strokes,
        facesWithDepth frame (faces frame) = Some withDepth
        /\ map fst withDepth = faces frame
        /\ Forall (fun fd => mean_relative_depth frame (fst fd) = Some (snd fd))
             withDepth
        /\ Permutation (sort_by_depth withDepth) withDepth
        /\ StronglySorted depth_le (sort_by_depth withDepth)
        /\ render frame = Some ([Clear] ++ fills ++ strokes)
        /\ map Some fills
           = map (fill_event frame) (map fst (sort_by_depth withDepth))
        /\ map Some strokes = map (stroke_event frame) (faces frame)).
Proof.
  intros Hs frame.
  pose proof (generateShape_faces_valid _ _ _ _ Hs) as Hvalid.
  pose proof (generateShape_centroid_z _ _ _ _ Hs) as Hz.
  change (points3D st') with (points3D frame) in Hvalid.
  change (faces st') with (faces frame) in Hvalid.
  change (centroid st') with (centroid frame) in Hz.
  split.
  - intros Hnil. rewrite Hnil in Hvalid. cbn [List.length] in Hvalid.
    assert (Hf : faces frame = []).
    { destruct (faces frame) as [| f rest]; [reflexivity |].
      inversion Hvalid as [| ? ? Hv _]; subst. unfold valid_face in Hv.
      destruct (indices f) as [[a b] c]. lia. }
    split; [exact Hf |]. unfold render. rewrite Hnil. reflexivity.
  - intros Hne.
    destruct (facesWithDepth_run frame (faces frame) Hz Hvalid)
      as (withDepth & Hwd & Hfst & Hdepth).
    assert (Hsv : Forall (fun fd => valid_face (List.length (points3D frame)) (fst fd))
                    (sort_by_depth withDepth)).
    { apply Forall_forall. intros fd Hin.
      apply (Permutation_in _ (sort_by_depth_perm withDepth)) in Hin.
      apply (proj1 (Forall_forall _ _) Hvalid). rewrite <- Hfst.
      apply in_map. exact Hin. }
    exists withDepth.
    exists (flat_map (fun fd => drawFace (fst fd)
                                  (map (project3DTo2D frame) (points3D frame)))
              (sort_by_depth withDepth)).
    exists (drawWireframe frame (map (project3DTo2D frame) (points3D frame))).
    split; [exact Hwd |]. split; [exact Hfst |]. split; [exact Hdepth |].
    split; [apply sort_by_depth_perm |]. split; [apply sort_by_depth_sorted |].
    split; [| split].
    + unfold render. rewrite Hwd.
      destruct (Nat.eqb_spec (List.length (points3D frame)) 0) as [H0 | _];
        [| reflexivity].
      destruct (points3D frame); [contradiction | discriminate].
    + apply fills_of_faces. exact Hsv.
    + replace frame with (set_faces frame (faces frame)) at 1
        by (destruct st'; reflexivity).
      apply strokes_of_faces; [reflexivity | exact Hvalid].
Qed.

(** The shape of a one-point profile off the axis, turned and zoomed. *)
Lemma painter_frame_witness :
  exists s st',
    generateShape (new 800 600 1) [mk_point2D 0 1 2] = Some (s, st')
    /\ let frame := set_view st' (mk_vec3 1 2 0) 2 800 600 in
       exists withDepth fills strokes,
         facesWithDepth frame (faces frame) = Some withDepth
         /\ StronglySorted depth_le (sort_by_depth withDepth)
         /\ render frame = Some ([Clear] ++ fills ++ strokes)
         /\ map Some fills
            = map (fill_event frame) (map fst (sort_by_depth withDepth))
         /\ map Some strokes = map (stroke_event frame) (faces frame).
Proof.
  destruct (generateShape_run (new 800 600 1) [mk_point2D 0 1 2])
    as (envelope & st1 & s & st' & He & Hs & _ & Hp & _).
  exists s, st'. split; [exact Hs |]. intros frame.
  destruct (painter_frame _ _ _ _ (mk_vec3 1 2 0) 2 800 600 Hs) as [_ Hframe].
  destruct Hframe as (withDepth & fills & strokes & H1 & _ & _ & _ & H2 & H3 & H4 & H5).
  - cbn in He. inversion He; subst envelope st1.
    cbn [set_view points3D]. rewrite Hp.
    intros Hnil. apply (f_equal (@List.length vertex)) in Hnil.
    rewrite length_app, generate3DPoints_length in Hnil.
    cbn in Hnil. lia.
  - exists withDepth, fills, strokes. repeat split; assumption.
Defined.

End RenderProofs.

Module EnvelopeProofs.
Import Shape3DRenderer.

(** [sampleStep] is at least one, so the loop leaves by its test within
    [pointCloud2D.length] turns: more fuel changes nothing. *)
Lemma sample_loop_fuel (fuel : nat) :
  forall pointCloud2D sampleStep i st acc extra,
    (1 <= sampleStep)%nat ->
    (List.length pointCloud2D <= i + fuel)%nat ->
    sample_loop (fuel + extra) pointCloud2D sampleStep i st acc
    = sample_loop fuel pointCloud2D sampleStep i st acc.
Proof.
  induction fuel as [| fuel IH]; intros pointCloud2D sampleStep i st acc extra Hs Hl.
  - cbn [Nat.add sample_loop]. destruct extra as [| extra]; [reflexivity |].
    cbn [sample_loop].
    assert (Hn : nth_error pointCloud2D i = None) by (apply nth_error_None; lia).
    now rewrite Hn.
  - cbn [Nat.add sample_loop].
    destruct (nth_error pointCloud2D i) as [point |]; [| reflexivity].
    cbn [new_point2D]. apply IH; [exact Hs | lia].
Qed.

(** Every object the loop pushes is new: its identity is none of those in
    use when the loop started.  A loop that takes a turn pushes. *)
Lemma sample_loop_fresh (fuel : nat) :
  forall pointCloud2D sampleStep i st acc bound,
    (bound <= next_oid st)%nat ->
    Forall (fun o => (bound <= oid o)%nat) acc ->
    let r := sample_loop fuel pointCloud2D sampleStep i st acc in
    Forall (fun o => (bound <= oid o)%nat) (fst r)
    /\ (next_oid st <= next_oid (snd r))%nat
    /\ alphaRadius (snd r) = alphaRadius st
    /\ (List.length acc <= List.length (fst r))%nat
    /\ ((0 < fuel)%nat -> (i < List.length pointCloud2D)%nat ->
        (List.length acc < List.length (fst r))%nat).
Proof.
  induction fuel as [| fuel IH]; intros pointCloud2D sampleStep i st acc bound Hb Hacc.
  - cbn. repeat split; try assumption; lia.
  - cbn [sample_loop].
    destruct (nth_error pointCloud2D i) as [point |] eqn:Hp.
    + cbn [new_point2D].
      match goal with
      | |- context [sample_loop fuel pointCloud2D sampleStep ?j ?s ?a] =>
          destruct (IH pointCloud2D sampleStep j s a bound) as (H1 & H2 & H3 & H4 & _)
      end.
      * cbn. lia.
      * unfold push. apply Forall_app. split; [exact Hacc |].
        constructor; [cbn; exact Hb | constructor].
      * cbn [next_oid alphaRadius] in H2, H3.
        assert (Hpl : forall o, List.length (push acc o) = S (List.length acc)).
        { intros o. unfold push. rewrite length_app. cbn. lia. }
        rewrite Hpl in H4. cbn zeta.
        repeat split; try assumption; lia.
    + cbn. apply nth_error_None in Hp. repeat split; try assumption; lia.
Qed.

(** On an array of at least one point, none of them created after the
    renderer's allocation mark, the test [!==] of [generateEnvelope] is
    always true: the last point is pushed once more after the loop,
    whether or not the loop visited the last index. *)
Lemma envelope_samples_always_appends (st : t) (pointCloud2D : list point2D)
  (lastPoint : point2D) :
  Forall (fun p => (oid p < next_oid st)%nat) pointCloud2D ->
  last_element pointCloud2D = Some lastPoint ->
  let sampled :=
    sample_loop (List.length pointCloud2D) pointCloud2D
      (Nat.max 1 (List.length pointCloud2D / 8)) 0 st [] in
  fst (envelope_samples st pointCloud2D)
  = fst sampled
    ++ [ {| oid := next_oid (snd sampled); px := px lastPoint;
            py := py lastPoint * alphaRadius st |} ].
Proof.
  intros Hwf Hlast sampled. unfold envelope_samples. fold sampled.
  assert (Hne : (0 < List.length pointCloud2D)%nat).
  { destruct pointCloud2D; [discriminate | cbn; lia]. }
  destruct (sample_loop_fresh (List.length pointCloud2D) pointCloud2D
              (Nat.max 1 (List.length pointCloud2D / 8)) 0 st [] (next_oid st)
              (le_n _) (Forall_nil _)) as (Hfresh & _ & Halpha & _ & Hgrow).
  fold sampled in Hfresh, Halpha, Hgrow. specialize (Hgrow Hne Hne).
  destruct sampled as [envelope st1]. cbn [fst snd] in *.
  assert (Hdiff : not_same_object (last_element envelope) (last_element pointCloud2D)
                  = true).
  { rewrite Hlast. unfold last_element.
    destruct (nth_error envelope (List.length envelope - 1)) as [e |] eqn:He;
      [| reflexivity].
    apply nth_error_In in He.
    pose proof (proj1 (Forall_forall _ _) Hfresh e He) as Hge.
    unfold last_element in Hlast. apply nth_error_In in Hlast.
    pose proof (proj1 (Forall_forall _ _) Hwf lastPoint Hlast) as Hlt.
    cbn beta in Hge, Hlt. cbn. apply negb_true_iff, Nat.eqb_neq. lia. }
  rewrite Hdiff, Hlast. cbn [new_point2D fst push]. rewrite Halpha. reflexivity.
Qed.

(** C1 (the code departs from it).  The profile [(0, 1), (1, 2)] has length
    two, so that the stride is one and the loop samples both points; the
    objects of [envelope] are new ones, the test [!==] against the last
    profile point holds, and the last point is pushed again: before the
    smoothing the envelope is [(0, 1.5), (1, 3), (1, 3)], with the last
    point twice. *)
Theorem last_point_pushed_twice :
  let st := new 800 600 2 in
  let profile := [ {| oid := 0; px := 0; py := 1 |};
                   {| oid := 1; px := 1; py := 2 |} ] in
  map (fun o => (px o, py o)) (fst (envelope_samples st profile))
  = [ (0, 1 * (3 / 2)); (1, 2 * (3 / 2)); (1, 2 * (3 / 2)) ].
Proof. reflexivity. Qed.

End EnvelopeProofs.

(** * Further properties *)

Module PointCalculatorMore.
Import PointCalculator Placement PlacementProofs PointCalculatorStats.

(** [circumferenceToRadius] and the circumference of a circle are inverse
    to each other. *)
Theorem radius_circumference_round_trip (v : R) :
  circumferenceToRadius (2 * PI * v) = v
  /\ 2 * PI * circumferenceToRadius v = v.
Proof.
  unfold circumferenceToRadius. pose proof PI_RGT_0.
  split; field; lra.
Qed.

(** *** What [calculate] leaves of the state before *)

(** On a non-empty array, the profile and the three fields that
    [calculate] writes depend on the array alone; the console keeps what it
    held and only grows. *)
Theorem calculate_replaces_state (st1 st2 : t) (tableData : list R)
  (pts1 pts2 : list point) (st1' st2' : t) :
  tableData <> [] ->
  calculate st1 tableData = Some (pts1, st1') ->
  calculate st2 tableData = Some (pts2, st2') ->
  pts1 = pts2
  /\ getPointCloud st1' = pts1
  /\ getPointCloud st1' = getPointCloud st2'
  /\ getRadiusArray st1' = getRadiusArray st2'
  /\ getBaseRadius st1' = getBaseRadius st2'
  /\ exists warnings,
       console st1' = console st1 ++ warnings
       /\ console st2' = console st2 ++ warnings.
Proof.
  intros Hne H1 H2. destruct tableData as [| c rest]; [contradiction |].
  rewrite calculate_run in H1, H2. inversion H1; inversion H2; subst.
  unfold getPointCloud, getRadiusArray, getBaseRadius.
  cbn [pointCloud radiusArray baseRadius console].
  repeat split. eexists. split; reflexivity.
Qed.

Lemma calculate_replaces_state_witness :
  exists pts st1' st2',
    calculate new [2 * PI; 4 * PI] = Some (pts, st1')
    /\ calculate (mk 7 [] [mk_point 1 1 1] [Warn 1 1]) [2 * PI; 4 * PI]
       = Some (pts, st2')
    /\ getPointCloud st1' = getPointCloud st2'
    /\ getBaseRadius st1' = getBaseRadius st2'.
Proof.
  eexists. eexists. eexists.
  split; [apply calculate_run |]. split; [apply calculate_run |].
  pose proof (calculate_replaces_state new (mk 7 [] [mk_point 1 1 1] [Warn 1 1])
                [2 * PI; 4 * PI] _ _ _ _ ltac:(discriminate)
                (calculate_run _ _ _) (calculate_run _ _ _))
    as (_ & _ & Hp & _ & Hb & _).
  split; [exact Hp | exact Hb].
Defined.

(** On the empty array [calculate] returns the empty profile and writes no
    field: the accessors and [getStats] go on answering from the profile
    computed before. *)
Theorem calculate_empty_keeps_previous (st : t) (tableData : list R)
  (pts : list point) (st1 : t) :
  tableData <> [] ->
  calculate st tableData = Some (pts, st1) ->
  calculate st1 [] = Some ([], st1)
  /\ getPointCloud st1 = pts
  /\ List.length (getPointCloud st1) = List.length tableData
  /\ exists s, getStats st1 = Some s /\ pointCount s = List.length tableData.
Proof.
  intros Hne Hc. destruct tableData as [| c rest]; [contradiction |].
  rewrite calculate_run in Hc. inversion Hc; subst. clear Hc.
  unfold getPointCloud, getStats. cbn [pointCloud List.length Nat.eqb].
  split; [reflexivity |]. split; [reflexivity |].
  rewrite place_length, to_radiusArray_length.
  split; [reflexivity |]. eexists. split; reflexivity.
Qed.

Lemma calculate_empty_keeps_previous_witness :
  exists pts st1,
    calculate new [2 * PI] = Some (pts, st1)
    /\ calculate st1 [] = Some ([], st1)
    /\ List.length (getPointCloud st1) = 1%nat.
Proof.
  eexists. eexists. split; [apply calculate_run |].
  pose proof (calculate_empty_keeps_previous new [2 * PI] _ _
                ltac:(discriminate) (calculate_run _ _ _)) as (H1 & _ & H2 & _).
  split; [exact H1 | exact H2].
Defined.

(** *** Minima and maxima *)

Lemma fold_Rmin_spec (rest : list R) :
  forall a, let m := fold_left Rmin rest a in
            In m (a :: rest) /\ forall v, In v (a :: rest) -> m <= v.
Proof.
  induction rest as [| b rest IH]; intros a; cbn [fold_left].
  - split; [now left |]. intros v [<- | []]. lra.
  - destruct (IH (Rmin a b)) as (Hin & Hle). split.
    + destruct Hin as [Hm | Hm]; [| right; right; exact Hm].
      rewrite <- Hm. unfold Rmin. destruct (Rle_dec a b); [left | right; left]; reflexivity.
    + intros v Hv.
      assert (Hab : fold_left Rmin rest (Rmin a b) <= Rmin a b) by (apply Hle; now left).
      destruct Hv as [<- | [<- | Hv]].
      * pose proof (Rmin_l a b). lra.
      * pose proof (Rmin_r a b). lra.
      * apply Hle. right. exact Hv.
Qed.

Lemma fold_Rmax_spec (rest : list R) :
  forall a, let m := fold_left Rmax rest a in
            In m (a :: rest) /\ forall v, In v (a :: rest) -> v <= m.
Proof.
  induction rest as [| b rest IH]; intros a; cbn [fold_left].
  - split; [now left |]. intros v [<- | []]. lra.
  - destruct (IH (Rmax a b)) as (Hin & Hle). split.
    + destruct Hin as [Hm | Hm]; [| right; right; exact Hm].
      rewrite <- Hm. unfold Rmax. destruct (Rle_dec a b); [right; left | left]; reflexivity.
    + intros v Hv.
      assert (Hab : Rmax a b <= fold_left Rmax rest (Rmax a b)) by (apply Hle; now left).
      destruct Hv as [<- | [<- | Hv]].
      * pose proof (Rmax_l a b). lra.
      * pose proof (Rmax_r a b). lra.
      * apply Hle. right. exact Hv.
Qed.

(** *** The profile from left to right *)

Lemma place_x_ge (b : R) (es : list radius_entry) :
  forall prev p, In p (place b prev es) -> x prev <= x p.
Proof.
  induction es as [| e rest IH]; intros prev p Hin; [contradiction |].
  cbn [place] in Hin. pose proof (next_point_x_le b prev e) as Hle.
  destruct Hin as [<- | Hin]; [exact Hle |].
  specialize (IH _ _ Hin). lra.
Qed.

Lemma last_nonempty_default {A : Type} (l : list A) :
  forall a d d' : A, last (a :: l) d = last (a :: l) d'.
Proof.
  induction l as [| a' l IH]; intros a d d'; [reflexivity |].
  change (last (a :: a' :: l) d) with (last (a' :: l) d).
  change (last (a :: a' :: l) d') with (last (a' :: l) d').
  apply IH.
Qed.

Lemma place_x_le_last (b : R) (es : list radius_entry) :
  forall prev p, In p (prev :: place b prev es) ->
                 x p <= x (last (prev :: place b prev es) prev).
Proof.
  induction es as [| e rest IH]; intros prev p Hin.
  - destruct Hin as [<- | []]. cbn. lra.
  - cbn [place].
    change (last (prev :: next_point b prev e :: place b (next_point b prev e) rest) prev)
      with (last (next_point b prev e :: place b (next_point b prev e) rest) prev).
    rewrite (last_nonempty_default _ _ prev (next_point b prev e)).
    pose proof (IH (next_point b prev e) (next_point b prev e) (or_introl eq_refl)) as Hn.
    destruct Hin as [<- | Hin].
    + pose proof (next_point_x_le b prev e). lra.
    + apply IH. cbn [place] in Hin. exact Hin.
Qed.

Lemma nth_error_last {A : Type} (l : list A) (d : A) :
  l <> [] -> nth_error l (List.length l - 1) = Some (last l d).
Proof.
  induction l as [| a l IH]; intros Hne; [contradiction |].
  destruct l as [| a' l]; [reflexivity |].
  change (last (a :: a' :: l) d) with (last (a' :: l) d).
  rewrite <- IH by discriminate.
  replace (List.length (a :: a' :: l) - 1)%nat
    with (S (List.length (a' :: l) - 1)) by (cbn [List.length]; lia).
  reflexivity.
Qed.

Lemma place_y (b : R) (es : list radius_entry) :
  forall prev, map y (place b prev es) = map radius es.
Proof.
  induction es as [| e rest IH]; intros prev; [reflexivity |].
  cbn [place map]. now rewrite next_point_y, IH.
Qed.

Lemma to_radiusArray_radius (tableData : list R) :
  forall i, map radius (to_radiusArray i tableData)
            = map circumferenceToRadius tableData.
Proof.
  induction tableData as [| c rest IH]; intros i; [reflexivity |].
  cbn [to_radiusArray map radius]. now rewrite IH.
Qed.

(** After [calculate] on a non-empty array, [getStats] reports as many
    points as magnitudes, the radius of the first magnitude as the base
    radius, 0 as the least [x], the [x] of the last point as the greatest
    [x], and the least and the greatest radius as the bounds of [y]. *)
Theorem getStats_after_calculate (st : t) (tableData : list R)
  (pts : list point) (st' : t) (m0 : R) :
  calculate st tableData = Some (pts, st') ->
  nth_error tableData 0 = Some m0 ->
  exists s pLast,
    getStats st' = Some s
    /\ pointCount s = List.length tableData
    /\ stats_baseRadius s = m0 / (2 * PI)
    /\ xMin s = Some 0
    /\ nth_error pts (List.length pts - 1) = Some pLast
    /\ xMax s = Some (x pLast)
    /\ yMin s = Math_min (map (fun m => m / (2 * PI)) tableData)
    /\ yMax s = Math_max (map (fun m => m / (2 * PI)) tableData).
Proof.
  intros Hc Hm0. destruct tableData as [| c rest]; [discriminate |].
  cbn in Hm0. inversion Hm0; subst c. clear Hm0.
  rewrite calculate_run in Hc. inversion Hc; subst. clear Hc.
  set (e0 := {| entry_index := 1; radius := circumferenceToRadius m0 |}).
  set (b := circumferenceToRadius m0).
  set (es := to_radiusArray 1 rest).
  set (pts := first_point e0 :: place b (first_point e0) es).
  exists {| pointCount := List.length pts; stats_baseRadius := b;
            xMin := Math_min (map x pts); xMax := Math_max (map x pts);
            yMin := Math_min (map y pts); yMax := Math_max (map y pts) |}.
  exists (last pts (first_point e0)).
  assert (Hys : map y pts = map (fun m => m / (2 * PI)) (m0 :: rest)).
  { unfold pts, es. cbn [map]. rewrite place_y, to_radiusArray_radius. reflexivity. }
  split; [reflexivity |]. cbn [pointCount stats_baseRadius xMin xMax yMin yMax].
  split; [unfold pts, es; cbn [List.length]; now rewrite place_length, to_radiusArray_length |].
  split; [reflexivity |].
  split; [| split; [apply nth_error_last; discriminate | split; [| now rewrite Hys]]].
  - unfold pts. cbn [map Math_min].
    destruct (fold_Rmin_spec (map x (place b (first_point e0) es)) (x (first_point e0)))
      as (Hin & Hle).
    f_equal. apply Rle_antisym.
    + apply (Hle (x (first_point e0))). now left.
    + destruct Hin as [Hin | Hin]; [rewrite <- Hin; cbn; lra |].
      apply in_map_iff in Hin. destruct Hin as (p & Hp & Hin). rewrite <- Hp.
      apply (place_x_ge b es (first_point e0) p Hin).
  - unfold pts at 1. cbn [map Math_max].
    destruct (fold_Rmax_spec (map x (place b (first_point e0) es)) (x (first_point e0)))
      as (Hin & Hle).
    f_equal. apply Rle_antisym.
    + change (x (first_point e0) :: map x (place b (first_point e0) es))
        with (map x pts) in Hin.
      apply in_map_iff in Hin. destruct Hin as (p & Hp & Hin). rewrite <- Hp.
      apply (place_x_le_last b es (first_point e0) p Hin).
    + apply Hle.
      change (x (first_point e0) :: map x (place b (first_point e0) es))
        with (map x pts).
      apply in_map. unfold pts.
      destruct (exists_last (l := first_point e0 :: place b (first_point e0) es))
        as (l' & a & Hla); [discriminate |].
      rewrite Hla, last_last. apply in_or_app. right. now left.
Qed.

Lemma getStats_after_calculate_witness :
  exists pts st' s pLast,
    calculate new [2 * PI; 4 * PI] = Some (pts, st')
    /\ getStats st' = Some s
    /\ pointCount s = 2%nat
    /\ xMin s = Some 0
    /\ nth_error pts 1 = Some pLast
    /\ xMax s = Some (x pLast).
Proof.
  destruct (getStats_after_calculate new [2 * PI; 4 * PI] _ _ (2 * PI)
              (calculate_run _ _ _) eq_refl)
    as (s & pLast & Hs & Hn & _ & Hmin & Hlast & Hmax & _).
  eexists. eexists. exists s, pLast.
  split; [apply calculate_run |]. repeat split; assumption.
Defined.

(** *** How far a step goes *)

Lemma next_point_x_step (b : R) (prev : point) (e : radius_entry) :
  x (next_point b prev e) <= x prev + Rabs b * (13 / 10).
Proof.
  unfold next_point. pose proof (Rabs_pos b) as Hb.
  destruct (Rle_dec 0 _) as [Hd | Hd]; cbn [x]; [| lra].
  assert (Hs : sqrt (discriminant b prev (radius e)) <= Rabs b * (13 / 10)).
  { replace (Rabs b * (13 / 10)) with (Rabs (b * (13 / 10)))
      by (rewrite Rabs_mult, (Rabs_pos_eq (13 / 10)); lra).
    rewrite <- sqrt_Rsqr_abs. apply sqrt_le_1_alt.
    unfold discriminant, Rsqr.
    pose proof (Rle_0_sqr (radius e - y prev)) as Hq. unfold Rsqr in Hq. lra. }
  lra.
Qed.

Lemma place_x_bound (b : R) (es : list radius_entry) :
  forall prev k p,
    nth_error (place b prev es) k = Some p ->
    x p <= x prev + INR (S k) * (Rabs b * (13 / 10)).
Proof.
  induction es as [| e rest IH]; intros prev k p Hk.
  - destruct k; discriminate.
  - pose proof (next_point_x_step b prev e) as Hs.
    destruct k as [| k]; cbn [place nth_error] in Hk.
    + inversion Hk; subst. cbn [INR]. lra.
    + specialize (IH _ _ _ Hk). rewrite (S_INR (S k)). lra.
Qed.

(** Every point of a profile lies between [x = 0] and as many spacings
    [|baseRadius| · 1.3] as it has points before it: the placement never
    goes left of the first point and never steps by more than one spacing. *)
Theorem profile_x_bounds (st : t) (tableData : list R) (pts : list point)
  (st' : t) (i : nat) (p : point) :
  calculate st tableData = Some (pts, st') ->
  nth_error pts i = Some p ->
  0 <= x p <= INR i * (Rabs (getBaseRadius st') * (13 / 10)).
Proof.
  intros Hc Hp. destruct tableData as [| c rest].
  - cbn in Hc. inversion Hc; subst. destruct i; discriminate.
  - rewrite calculate_run in Hc. inversion Hc; subst. clear Hc.
    unfold getBaseRadius. cbn [baseRadius].
    destruct i as [| i]; cbn [nth_error] in Hp.
    + inversion Hp; subst. cbn. lra.
    + split.
      * apply nth_error_In in Hp.
        pose proof (place_x_ge _ _ _ _ Hp) as Hge. cbn in Hge. exact Hge.
      * pose proof (place_x_bound _ _ _ _ _ Hp) as Hle. cbn [first_point x] in Hle. lra.
Qed.

Lemma profile_x_bounds_witness :
  exists pts st' p,
    calculate new [2 * PI; 4 * PI] = Some (pts, st')
    /\ nth_error pts 1 = Some p
    /\ 0 <= x p <= INR 1 * (Rabs (getBaseRadius st') * (13 / 10)).
Proof.
  eexists. eexists. eexists.
  split; [apply calculate_run |]. split; [reflexivity |].
  apply (profile_x_bounds new [2 * PI; 4 * PI] _ _ 1 _ (calculate_run _ _ _) eq_refl).
Defined.

(** *** Steps the spacing can reach *)

Lemma next_point_distance (b : R) (p : point) (e : radius_entry) :
  0 <= b * (13 / 10) ->
  0 <= discriminant b p (radius e) ->
  let q := next_point b p e in
  sqrt ((x q - x p) * (x q - x p) + (y q - y p) * (y q - y p)) = b * (13 / 10).
Proof.
  intros Hb Hd q. unfold q, next_point.
  destruct (Rle_dec 0 _) as [_ | Hn]; [| contradiction]. cbn [x y].
  replace (x p + sqrt (discriminant b p (radius e)) - x p)
    with (sqrt (discriminant b p (radius e))) by ring.
  rewrite sqrt_sqrt by exact Hd. unfold discriminant.
  replace (b * (13 / 10) * (b * (13 / 10)) - (radius e - y p) * (radius e - y p)
           + (radius e - y p) * (radius e - y p))
    with (Rsqr (b * (13 / 10))) by (unfold Rsqr; ring).
  apply sqrt_Rsqr. exact Hb.
Qed.

Lemma small_step_discriminant (b y0 r : R) (prev : point) :
  y prev = y0 -> Rabs (r - y0) <= b * (13 / 10) ->
  0 <= discriminant b prev r.
Proof.
  intros Hy Hs. unfold discriminant. rewrite Hy.
  pose proof (Rle_abs (r - y0)) as H1.
  pose proof (Rle_abs (- (r - y0))) as H2. rewrite Rabs_Ropp in H2. nra.
Qed.

Lemma place_small_steps (b : R) (es : list radius_entry) :
  forall prev,
    steps_within (b * (13 / 10)) (y prev) (map radius es) ->
    place_console b prev es = []
    /\ forall i p q,
         nth_error (prev :: place b prev es) i = Some p ->
         nth_error (prev :: place b prev es) (S i) = Some q ->
         sqrt ((x q - x p) * (x q - x p) + (y q - y p) * (y q - y p))
         = b * (13 / 10).
Proof.
  induction es as [| e rest IH]; intros prev Hs.
  - split; [reflexivity |]. intros i p q _ Hq. destruct i; discriminate.
  - cbn [map steps_within] in Hs. destruct Hs as (Hstep & Hrest).
    assert (Hb : 0 <= b * (13 / 10)) by (pose proof (Rabs_pos (radius e - y prev)); lra).
    pose proof (small_step_discriminant b (y prev) (radius e) prev eq_refl Hstep) as Hd.
    rewrite <- (next_point_y b prev e) in Hrest.
    destruct (IH _ Hrest) as (Hc & Hdist).
    split.
    + cbn [place_console]. rewrite Hc. unfold next_console.
      destruct (Rle_dec 0 _); [reflexivity | contradiction].
    + intros i p q Hp Hq. destruct i as [| i].
      * cbn in Hp, Hq. inversion Hp; inversion Hq; subst.
        apply next_point_distance; assumption.
      * cbn [place] in Hp, Hq. apply (Hdist i p q); assumption.
Qed.

Lemma steps_within_radii (m0 : R) (rest : list R) :
  forall a,
    (forall i u v, nth_error (a :: rest) i = Some u ->
                   nth_error (a :: rest) (S i) = Some v ->
                   Rabs (v - u) <= 13 / 10 * m0) ->
    steps_within (circumferenceToRadius m0 * (13 / 10)) (circumferenceToRadius a)
      (map circumferenceToRadius rest).
Proof.
  induction rest as [| c rest IH]; intros a H; [exact I |].
  cbn [map steps_within]. split.
  - specialize (H 0%nat a c eq_refl eq_refl).
    unfold circumferenceToRadius. pose proof PI_RGT_0 as Hpi.
    replace (c / (2 * PI) - a / (2 * PI)) with ((c - a) * / (2 * PI)) by (field; lra).
    assert (Hinv : 0 < / (2 * PI)) by (apply Rinv_0_lt_compat; lra).
    rewrite Rabs_mult, (Rabs_pos_eq (/ (2 * PI))) by lra.
    replace (m0 / (2 * PI) * (13 / 10)) with (13 / 10 * m0 * / (2 * PI)) by (field; lra).
    apply Rmult_le_compat_r; lra.
  - apply IH. intros i u v Hu Hv. apply (H (S i) u v); assumption.
Qed.

(** The profile of a table of small steps. *)
Lemma calculate_small_steps (st : t) (tableData : list R)
  (pts : list point) (st' : t) (m0 : R) :
  nth_error tableData 0 = Some m0 ->
  (forall i u v, nth_error tableData i = Some u ->
                 nth_error tableData (S i) = Some v ->
                 Rabs (v - u) <= 13 / 10 * m0) ->
  calculate st tableData = Some (pts, st') ->
  console st' = console st
  /\ forall i p q,
       nth_error pts i = Some p -> nth_error pts (S i) = Some q ->
       sqrt ((x q - x p) * (x q - x p) + (y q - y p) * (y q - y p))
       = getBaseRadius st' * (13 / 10).
Proof.
  intros Hm0 Hsteps Hc. destruct tableData as [| c rest]; [discriminate |].
  cbn in Hm0. inversion Hm0; subst c. clear Hm0.
  rewrite calculate_run in Hc. inversion Hc; subst. clear Hc.
  unfold getBaseRadius. cbn [console baseRadius].
  destruct (place_small_steps (circumferenceToRadius m0) (to_radiusArray 1 rest)
              (first_point {| entry_index := 1; radius := circumferenceToRadius m0 |}))
    as (Hcon & Hdist).
  { rewrite to_radiusArray_radius. cbn [first_point y radius].
    apply steps_within_radii. exact Hsteps. }
  rewrite Hcon, app_nil_r. split; [reflexivity | exact Hdist].
Qed.



Lemma place_constant (b : R) (es : list radius_entry) :
  0 <= b * (13 / 10) ->
  forall prev,
    (forall e, In e es -> radius e = y prev) ->
    forall k e,
      nth_error es k = Some e ->
      exists p, nth_error (place b prev es) k = Some p
                /\ x p = x prev + INR (S k) * (b * (13 / 10))
                /\ y p = y prev /\ index p = entry_index e.
Proof.
  intros Hb. induction es as [| e0 rest IH]; intros prev Hall k e Hk.
  - destruct k; discriminate.
  - assert (Hn : x (next_point b prev e0) = x prev + b * (13 / 10)
                 /\ y (next_point b prev e0) = y prev).
    { unfold next_point, discriminant. rewrite (Hall e0 (or_introl eq_refl)).
      replace (b * (13 / 10) * (b * (13 / 10)) - (y prev - y prev) * (y prev - y prev))
        with (Rsqr (b * (13 / 10))) by (unfold Rsqr; ring).
      destruct (Rle_dec 0 _) as [_ | Hn]; [| exfalso; apply Hn; apply Rle_0_sqr].
      cbn [x y]. rewrite sqrt_Rsqr by exact Hb. split; reflexivity. }
    destruct Hn as (Hnx & Hny).
    destruct k as [| k]; cbn [place nth_error] in Hk |- *.
    + inversion Hk; subst e0. eexists. split; [reflexivity |].
      rewrite Hnx, Hny, next_point_index. cbn [INR]. repeat split. ring.
    + destruct (IH (next_point b prev e0)) with (k := k) (e := e)
        as (p & Hp & Hx & Hy & Hi).
      * intros e' He'. rewrite Hny. apply Hall. now right.
      * exact Hk.
      * exists p. split; [exact Hp |]. rewrite Hx, Hy, Hnx, Hny, (S_INR (S k)).
        repeat split; [ring | exact Hi].
Qed.

(** A table of [n] equal magnitudes [m >= 0] gives a straight profile: the
    point of index [i + 1] is at [x = i · 1.3 · r] and [y = r], for
    [r = m / 2π]. *)
Theorem constant_table_is_a_line (st : t) (m : R) (n i : nat)
  (pts : list point) (st' : t) :
  0 <= m ->
  (i < n)%nat ->
  calculate st (repeat m n) = Some (pts, st') ->
  exists p, nth_error pts i = Some p
            /\ x p = INR i * (m / (2 * PI) * (13 / 10))
            /\ y p = m / (2 * PI)
            /\ index p = (i + 1)%nat.
Proof.
  intros Hm Hi Hc. destruct n as [| n]; [lia |]. cbn [repeat] in Hc.
  rewrite calculate_run in Hc. inversion Hc; subst. clear Hc.
  assert (Hr : 0 <= circumferenceToRadius m * (13 / 10)).
  { unfold circumferenceToRadius. pose proof PI_RGT_0.
    assert (0 <= m / (2 * PI)); [| lra].
    apply Rmult_le_pos; [lra |]. apply Rlt_le, Rinv_0_lt_compat. lra. }
  destruct i as [| i].
  - eexists. split; [reflexivity |]. cbn. repeat split. ring.
  - assert (He : nth_error (to_radiusArray 1 (repeat m n)) i
                 = Some {| entry_index := 1 + i + 1;
                           radius := circumferenceToRadius m |}).
    { apply to_radiusArray_nth. apply nth_error_repeat. lia. }
    destruct (place_constant (circumferenceToRadius m)
                (to_radiusArray 1 (repeat m n)) Hr
                (first_point {| entry_index := 1;
                                radius := circumferenceToRadius m |}))
      with (k := i) (e := {| entry_index := 1 + i + 1;
                             radius := circumferenceToRadius m |})
      as (p & Hp & Hx & Hy & Hidx).
    + intros e Hin.
      assert (Hin' : In (radius e) (map radius (to_radiusArray 1 (repeat m n))))
        by (apply in_map; exact Hin).
      rewrite to_radiusArray_radius in Hin'. apply in_map_iff in Hin'.
      destruct Hin' as (u & Hu & Hin'). apply repeat_spec in Hin'. subst u.
      symmetry. exact Hu.
    + exact He.
    + exists p. cbn [nth_error]. split; [exact Hp |].
      cbn [first_point x y entry_index radius] in Hx, Hy, Hidx.
      rewrite Hx, Hy, Hidx. unfold circumferenceToRadius.
      split; [ring |]. split; [reflexivity | lia].
Qed.

Lemma constant_table_is_a_line_witness :
  exists pts st' p,
    calculate new (repeat (2 * PI) 3) = Some (pts, st')
    /\ nth_error pts 2 = Some p
    /\ x p = INR 2 * (2 * PI / (2 * PI) * (13 / 10))
    /\ y p = 2 * PI / (2 * PI).
Proof.
  pose proof PI_RGT_0 as Hpi.
  assert (Hm : 0 <= 2 * PI) by lra.
  destruct (constant_table_is_a_line new (2 * PI) 3 2 _ _ Hm ltac:(lia)
              (calculate_run _ _ _)) as (p & Hp & Hx & Hy & _).
  eexists. eexists. exists p.
  split; [apply calculate_run |]. repeat split; assumption.
Defined.

End PointCalculatorMore.

Module ViewMore.
Import Shape3DRenderer Revolution Frame RevolutionProofs ShapeProofs
  ProjectionProofs RenderProofs.

(** [rotatePoint] keeps the distance of a vertex to the centroid: the two
    rotations are rigid. *)
Theorem rotatePoint_keeps_distance_to_centroid (st : t) (p : vertex) :
  let c := centroid st in
  let r := rotatePoint st p in
  (x r - x c) * (x r - x c) + (y r - y c) * (y r - y c) + (z r - z c) * (z r - z c)
  = (vx p - x c) * (vx p - x c) + (vy p - y c) * (vy p - y c)
    + (vz p - z c) * (vz p - z c).
Proof.
  intros c r. destruct (rotatePoint_relative st p) as (Hx & Hy & Hz).
  fold c in Hx, Hy, Hz. fold r in Hx, Hy, Hz. rewrite Hx, Hy, Hz.
  pose proof (sin2_cos2 (x (rotation st))) as HX.
  pose proof (sin2_cos2 (y (rotation st))) as HY.
  unfold Rsqr in HX, HY.
  set (sX := sin (x (rotation st))) in *. set (cX := cos (x (rotation st))) in *.
  set (sY := sin (y (rotation st))) in *. set (cY := cos (y (rotation st))) in *.
  set (x0 := vx p - x c). set (y0 := vy p - y c). set (z0 := vz p - z c).
  transitivity (x0 * x0 * (sY * sY + cY * cY)
                + (y0 * y0 + z0 * z0) * (sX * sX + cX * cX)
                + (y0 * sX + z0 * cX) * (y0 * sX + z0 * cX)
                  * (sY * sY + cY * cY - 1)).
  - ring.
  - rewrite HX, HY. ring.
Qed.

(** A vertex at the centroid stays there under every rotation, and is
    drawn at the centre of the canvas with depth 0, whatever the zoom; with
    no rotation about the x and y axes, [rotatePoint] returns every vertex
    where it is. *)
Theorem centroid_is_the_pivot (st : t) (p : vertex) :
  (vx p = x (centroid st) -> vy p = y (centroid st) -> vz p = z (centroid st) ->
   rotatePoint st p = centroid st
   /\ project3DTo2D st p
      = {| proj_x := Some (canvas_width st / 2);
           proj_y := Some (canvas_height st / 2); proj_z := 0 |})
  /\ (x (rotation st) = 0 -> y (rotation st) = 0 ->
      rotatePoint st p = {| x := vx p; y := vy p; z := vz p |}).
Proof.
  split.
  - intros Hx Hy Hz.
    assert (Hr : rotatePoint st p = centroid st).
    { unfold rotatePoint. rewrite Hx, Hy, Hz. destruct (centroid st) as [cx cy cz].
      cbn [x y z]. f_equal; ring. }
    split; [exact Hr |]. unfold project3DTo2D. rewrite Hr.
    replace (x (centroid st) - x (centroid st)) with 0 by ring.
    replace (y (centroid st) - y (centroid st)) with 0 by ring.
    replace (z (centroid st) - z (centroid st)) with 0 by ring.
    rewrite num_div_nonzero by lra. cbn [option_map].
    f_equal; f_equal; ring.
  - intros Hx Hy. unfold rotatePoint. rewrite Hx, Hy, sin_0, cos_0.
    f_equal; ring.
Qed.

Lemma centroid_is_the_pivot_witness :
  rotatePoint (new 800 600 0) (mk_vertex 0 0 0 None None) = mk_vec3 0 0 0
  /\ project3DTo2D (new 800 600 0) (mk_vertex 0 0 0 None None)
     = {| proj_x := Some (800 / 2); proj_y := Some (600 / 2); proj_z := 0 |}.
Proof.
  exact (proj1 (centroid_is_the_pivot (new 800 600 0) (mk_vertex 0 0 0 None None))
           eq_refl eq_refl eq_refl).
Defined.

(** *** A face index out of range *)

Lemma avgZ_None_iff (st : t) (f : face) :
  avgZ st f = None <-> ~ valid_face (List.length (points3D st)) f.
Proof.
  split.
  - intros Hnone Hv. destruct (valid_face_corners st f Hv) as ([[va vb] vc] & Hc).
    rewrite (avgZ_corners st f va vb vc Hc) in Hnone. discriminate.
  - intros Hnv. unfold avgZ, depth_sum, indices_list, valid_face in *.
    destruct (indices f) as [[a b] c]. cbn [fold_left].
    destruct (nth_error (points3D st) a) eqn:Ea;
      [| destruct (nth_error (points3D st) b), (nth_error (points3D st) c); reflexivity].
    destruct (nth_error (points3D st) b) eqn:Eb;
      [| destruct (nth_error (points3D st) c); reflexivity].
    destruct (nth_error (points3D st) c) eqn:Ec; [| reflexivity].
    exfalso. apply Hnv.
    repeat split; apply nth_error_Some; congruence.
Qed.

Lemma facesWithDepth_None_iff (st : t) (fs : list face) :
  facesWithDepth st fs = None
  <-> exists f, In f fs /\ ~ valid_face (List.length (points3D st)) f.
Proof.
  induction fs as [| f rest IH]; cbn [facesWithDepth].
  - split; [discriminate | intros (f & [] & _)].
  - destruct (avgZ st f) as [d |] eqn:Ha.
    + destruct (facesWithDepth st rest) as [l |].
      * split; [discriminate |]. intros (g & [<- | Hin] & Hg).
        -- apply avgZ_None_iff in Hg. congruence.
        -- assert (Hn : (None : option (list (face * R))) = None) by reflexivity.
           destruct IH as [_ IH]. specialize (IH (ex_intro _ g (conj Hin Hg))).
           discriminate.
      * split; [| reflexivity]. intros _.
        destruct IH as [IH _]. destruct (IH eq_refl) as (g & Hin & Hg).
        exists g. split; [now right | exact Hg].
    + split; [| reflexivity]. intros _. exists f. split; [now left |].
      apply avgZ_None_iff. exact Ha.
Qed.

(** With vertices to draw, [render] raises exactly when some face has an
    index that is no position of [points3D]: the depth of the face is
    computed from [rotatePoint(undefined)] before [drawFace] could skip
    it.  Without vertices it draws the message and reads no face. *)
Theorem render_raises_on_dangling_index (st : t) :
  (points3D st <> [] ->
   (render st = None
    <-> exists f, In f (faces st)
                  /\ ~ valid_face (List.length (points3D st)) f))
  /\ (points3D st = [] -> render st <> None).
Proof.
  split.
  - intros Hne. unfold render.
    destruct (Nat.eqb_spec (List.length (points3D st)) 0) as [H0 | _].
    { destruct (points3D st); [contradiction | discriminate]. }
    rewrite <- facesWithDepth_None_iff.
    destruct (facesWithDepth st (faces st)); split; congruence.
  - intros Hnil. unfold render. rewrite Hnil. cbn. discriminate.
Qed.

Lemma render_raises_on_dangling_index_witness :
  render (set_faces (set_points3D (new 800 600 0) [mk_vertex 0 0 0 None None])
            [mk_face (0%nat, 0%nat, 1%nat) (literal "#666666")]) = None.
Proof.
  apply (proj1 (render_raises_on_dangling_index _)).
  - discriminate.
  - eexists. split; [left; reflexivity |].
    unfold valid_face. cbn. lia.
Defined.

(** *** The centroid of a generated shape *)

Lemma cos_telescope (theta : R) (n : nat) :
  2 * sin (theta / 2) * Rsum (map (fun j => cos (INR j * theta)) (seq 0 n))
  = sin ((INR n - 1 / 2) * theta) + sin (theta / 2).
Proof.
  induction n as [| n IH].
  - cbn [seq map Rsum fold_right INR].
    replace ((0 - 1 / 2) * theta) with (- (theta / 2)) by field.
    rewrite sin_neg. ring.
  - rewrite seq_S, map_app, Rsum_app. cbn [Nat.add map Rsum fold_right].
    rewrite Rmult_plus_distr_l, IH, S_INR.
    replace ((INR n - 1 / 2) * theta) with (INR n * theta - theta / 2) by field.
    replace ((INR n + 1 - 1 / 2) * theta) with (INR n * theta + theta / 2) by field.
    rewrite sin_minus, sin_plus. ring.
Qed.

Lemma cos_full_turn (divisions : nat) :
  (2 <= divisions)%nat ->
  Rsum (map (fun j => cos (2 * PI * INR j / INR divisions)) (seq 0 divisions)) = 0.
Proof.
  intros H2.
  assert (HD : 2 <= INR divisions) by (apply (le_INR 2); exact H2).
  set (theta := 2 * PI / INR divisions).
  assert (Hext : map (fun j => cos (2 * PI * INR j / INR divisions)) (seq 0 divisions)
                 = map (fun j => cos (INR j * theta)) (seq 0 divisions)).
  { apply map_ext. intros j. f_equal. unfold theta. field. lra. }
  rewrite Hext.
  pose proof (cos_telescope theta divisions) as Ht.
  replace ((INR divisions - 1 / 2) * theta) with (2 * PI - theta / 2) in Ht
    by (unfold theta; field; lra).
  rewrite sin_minus, cos_2PI, sin_2PI in Ht.
  assert (Hs : 0 < sin (theta / 2)).
  { pose proof PI_RGT_0 as Hpi.
    assert (Hq : theta / 2 = PI / INR divisions) by (unfold theta; field; lra).
    rewrite Hq. apply sin_gt_0.
    - apply Rdiv_lt_0_compat; lra.
    - apply (Rmult_lt_reg_r (INR divisions)); [lra |].
      unfold Rdiv. rewrite Rmult_assoc, Rinv_l by lra. nra. }
  assert (Hz : 2 * sin (theta / 2)
               * Rsum (map (fun j => cos (INR j * theta)) (seq 0 divisions)) = 0)
    by (rewrite Ht; ring).
  apply Rmult_integral in Hz. destruct Hz as [Hz | Hz]; [lra | exact Hz].
Qed.

Lemma forEach_point_vy_sum (pointCloud2D : list point2D) :
  forall pointIndex divisions,
    (2 <= divisions)%nat ->
    Rsum (map vy (forEach_point pointCloud2D pointIndex divisions [])) = 0.
Proof.
  induction pointCloud2D as [| point rest IH]; intros pointIndex divisions H2.
  - reflexivity.
  - rewrite forEach_point_cons, map_app, Rsum_app, (IH _ _ H2), map_map.
    cbn [revolved vy].
    rewrite (Rsum_map_scale (py point)
               (fun j => cos (2 * PI * INR j / INR divisions))).
    rewrite (cos_full_turn divisions H2). ring.
Qed.

(** With at least two divisions, the centroid of a generated shape lies on
    the axis of revolution: its [y] and its [z] are zero, whatever the
    profile.  The shape turns about a point of its own axis. *)
Theorem centroid_on_the_axis (st : t) (pointCloud2D : list point2D)
  (s : shape) (st' : t) :
  (2 <= rotationDivisions st)%nat ->
  generateShape st pointCloud2D = Some (s, st') ->
  y (shape_centroid s) = 0 /\ z (shape_centroid s) = 0
  /\ centroid st' = shape_centroid s.
Proof.
  intros H2 Hs.
  destruct (generateShape_run st pointCloud2D)
    as (envelope & st1 & s0 & st0 & He & Hs0 & Hshape & Hp & _ & Hc & _).
  rewrite Hs in Hs0. injection Hs0 as Hs_eq Hst_eq. subst st0.
  rewrite Hs_eq. clear Hs_eq.
  destruct (generateEnvelope_total st pointCloud2D) as (env' & st1' & He' & Hd).
  rewrite He in He'. inversion He'; subst env' st1'. clear He'.
  rewrite Hshape. cbn [shape_centroid].
  split; [| split; [apply (generateShape_centroid_z _ _ _ _ Hs) | reflexivity]].
  rewrite Hc. unfold calculateCentroid.
  destruct (points3D st') as [| v rest] eqn:Hpts; [reflexivity |].
  rewrite sum_positions_eq. cbn [y]. rewrite Hp, map_app, Rsum_app.
  unfold generate3DPoints. rewrite forEach_point_vy_sum by (rewrite Hd; exact H2).
  assert (Hcap : Rsum (map vy (cap_vertices envelope)) = 0).
  { unfold cap_vertices. destruct envelope as [| first ?]; [reflexivity |].
    destruct (Req_dec_T (px first) 0); cbn; ring. }
  rewrite Hcap. unfold Rdiv. ring.
Qed.

Lemma centroid_on_the_axis_witness :
  exists s st',
    generateShape (new 800 600 1) [mk_point2D 0 1 2] = Some (s, st')
    /\ y (shape_centroid s) = 0 /\ z (shape_centroid s) = 0.
Proof.
  destruct (generateShape_run (new 800 600 1) [mk_point2D 0 1 2])
    as (envelope & st1 & s & st' & _ & Hs & _).
  exists s, st'. split; [exact Hs |].
  destruct (centroid_on_the_axis (new 800 600 1) [mk_point2D 0 1 2] s st')
    as (Hy & Hz & _).
  - cbn. lia.
  - exact Hs.
  - split; assumption.
Defined.

End ViewMore.

Module EnvelopeMore.
Import Shape3DRenderer Revolution RevolutionProofs ShapeProofs EnvelopeProofs.

(** The loop of [generateEnvelope] pushes [turns] objects, where the last
    index it visits, [i + (turns - 1) * sampleStep], is inside the array
    and, with enough fuel, the next one is not. *)
Lemma sample_loop_count (fuel : nat) :
  forall pointCloud2D sampleStep i st acc,
    (1 <= sampleStep)%nat ->
    exists turns,
      List.length (fst (sample_loop fuel pointCloud2D sampleStep i st acc))
      = (List.length acc + turns)%nat
      /\ ((0 < turns)%nat ->
          (i + (turns - 1) * sampleStep < List.length pointCloud2D)%nat)
      /\ ((List.length pointCloud2D <= i + fuel)%nat ->
          (List.length pointCloud2D <= i + turns * sampleStep)%nat).
Proof.
  induction fuel as [| fuel IH]; intros pointCloud2D sampleStep i st acc Hs.
  - exists 0%nat. cbn. repeat split; lia.
  - cbn [sample_loop].
    destruct (nth_error pointCloud2D i) as [point |] eqn:Hp.
    + assert (Hi : (i < List.length pointCloud2D)%nat)
        by (apply nth_error_Some; congruence).
      cbn [new_point2D].
      match goal with
      | |- context [sample_loop fuel pointCloud2D sampleStep ?j ?s ?a] =>
          destruct (IH pointCloud2D sampleStep j s a Hs) as (turns & Hl & Hin & Hout)
      end.
      exists (S turns).
      assert (Hpl : forall o, List.length (push acc o) = S (List.length acc)).
      { intros o. unfold push. rewrite length_app. cbn. lia. }
      rewrite Hpl in Hl.
      split; [rewrite Hl; lia |]. split.
      * intros _. destruct turns as [| turns]; [cbn; lia |].
        specialize (Hin ltac:(lia)). cbn [Nat.sub] in *. rewrite Nat.sub_0_r in *.
        nia.
      * intros Hf. specialize (Hout ltac:(lia)). nia.
    + apply nth_error_None in Hp. exists 0%nat. cbn. repeat split; lia.
Qed.

Lemma smoothEnvelope_length (st : t) (envelope smoothed : list point2D) (st' : t) :
  smoothEnvelope st envelope = Some (smoothed, st') ->
  List.length smoothed = List.length envelope.
Proof.
  unfold smoothEnvelope.
  destruct (Nat.ltb (List.length envelope) 3).
  - intros H. inversion H; subst. reflexivity.
  - intros H.
    destruct (smooth_loop_total (List.length envelope) envelope 0 st [])
      as (sm & st2 & Hrun & _ & _ & _ & Hl); [lia |].
    rewrite Hrun in H. inversion H; subst. exact Hl.
Qed.

(** The size of an envelope, for a profile of [n >= 2] points that all
    exist when [generateEnvelope] is called: with [turns] the number of
    indices [0, sampleStep, 2·sampleStep, ...] below [n], the envelope has
    [turns + 1] points. *)
Lemma generateEnvelope_length (st : t) (pointCloud2D envelope : list point2D)
  (st1 : t) :
  Forall (fun p => (oid p < next_oid st)%nat) pointCloud2D ->
  (2 <= List.length pointCloud2D)%nat ->
  generateEnvelope st pointCloud2D = Some (envelope, st1) ->
  let n := List.length pointCloud2D in
  let sampleStep := Nat.max 1 (n / 8) in
  exists turns,
    List.length envelope = (turns + 1)%nat
    /\ ((turns - 1) * sampleStep < n)%nat
    /\ (n <= turns * sampleStep)%nat
    /\ (2 <= turns <= 15)%nat.
Proof.
  intros Hwf Hn He n sampleStep.
  destruct (last_element pointCloud2D) as [lastPoint |] eqn:Hlast.
  2:{ unfold last_element in Hlast. apply nth_error_None in Hlast. lia. }
  pose proof (envelope_samples_always_appends st pointCloud2D lastPoint Hwf Hlast)
    as Happ. cbn zeta in Happ.
  destruct (sample_loop_count n pointCloud2D sampleStep 0 st [])
    as (turns & Hl & Hin & Hout); [unfold sampleStep; lia |].
  fold n sampleStep in Happ. cbn [List.length Nat.add] in Hl, Hin, Hout.
  specialize (Hout (le_n _)). fold n in Hin, Hout.
  assert (Hdiv : (n < 8 * (n / 8) + 8)%nat).
  { pose proof (Nat.div_mod_eq n 8). pose proof (Nat.mod_upper_bound n 8). lia. }
  assert (Hstep : (sampleStep < n)%nat).
  { unfold sampleStep. pose proof (Nat.Div0.div_le_upper_bound n 8 n).
    assert (n / 8 < n)%nat by (apply Nat.div_lt; lia). lia. }
  assert (H2 : (2 <= turns)%nat).
  { destruct turns as [| [| turns]]; [lia | lia | lia]. }
  specialize (Hin ltac:(lia)).
  assert (H15 : (turns <= 15)%nat).
  { destruct (Nat.le_gt_cases turns 15) as [Hle | Hgt]; [exact Hle |]. exfalso.
    assert (15 * sampleStep <= (turns - 1) * sampleStep)%nat
      by (apply Nat.mul_le_mono_r; lia).
    unfold sampleStep in *. lia. }
  exists turns.
  assert (Hlen : List.length envelope = (turns + 1)%nat).
  { unfold generateEnvelope in He.
    destruct (Nat.ltb_spec (List.length pointCloud2D) 2) as [Hlt | _]; [lia |].
    destruct (envelope_samples st pointCloud2D) as [samples st0] eqn:Hes.
    cbn [fst] in Happ.
    assert (Hsl : List.length samples = (turns + 1)%nat).
    { rewrite Happ, length_app, Hl. reflexivity. }
    destruct (Rlt_dec 0 (envelopeSmoothing st0)).
    - rewrite (smoothEnvelope_length _ _ _ _ He). exact Hsl.
    - inversion He; subst. exact Hsl. }
  repeat split; try assumption; lia.
Qed.

(** An envelope has between 3 and 16 points, however long the profile
    (of at least two points) is; between 2 and 15 of them come from the
    stride loop, and one more is pushed after it. *)
Theorem envelope_size_is_bounded (st : t) (pointCloud2D envelope : list point2D)
  (st1 : t) :
  Forall (fun p => (oid p < next_oid st)%nat) pointCloud2D ->
  (2 <= List.length pointCloud2D)%nat ->
  generateEnvelope st pointCloud2D = Some (envelope, st1) ->
  (3 <= List.length envelope <= 16)%nat
  /\ exists turns,
       List.length envelope = (turns + 1)%nat
       /\ ((turns - 1) * Nat.max 1 (List.length pointCloud2D / 8)
           < List.length pointCloud2D)%nat
       /\ (List.length pointCloud2D
           <= turns * Nat.max 1 (List.length pointCloud2D / 8))%nat.
Proof.
  intros Hwf Hn He.
  destruct (generateEnvelope_length st pointCloud2D envelope st1 Hwf Hn He)
    as (turns & Hl & Hin & Hout & Hb).
  split; [lia |]. exists turns. repeat split; assumption.
Qed.

Lemma envelope_size_is_bounded_witness :
  exists envelope st1,
    generateEnvelope (new 800 600 2) [mk_point2D 0 0 1; mk_point2D 1 1 2]
    = Some (envelope, st1)
    /\ (3 <= List.length envelope <= 16)%nat.
Proof.
  destruct (generateEnvelope_total (new 800 600 2) [mk_point2D 0 0 1; mk_point2D 1 1 2])
    as (envelope & st1 & He & _).
  exists envelope, st1. split; [exact He |].
  refine (proj1 (envelope_size_is_bounded _ _ _ _ _ _ He)).
  - repeat constructor.
  - cbn. lia.
Defined.

(** The mesh of a generated shape is small whatever the length of the
    profile: at most [16 × divisions + 1] vertices and [31 × divisions]
    faces. *)
Theorem shape_size_is_bounded (st : t) (pointCloud2D : list point2D)
  (s : shape) (st' : t) :
  Forall (fun p => (oid p < next_oid st)%nat) pointCloud2D ->
  generateShape st pointCloud2D = Some (s, st') ->
  (List.length (shape_points s) <= 16 * rotationDivisions st + 1)%nat
  /\ (List.length (shape_faces s) <= 31 * rotationDivisions st)%nat.
Proof.
  intros Hwf Hs.
  destruct (generateShape_run st pointCloud2D)
    as (envelope & st1 & s0 & st0 & He & Hs0 & Hshape & Hp & Hf & _ & _).
  rewrite Hs in Hs0. injection Hs0 as Hs_eq Hst_eq. subst st0.
  rewrite Hs_eq, Hshape. clear Hs_eq Hshape. cbn [shape_points shape_faces].
  destruct (generateEnvelope_total st pointCloud2D) as (env' & st1' & He' & Hd).
  rewrite He in He'. inversion He'; subst env' st1'. clear He'.
  assert (HL : (List.length envelope <= 16)%nat).
  { destruct (Nat.le_gt_cases 2 (List.length pointCloud2D)) as [Hn | Hn].
    - destruct (generateEnvelope_length st pointCloud2D envelope st1 Hwf Hn He)
        as (turns & Hl & _ & _ & Hb). lia.
    - unfold generateEnvelope in He.
      destruct (Nat.ltb_spec (List.length pointCloud2D) 2) as [_ | Hge]; [| lia].
      inversion He; subst. lia. }
  rewrite Hp, Hf, length_app, generate3DPoints_length, Hd.
  set (D := rotationDivisions st) in *.
  destruct envelope as [| first rest] eqn:Henv.
  - cbn. lia.
  - rewrite <- Henv in *.
    destruct (generateMesh_run st1 envelope first) as
      (side & capFaces & st3 & Hm & _ & _ & Hside & _ & Hcap & _);
      [rewrite Henv; reflexivity |].
    rewrite Hm. cbn [fst]. rewrite length_app, Hside, Hcap, Hd. fold D.
    assert (Hcv : (List.length (cap_vertices envelope) <= 1)%nat).
    { rewrite Henv. unfold cap_vertices.
      destruct (Req_dec_T (px first) 0); cbn; lia. }
    split; [nia |].
    destruct (Req_dec_T (px first) 0); nia.
Qed.

Lemma shape_size_is_bounded_witness :
  exists s st',
    generateShape (new 800 600 2) [mk_point2D 0 0 1; mk_point2D 1 1 2] = Some (s, st')
    /\ (List.length (shape_points s) <= 16 * 16 + 1)%nat
    /\ (List.length (shape_faces s) <= 31 * 16)%nat.
Proof.
  destruct (generateShape_run (new 800 600 2) [mk_point2D 0 0 1; mk_point2D 1 1 2])
    as (envelope & st1 & s & st' & _ & Hs & _).
  exists s, st'. split; [exact Hs |].
  apply (shape_size_is_bounded (new 800 600 2) [mk_point2D 0 0 1; mk_point2D 1 1 2]
           s st'); [repeat constructor | exact Hs].
Defined.

End EnvelopeMore.

Module SmoothingMore.
Import Shape3DRenderer Smoothing ShapeProofs EnvelopeProofs RevolutionProofs.

Lemma smooth_loop_coords (turns : nat) :
  forall envelope i st acc smoothed st',
    smooth_loop turns envelope i st acc = Some (smoothed, st') ->
    map Some (coords smoothed)
    = map Some (coords acc)
      ++ map (smoothed_xy (envelopeSmoothing st) envelope) (seq i turns).
Proof.
  induction turns as [| turns IH]; intros envelope i st acc smoothed st' Hrun.
  - cbn in Hrun. inversion Hrun; subst. cbn. now rewrite app_nil_r.
  - cbn [smooth_loop] in Hrun. cbn [seq map]. unfold smoothed_xy at 1.
    destruct (nth_error envelope (Nat.max 0 (i - 1))) as [prev |]; [| discriminate].
    destruct (nth_error envelope i) as [curr |]; [| discriminate].
    destruct (nth_error envelope (Nat.min (List.length envelope - 1) (i + 1)))
      as [next |]; [| discriminate].
    cbn [new_point2D] in Hrun. apply IH in Hrun.
    cbn [envelopeSmoothing] in Hrun. rewrite Hrun.
    unfold push, coords. rewrite !map_app, <- app_assoc. reflexivity.
Qed.

(** What [smoothEnvelope] returns for three points or more: as many
    points, the one of index [i] at [smoothed_xy i]. *)
Lemma smoothEnvelope_coords (st : t) (envelope smoothed : list point2D) (st' : t) :
  (3 <= List.length envelope)%nat ->
  smoothEnvelope st envelope = Some (smoothed, st') ->
  forall i o,
    nth_error smoothed i = Some o ->
    smoothed_xy (envelopeSmoothing st) envelope i = Some (px o, py o).
Proof.
  intros H3 Hs i o Ho. unfold smoothEnvelope in Hs.
  destruct (Nat.ltb_spec (List.length envelope) 3) as [Hlt | _]; [lia |].
  pose proof (smooth_loop_coords _ _ _ _ _ _ _ Hs) as Hc. cbn [coords map app] in Hc.
  assert (Hn : nth_error (map Some (coords smoothed)) i = Some (Some (px o, py o))).
  { unfold coords. rewrite !nth_error_map, Ho. reflexivity. }
  rewrite Hc in Hn. rewrite nth_error_map in Hn.
  destruct (nth_error (seq 0 (List.length envelope)) i) as [k |] eqn:Hk;
    [| discriminate].
  assert (Hi : (i < List.length envelope)%nat).
  { assert (Hlt : (i < List.length (seq 0 (List.length envelope)))%nat)
      by (apply nth_error_Some; congruence).
    now rewrite length_seq in Hlt. }
  rewrite nth_error_seq_Some in Hk by exact Hi. inversion Hk; subst k.
  cbn in Hn. inversion Hn. reflexivity.
Qed.

(** With a weight between 0 and 1, [smoothEnvelope] keeps the number of
    points and never leaves the range of the input: bounds on the [x] and
    the [y] of the envelope are bounds on those of the smoothed one. *)
Theorem smoothEnvelope_stays_in_range (st : t) (envelope smoothed : list point2D)
  (st' : t) (xlo xhi ylo yhi : R) :
  0 <= envelopeSmoothing st <= 1 ->
  (forall p, In p envelope -> xlo <= px p <= xhi /\ ylo <= py p <= yhi) ->
  smoothEnvelope st envelope = Some (smoothed, st') ->
  List.length smoothed = List.length envelope
  /\ forall o, In o smoothed -> xlo <= px o <= xhi /\ ylo <= py o <= yhi.
Proof.
  intros Hw Hin Hs.
  split; [apply (EnvelopeMore.smoothEnvelope_length _ _ _ _ Hs) |].
  destruct (Nat.le_gt_cases 3 (List.length envelope)) as [H3 | H3].
  - intros o Ho. apply In_nth_error in Ho. destruct Ho as (i & Ho).
    pose proof (smoothEnvelope_coords st envelope smoothed st' H3 Hs i o Ho) as Hxy.
    unfold smoothed_xy in Hxy.
    destruct (nth_error envelope (Nat.max 0 (i - 1))) as [prev |] eqn:Hp; [| discriminate].
    destruct (nth_error envelope i) as [curr |] eqn:Hc; [| discriminate].
    destruct (nth_error envelope (Nat.min (List.length envelope - 1) (i + 1)))
      as [next |] eqn:Hn; [| discriminate].
    apply nth_error_In in Hp, Hc, Hn.
    destruct (Hin _ Hp) as (Hpx & Hpy). destruct (Hin _ Hc) as (Hcx & Hcy).
    destruct (Hin _ Hn) as (Hnx & Hny).
    injection Hxy as Hx Hy.
    set (w := envelopeSmoothing st) in *. split; split; nra.
  - unfold smoothEnvelope in Hs.
    destruct (Nat.ltb_spec (List.length envelope) 3) as [_ | Hge]; [| lia].
    inversion Hs; subst. exact Hin.
Qed.

Lemma smoothEnvelope_stays_in_range_witness :
  let envelope := [mk_point2D 0 0 1; mk_point2D 1 1 3; mk_point2D 2 2 2] in
  exists smoothed st',
    smoothEnvelope (new 800 600 3) envelope = Some (smoothed, st')
    /\ List.length smoothed = 3%nat
    /\ forall o, In o smoothed -> 0 <= px o <= 2 /\ 1 <= py o <= 3.
Proof.
  intros envelope.
  destruct (smooth_loop_total 3 envelope 0 (new 800 600 3) [])
    as (sm & st' & Hrun & _); [cbn; lia |].
  exists sm, st'.
  assert (Hs : smoothEnvelope (new 800 600 3) envelope = Some (sm, st')) by exact Hrun.
  split; [exact Hs |].
  apply (smoothEnvelope_stays_in_range (new 800 600 3) envelope sm st' 0 2 1 3).
  - cbn. lra.
  - intros p [<- | [<- | [<- | []]]]; cbn; lra.
  - exact Hs.
Defined.

(** *** The order of the envelope along the axis *)

Lemma x_sorted_push (acc : list point2D) (o : point2D) :
  x_sorted acc -> (forall a, In a acc -> px a <= px o) -> x_sorted (push acc o).
Proof.
  intros Hs Hle i j p q Hij Hp Hq. unfold push in *.
  destruct (Nat.lt_ge_cases j (List.length acc)) as [Hj | Hj].
  - rewrite nth_error_app1 in Hp, Hq by lia. apply (Hs i j p q Hij Hp Hq).
  - rewrite nth_error_app2 in Hq by lia.
    assert (Hqo : q = o).
    { destruct (j - List.length acc)%nat as [| [| k]]; cbn in Hq;
        [now inversion Hq | discriminate | discriminate]. }
    subst q.
    destruct (Nat.lt_ge_cases i (List.length acc)) as [Hi | Hi].
    + rewrite nth_error_app1 in Hp by lia. apply Hle. apply (nth_error_In _ _ Hp).
    + rewrite nth_error_app2 in Hp by lia.
      destruct (i - List.length acc)%nat as [| [| k]]; cbn in Hp;
        [inversion Hp; lra | discriminate | discriminate].
Qed.

Lemma sample_loop_sorted (fuel : nat) :
  forall pointCloud2D sampleStep i st acc lastPoint,
    x_sorted pointCloud2D ->
    last_element pointCloud2D = Some lastPoint ->
    x_sorted acc ->
    (forall a q j, In a acc -> (i <= j)%nat -> nth_error pointCloud2D j = Some q ->
                   px a <= px q) ->
    (forall a, In a acc -> px a <= px lastPoint) ->
    let r := fst (sample_loop fuel pointCloud2D sampleStep i st acc) in
    x_sorted r /\ forall a, In a r -> px a <= px lastPoint.
Proof.
  induction fuel as [| fuel IH];
    intros pointCloud2D sampleStep i st acc lastPoint Hpc Hlast Hacc Hnext Hle.
  - cbn. split; assumption.
  - cbn [sample_loop].
    destruct (nth_error pointCloud2D i) as [point |] eqn:Hp; [| cbn; split; assumption].
    cbn [new_point2D].
    assert (Hi : (i < List.length pointCloud2D)%nat)
      by (apply nth_error_Some; congruence).
    apply IH; try assumption.
    + apply x_sorted_push; [exact Hacc |].
      intros a Ha. cbn [px]. apply (Hnext a point i Ha (le_n _) Hp).
    + intros a q j Ha Hj Hq. unfold push in Ha. apply in_app_or in Ha.
      destruct Ha as [Ha | [<- | []]].
      * apply (Hnext a q j Ha); [lia | exact Hq].
      * cbn [px]. apply (Hpc i j point q); [lia | exact Hp | exact Hq].
    + intros a Ha. unfold push in Ha. apply in_app_or in Ha.
      destruct Ha as [Ha | [<- | []]]; [apply Hle; exact Ha |].
      cbn [px]. unfold last_element in Hlast.
      apply (Hpc i (List.length pointCloud2D - 1)%nat point lastPoint);
        [lia | exact Hp | exact Hlast].
Qed.

Lemma envelope_samples_sorted (st : t) (pointCloud2D : list point2D) :
  x_sorted pointCloud2D -> x_sorted (fst (envelope_samples st pointCloud2D)).
Proof.
  intros Hpc. unfold envelope_samples.
  destruct (last_element pointCloud2D) as [lastPoint |] eqn:Hlast.
  - destruct (sample_loop_sorted (List.length pointCloud2D) pointCloud2D
                (Nat.max 1 (List.length pointCloud2D / 8)) 0 st [] lastPoint
                Hpc Hlast) as (Hs & Hle).
    + intros i j p q _ Hp. destruct i; discriminate.
    + intros a q j [].
    + intros a [].
    + destruct (sample_loop _ _ _ _ _ _) as [envelope st1]. cbn [fst] in *.
      destruct (not_same_object _ _); [| exact Hs].
      cbn [new_point2D fst]. apply x_sorted_push; [exact Hs |].
      intros a Ha. cbn [px]. apply Hle. exact Ha.
  - assert (Hnil : pointCloud2D = []).
    { destruct pointCloud2D as [| p l]; [reflexivity |].
      unfold last_element in Hlast. apply nth_error_None in Hlast. cbn in Hlast. lia. }
    subst pointCloud2D. cbn. intros i j p q _ Hp. destruct i; discriminate.
Qed.

Lemma smoothEnvelope_sorted (st : t) (envelope smoothed : list point2D) (st' : t) :
  0 <= envelopeSmoothing st <= 1 ->
  x_sorted envelope ->
  smoothEnvelope st envelope = Some (smoothed, st') ->
  x_sorted smoothed.
Proof.
  intros Hw Hsorted Hs.
  destruct (Nat.le_gt_cases 3 (List.length envelope)) as [H3 | H3].
  - intros i j p q Hij Hp Hq.
    pose proof (smoothEnvelope_coords st envelope smoothed st' H3 Hs i p Hp) as Hi.
    pose proof (smoothEnvelope_coords st envelope smoothed st' H3 Hs j q Hq) as Hj.
    unfold smoothed_xy in Hi, Hj.
    destruct (nth_error envelope (Nat.max 0 (i - 1))) as [pi |] eqn:Hpi; [| discriminate].
    destruct (nth_error envelope i) as [ci |] eqn:Hci; [| discriminate].
    destruct (nth_error envelope (Nat.min (List.length envelope - 1) (i + 1)))
      as [ni |] eqn:Hni; [| discriminate].
    destruct (nth_error envelope (Nat.max 0 (j - 1))) as [pj |] eqn:Hpj; [| discriminate].
    destruct (nth_error envelope j) as [cj |] eqn:Hcj; [| discriminate].
    destruct (nth_error envelope (Nat.min (List.length envelope - 1) (j + 1)))
      as [nj |] eqn:Hnj; [| discriminate].
    injection Hi as Hix _. injection Hj as Hjx _.
    assert (H1 : px pi <= px pj)
      by (apply (Hsorted (Nat.max 0 (i - 1)) (Nat.max 0 (j - 1)) pi pj);
          [lia | exact Hpi | exact Hpj]).
    assert (H2 : px ci <= px cj) by (apply (Hsorted _ _ _ _ Hij Hci Hcj)).
    assert (H3' : px ni <= px nj)
      by (apply (Hsorted (Nat.min (List.length envelope - 1) (i + 1))
                   (Nat.min (List.length envelope - 1) (j + 1)) ni nj);
          [lia | exact Hni | exact Hnj]).
    set (w := envelopeSmoothing st) in *. nra.
  - unfold smoothEnvelope in Hs.
    destruct (Nat.ltb_spec (List.length envelope) 3) as [_ | Hge]; [| lia].
    inversion Hs; subst. exact Hsorted.
Qed.

(** With a smoothing weight of at most 1, [generateEnvelope] keeps the
    order along the axis: if [x] does not decrease along the profile, it
    does not decrease along the envelope, after the subsampling, the
    repeated last point and the smoothing. *)
Theorem generateEnvelope_keeps_x_order (st : t) (pointCloud2D envelope : list point2D)
  (st1 : t) :
  envelopeSmoothing st <= 1 ->
  x_sorted pointCloud2D ->
  generateEnvelope st pointCloud2D = Some (envelope, st1) ->
  x_sorted envelope.
Proof.
  intros Hw Hpc He. unfold generateEnvelope in He.
  destruct (Nat.ltb (List.length pointCloud2D) 2).
  { inversion He; subst. exact Hpc. }
  pose proof (envelope_samples_sorted st pointCloud2D Hpc) as Hs.
  assert (Hsm : envelopeSmoothing (snd (envelope_samples st pointCloud2D))
                = envelopeSmoothing st).
  { unfold envelope_samples.
    pose proof (sample_loop_fields (List.length pointCloud2D) pointCloud2D
                  (Nat.max 1 (List.length pointCloud2D / 8)) 0 st []) as Hf.
    destruct (sample_loop _ _ _ _ _ _) as [samples st0]. cbn in Hf.
    destruct Hf as (_ & _ & Hf).
    destruct (not_same_object _ _); [| exact Hf].
    destruct (last_element pointCloud2D); exact Hf. }
  destruct (envelope_samples st pointCloud2D) as [samples st0]. cbn [fst snd] in *.
  destruct (Rlt_dec 0 (envelopeSmoothing st0)) as [Hpos | _].
  - apply (smoothEnvelope_sorted st0 samples envelope st1); [lra | exact Hs | exact He].
  - inversion He; subst. exact Hs.
Qed.

Lemma generateEnvelope_keeps_x_order_witness :
  exists envelope st1,
    generateEnvelope (new 800 600 2) [mk_point2D 0 0 1; mk_point2D 1 1 2]
    = Some (envelope, st1)
    /\ x_sorted envelope.
Proof.
  destruct (generateEnvelope_total (new 800 600 2) [mk_point2D 0 0 1; mk_point2D 1 1 2])
    as (envelope & st1 & He & _).
  exists envelope, st1. split; [exact He |].
  apply (generateEnvelope_keeps_x_order (new 800 600 2)
           [mk_point2D 0 0 1; mk_point2D 1 1 2] envelope st1).
  - cbn. lra.
  - intros [| [| i]] [| [| j]] p q Hij Hp Hq; cbn in Hp, Hq;
      try discriminate; try (exfalso; lia);
      try (destruct i; discriminate); try (destruct j; discriminate);
      inversion Hp; inversion Hq; subst; cbn; lra.
  - exact He.
Defined.

End SmoothingMore.

Module InputMore.
Import Shape3DRenderer Shape3DInput.

Lemma zoom_by_in_range (r : Shape3DRenderer.t) (factor : R) :
  1 / 10 <= zoom (zoom_by r factor) <= 5.
Proof.
  unfold zoom_by. cbn [set_view zoom]. split.
  - apply Rmax_l.
  - apply Rmax_lub; [lra | apply Rmin_l].
Qed.

Lemma handle_zoom (s : Shape3DInput.t) (e : event) :
  1 / 10 <= zoom (renderer s) <= 5 ->
  1 / 10 <= zoom (renderer (handle s e)) <= 5.
Proof.
  intros Hz.
  destruct e as [cx cy | cx cy | | | deltaY | ts | ts | ts | | | | w h];
    cbn [handle]; try exact Hz.
  - destruct (isDragging s); exact Hz.
  - apply zoom_by_in_range.
  - destruct ts as [| t0 [| t1 [| t2 ts]]]; exact Hz.
  - destruct ts as [| t0 [| t1 [| t2 ts]]]; try exact Hz.
    + cbn [with_touches isDragging]. destruct (isDragging s); exact Hz.
    + apply zoom_by_in_range.
  - destruct ts as [| t0 [| t1 ts]]; exact Hz.
  - destruct (autoRotate (renderer s)); exact Hz.
Qed.

(** The zoom never leaves [[0.1, 5]]: every handler keeps it there, the
    constructor starts it there, and a wheel event or a two-finger move
    brings it there from anywhere. *)
Theorem zoom_stays_in_range :
  (forall (s : Shape3DInput.t) (events : list event),
      1 / 10 <= zoom (renderer s) <= 5 ->
      1 / 10 <= zoom (renderer (run s events)) <= 5)
  /\ (forall (width height : R) (fresh : nat) (events : list event),
         1 / 10
         <= zoom (renderer (run (Shape3DInput.new
                                   (Shape3DRenderer.new width height fresh))
                              events))
         <= 5)
  /\ (forall (s : Shape3DInput.t) (deltaY : R) (t0 t1 : touch),
         1 / 10 <= zoom (renderer (handle s (Wheel deltaY))) <= 5
         /\ 1 / 10 <= zoom (renderer (handle s (TouchMove [t0; t1]))) <= 5).
Proof.
  assert (Hrun : forall events s,
            1 / 10 <= zoom (renderer s) <= 5 ->
            1 / 10 <= zoom (renderer (run s events)) <= 5).
  { induction events as [| e events IH]; intros s Hz; [exact Hz |].
    cbn [run fold_left]. apply IH. apply handle_zoom. exact Hz. }
  split; [intros s events; apply Hrun |]. split.
  - intros width height fresh events. apply Hrun. cbn. lra.
  - intros s deltaY t0 t1. split; apply zoom_by_in_range.
Qed.

Lemma zoom_stays_in_range_witness :
  1 / 10
  <= zoom (renderer (run (Shape3DInput.new (Shape3DRenderer.new 800 600 0))
                       [Wheel 100000; Wheel (-100000)]))
  <= 5.
Proof.
  apply (proj1 zoom_stays_in_range). cbn. lra.
Defined.

Lemma handle_mesh (s : Shape3DInput.t) (e : event) :
  let r := renderer s in
  let r' := renderer (handle s e) in
  points3D r' = points3D r /\ faces r' = faces r /\ centroid r' = centroid r
  /\ rotationDivisions r' = rotationDivisions r
  /\ z (rotation r') = z (rotation r).
Proof.
  destruct e as [cx cy | cx cy | | | deltaY | ts | ts | ts | | | | w h];
    cbn [handle]; try (repeat split; reflexivity).
  - destruct (isDragging s); repeat split; reflexivity.
  - destruct ts as [| t0 [| t1 [| t2 ts]]]; repeat split; reflexivity.
  - destruct ts as [| t0 [| t1 [| t2 ts]]]; try (repeat split; reflexivity).
    cbn [with_touches isDragging]. destruct (isDragging s); repeat split; reflexivity.
  - destruct ts as [| t0 [| t1 ts]]; repeat split; reflexivity.
  - destruct (autoRotate (renderer s)); repeat split; reflexivity.
Qed.

(** No handler, frame, toggle or resize touches the shape: after any
    sequence of events the vertices, the faces, the centroid and the number
    of divisions are those of before, and [rotation.z] is never written. *)
Theorem events_leave_the_shape (s : Shape3DInput.t) (events : list event) :
  let r := renderer s in
  let r' := renderer (run s events) in
  points3D r' = points3D r /\ faces r' = faces r /\ centroid r' = centroid r
  /\ rotationDivisions r' = rotationDivisions r
  /\ z (rotation r') = z (rotation r).
Proof.
  revert s. induction events as [| e events IH]; intros s.
  - repeat split; reflexivity.
  - cbn [run fold_left]. fold (run (handle s e) events).
    destruct (IH (handle s e)) as (H1 & H2 & H3 & H4 & H5).
    destruct (handle_mesh s e) as (G1 & G2 & G3 & G4 & G5).
    cbn zeta in *. repeat split; congruence.
Qed.

Lemma drag_moves (moves : list (R * R)) :
  forall s : Shape3DInput.t,
    isDragging s = true ->
    let s' := run s (map (fun m => MouseMove (fst m) (snd m)) moves) in
    let last_at := last moves (lastMouseX s, lastMouseY s) in
    isDragging s' = true
    /\ lastMouseX s' = fst last_at /\ lastMouseY s' = snd last_at
    /\ y (rotation (renderer s'))
       = y (rotation (renderer s)) + (fst last_at - lastMouseX s) * (1 / 100)
    /\ x (rotation (renderer s'))
       = x (rotation (renderer s)) + (snd last_at - lastMouseY s) * (1 / 100).
Proof.
  induction moves as [| [cx cy] moves IH]; intros s Hd.
  - cbn. repeat split; try assumption; ring.
  - cbn [map run fold_left fst snd handle]. rewrite Hd.
    fold (run (drag_to s cx cy) (map (fun m => MouseMove (fst m) (snd m)) moves)).
    destruct (IH (drag_to s cx cy)) as (H1 & H2 & H3 & H4 & H5).
    { cbn. exact Hd. }
    cbn zeta in *.
    assert (Hlast : last ((cx, cy) :: moves) (lastMouseX s, lastMouseY s)
                    = last moves (cx, cy)).
    { destruct moves as [| m moves]; [reflexivity |].
      change (last ((cx, cy) :: m :: moves) (lastMouseX s, lastMouseY s))
        with (last (m :: moves) (lastMouseX s, lastMouseY s)).
      apply PointCalculatorMore.last_nonempty_default. }
    rewrite Hlast.
    cbn [drag_to with_drag with_renderer lastMouseX lastMouseY renderer rotate_by
         set_view rotation x y] in H2, H3, H4, H5.
    split; [exact H1 |]. split; [exact H2 |]. split; [exact H3 |].
    split; [rewrite H4; ring | rewrite H5; ring].
Qed.

(** A drag turns the shape by where the pointer ends, not by how it got
    there: after [mousedown] at [(x0, y0)] and any moves, the last one to
    [(x1, y1)], [rotation.y] has grown by [(x1 - x0) · 0.01] and
    [rotation.x] by [(y1 - y0) · 0.01].  Moves without a button down change
    nothing. *)
Theorem drag_depends_on_end_point (s : Shape3DInput.t) (x0 y0 : R)
  (moves : list (R * R)) :
  let moved := map (fun m => MouseMove (fst m) (snd m)) moves in
  let s' := run s (MouseDown x0 y0 :: moved) in
  let last_at := last moves (x0, y0) in
  y (rotation (renderer s'))
  = y (rotation (renderer s)) + (fst last_at - x0) * (1 / 100)
  /\ x (rotation (renderer s'))
     = x (rotation (renderer s)) + (snd last_at - y0) * (1 / 100)
  /\ (isDragging s = false -> run s moved = s).
Proof.
  intros moved s' last_at.
  destruct (drag_moves moves (handle s (MouseDown x0 y0)) eq_refl)
    as (_ & _ & _ & Hy & Hx).
  cbn zeta in Hy, Hx. cbn [handle with_drag lastMouseX lastMouseY renderer] in Hy, Hx.
  split; [exact Hy |]. split; [exact Hx |].
  intros Hd. unfold moved. clear Hy Hx s' last_at moved.
  induction moves as [| m moves IH]; [reflexivity |].
  cbn [map run fold_left handle]. rewrite Hd. exact IH.
Qed.

Lemma drag_depends_on_end_point_witness :
  let s := Shape3DInput.new (Shape3DRenderer.new 800 600 0) in
  run s [MouseMove 5 5; MouseMove 9 2] = s.
Proof.
  intros s.
  exact (proj2 (proj2 (drag_depends_on_end_point s 0 0 [(5, 5); (9, 2)])) eq_refl).
Defined.

End InputMore.

Module ViewportMore.
Import Point2DRenderer.

Lemma or_one_pos (v : R) : 0 <= v -> 0 < or_one v.
Proof. intros Hv. unfold or_one. destruct (Req_dec_T v 0); lra. Qed.

(** A scale computed as [calculateViewport] does fits the data in the
    canvas: it is not negative and the scaled extent is at most the room. *)
Lemma fitting_scale (room extent other : R) :
  0 <= room -> 0 <= extent -> 0 <= other ->
  let s := Rmin (room / or_one (extent * (12 / 10))) other in
  0 <= s /\ extent * s <= room.
Proof.
  intros Hroom Hext Hother s.
  pose proof (or_one_pos (extent * (12 / 10)) ltac:(lra)) as Hpos.
  assert (Hq : 0 <= room / or_one (extent * (12 / 10))).
  { apply Rmult_le_pos; [exact Hroom |]. apply Rlt_le, Rinv_0_lt_compat, Hpos. }
  assert (Hs0 : 0 <= s) by (unfold s; apply Rmin_glb; assumption).
  assert (Hsq : s <= room / or_one (extent * (12 / 10))) by (unfold s; apply Rmin_l).
  split; [exact Hs0 |].
  unfold or_one in *. destruct (Req_dec_T (extent * (12 / 10)) 0) as [Hz | Hnz].
  - assert (extent = 0) by lra. subst extent. lra.
  - assert (Hep : 0 < extent) by lra.
    assert (Hb : extent * (room / (extent * (12 / 10))) = room / (12 / 10))
      by (field; lra).
    assert (extent * s <= extent * (room / (extent * (12 / 10))))
      by (apply Rmult_le_compat_l; lra).
    lra.
Qed.

(** On a canvas at least as wide and as high as twice the padding,
    [calculateViewport] returns, and afterwards [toCanvasCoords] sends
    every point of the profile inside the canvas, at least the padding
    away from each edge. *)
Theorem viewport_contains_the_profile (st : t) (pts : list PointCalculator.point) :
  pts <> [] ->
  0 <= padding st ->
  2 * padding st <= canvas_width st ->
  2 * padding st <= canvas_height st ->
  exists st',
    calculateViewport (set_pointCloud st pts) = Some st'
    /\ pointCloud st' = pts
    /\ 0 <= scale st'
    /\ forall p, In p pts ->
         let c := toCanvasCoords st' (PointCalculator.x p) (PointCalculator.y p) in
         padding st <= fst c <= canvas_width st - padding st
         /\ padding st <= snd c <= canvas_height st - padding st.
Proof.
  intros Hne Hpad Hw Hh. destruct pts as [| p0 rest]; [contradiction |].
  unfold calculateViewport.
  cbn [set_pointCloud pointCloud List.length Nat.eqb canvas_width canvas_height
       padding map app Math_min Math_max].
  set (xs := map PointCalculator.x rest). set (ys := map PointCalculator.y rest).
  destruct (PointCalculatorMore.fold_Rmin_spec (xs ++ [0]) (PointCalculator.x p0))
    as (_ & Hxmin).
  destruct (PointCalculatorMore.fold_Rmax_spec xs (PointCalculator.x p0))
    as (Hxin & Hxmax).
  destruct (PointCalculatorMore.fold_Rmin_spec (ys ++ [0]) (PointCalculator.y p0))
    as (_ & Hymin).
  destruct (PointCalculatorMore.fold_Rmax_spec ys (PointCalculator.y p0))
    as (Hyin & Hymax).
  set (xMin := fold_left Rmin (xs ++ [0]) (PointCalculator.x p0)) in *.
  set (xMax := fold_left Rmax xs (PointCalculator.x p0)) in *.
  set (yMin := fold_left Rmin (ys ++ [0]) (PointCalculator.y p0)) in *.
  set (yMax := fold_left Rmax ys (PointCalculator.y p0)) in *.
  assert (Hxb : forall p, In p (p0 :: rest) ->
                  xMin <= PointCalculator.x p <= xMax).
  { intros p Hp. split.
    - apply Hxmin. destruct Hp as [<- | Hp]; [now left | right].
      apply in_or_app. left. unfold xs. now apply in_map.
    - apply Hxmax. destruct Hp as [<- | Hp]; [now left | right].
      unfold xs. now apply in_map. }
  assert (Hyb : forall p, In p (p0 :: rest) ->
                  yMin <= PointCalculator.y p <= yMax).
  { intros p Hp. split.
    - apply Hymin. destruct Hp as [<- | Hp]; [now left | right].
      apply in_or_app. left. unfold ys. now apply in_map.
    - apply Hymax. destruct Hp as [<- | Hp]; [now left | right].
      unfold ys. now apply in_map. }
  pose proof (Hxb p0 (or_introl eq_refl)) as Hx0.
  pose proof (Hyb p0 (or_introl eq_refl)) as Hy0.
  set (cw := canvas_width st - 2 * padding st).
  set (ch := canvas_height st - 2 * padding st).
  set (sX := cw / or_one ((xMax - xMin) * (12 / 10))).
  set (sY := ch / or_one ((yMax - yMin) * (12 / 10))).
  assert (HsX : 0 <= sX).
  { unfold sX. apply Rmult_le_pos; [unfold cw; lra |].
    apply Rlt_le, Rinv_0_lt_compat, or_one_pos. lra. }
  assert (HsY : 0 <= sY).
  { unfold sY. apply Rmult_le_pos; [unfold ch; lra |].
    apply Rlt_le, Rinv_0_lt_compat, or_one_pos. lra. }
  destruct (fitting_scale cw (xMax - xMin) sY) as (Hs0 & Hfx);
    [unfold cw; lra | lra | exact HsY |].
  destruct (fitting_scale ch (yMax - yMin) sX) as (_ & Hfy);
    [unfold ch; lra | lra | exact HsX |].
  fold sX in Hs0, Hfx. fold sY in Hfy. rewrite (Rmin_comm sY sX) in Hfy.
  set (s := Rmin sX sY) in *.
  eexists. split; [reflexivity |]. cbn [pointCloud scale].
  split; [reflexivity |]. split; [exact Hs0 |].
  intros p Hp. cbn zeta. unfold toCanvasCoords. cbn [offsetX offsetY scale fst snd].
  fold cw ch. destruct (Hxb p Hp) as (Hx1 & Hx2). destruct (Hyb p Hp) as (Hy1 & Hy2).
  assert (Hpx : 0 <= (PointCalculator.x p - xMin) * s <= (xMax - xMin) * s)
    by (split; nra).
  assert (Hpy : 0 <= (PointCalculator.y p - yMin) * s <= (yMax - yMin) * s)
    by (split; nra).
  unfold cw, ch in *. repeat split; nra.
Qed.

Lemma viewport_contains_the_profile_witness :
  let pts := [PointCalculator.mk_point 0 1 1; PointCalculator.mk_point 3 2 2] in
  exists st',
    calculateViewport (set_pointCloud (new 800 600) pts) = Some st'
    /\ forall p, In p pts ->
         let c := toCanvasCoords st' (PointCalculator.x p) (PointCalculator.y p) in
         50 <= fst c <= 800 - 50 /\ 50 <= snd c <= 600 - 50.
Proof.
  intros pts.
  destruct (viewport_contains_the_profile (new 800 600) pts)
    as (st' & Hv & _ & _ & Hin).
  - discriminate.
  - cbn. lra.
  - cbn. lra.
  - cbn. lra.
  - exists st'. split; [exact Hv | exact Hin].
Defined.

End ViewportMore.

Module TableMore.
Import TableManager.
Local Open Scope Z_scope.

Lemma notify_data (s : t) :
  baseNumber (notify s) = baseNumber s
  /\ currentValue (notify s) = currentValue s
  /\ tableData (notify s) = tableData s
  /\ isBaseSet (notify s) = isBaseSet s.
Proof. unfold notify. destruct (changeCallback s); repeat split; reflexivity. Qed.

Lemma well_formed_data (s s' : t) :
  baseNumber s' = baseNumber s -> currentValue s' = currentValue s ->
  tableData s' = tableData s -> isBaseSet s' = isBaseSet s ->
  well_formed s -> well_formed s'.
Proof.
  unfold well_formed. intros -> -> -> ->. exact (fun H => H).
Qed.

Lemma well_formed_notify (s : t) : well_formed s -> well_formed (notify s).
Proof.
  destruct (notify_data s) as (H1 & H2 & H3 & H4).
  apply well_formed_data; assumption.
Qed.

Lemma last_value_push (l : list Z) (v : Z) : last_value (push l v) = Some v.
Proof.
  unfold last_value, push. rewrite length_app. cbn [List.length].
  rewrite nth_error_app2 by lia.
  replace (List.length l + 1 - 1 - List.length l)%nat with 0%nat by lia.
  reflexivity.
Qed.

Lemma last_value_None (l : list Z) : last_value l = None <-> l = [].
Proof.
  unfold last_value. split.
  - intros H. apply nth_error_None in H. destruct l; [reflexivity | cbn in H; lia].
  - intros ->. reflexivity.
Qed.

Lemma removelast_prefix (l : list Z) (i : nat) (u : Z) :
  nth_error (removelast l) i = Some u -> nth_error l i = Some u.
Proof.
  destruct l as [| a l]; [destruct i; discriminate |].
  intros H. rewrite (app_removelast_last 0 (l := a :: l)) by discriminate.
  rewrite nth_error_app1; [exact H |]. apply nth_error_Some. congruence.
Qed.

(** One more value after a table that ends in [u]. *)
Lemma well_formed_push (s : t) (v : Z) :
  well_formed s -> isBaseSet s = true ->
  v - currentValue s = - baseNumber s \/ v - currentValue s = 0
  \/ v - currentValue s = baseNumber s ->
  well_formed (set_tableData (set_currentValue s v) (push (tableData s) v)).
Proof.
  intros (Hb & _ & Hset & Hsteps) Hs Hv. destruct (Hset Hs) as (H0 & Hlast).
  unfold well_formed.
  cbn [set_tableData set_currentValue baseNumber currentValue tableData isBaseSet].
  split; [exact Hb |]. split; [congruence |]. split.
  - intros _. split; [| apply last_value_push].
    unfold push. rewrite nth_error_app1; [exact H0 |].
    apply nth_error_Some. congruence.
  - intros i u w Hu Hw. unfold push in Hu, Hw.
    assert (Hi : (S i < List.length (tableData s) + 1)%nat).
    { assert (H := proj1 (nth_error_Some (tableData s ++ [v]) (S i))).
      rewrite length_app in H. cbn [List.length] in H. apply H. congruence. }
    rewrite nth_error_app1 in Hu by lia.
    destruct (Nat.eq_dec (S i) (List.length (tableData s))) as [He | Hne].
    + rewrite nth_error_app2 in Hw by lia.
      replace (S i - List.length (tableData s))%nat with 0%nat in Hw by lia.
      cbn in Hw. inversion Hw; subst w.
      unfold last_value in Hlast.
      replace (List.length (tableData s) - 1)%nat with i in Hlast by lia.
      rewrite Hu in Hlast. inversion Hlast; subst u. exact Hv.
    + rewrite nth_error_app1 in Hw by lia. apply (Hsteps i u w Hu Hw).
Qed.

Lemma click_well_formed (s : t) (b : button) :
  well_formed s -> well_formed (click s b).
Proof.
  intros Hwf. pose proof Hwf as (Hb & Hunset & Hset & Hsteps).
  destruct b as [| | | | | confirmed]; cbn [click].
  - unfold handleUpDown. destruct (isBaseSet s) eqn:Hs; cbn [negb].
    + destruct (Hset eq_refl) as (_ & Hlast). rewrite Hlast.
      unfold addToTable. apply well_formed_notify.
      cbn [set_currentValue currentValue tableData].
      apply (well_formed_push s (currentValue s + 1 * baseNumber s) Hwf Hs). lia.
    + destruct (Hunset eq_refl) as (Hnil & Hc). unfold well_formed.
      cbn [set_currentValue baseNumber currentValue tableData isBaseSet].
      rewrite Hs, Hnil. split; [exact Hb |]. split; [intros _; split; [reflexivity | lia] |].
      split; [discriminate |]. intros i u v Hu. destruct i; discriminate.
  - unfold handleUpDown. destruct (isBaseSet s) eqn:Hs; cbn [negb].
    + destruct (Hset eq_refl) as (_ & Hlast). rewrite Hlast.
      unfold addToTable. apply well_formed_notify.
      cbn [set_currentValue currentValue tableData].
      apply (well_formed_push s (currentValue s + -1 * baseNumber s) Hwf Hs). lia.
    + destruct (Hunset eq_refl) as (Hnil & Hc). unfold well_formed.
      cbn [set_currentValue baseNumber currentValue tableData isBaseSet].
      rewrite Hs, Hnil. split; [exact Hb |]. split; [intros _; split; [reflexivity | lia] |].
      split; [discriminate |]. intros i u v Hu. destruct i; discriminate.
  - unfold handleStay. destruct (isBaseSet s) eqn:Hs; [| exact Hwf].
    destruct (Hset eq_refl) as (_ & Hlast). rewrite Hlast.
    unfold addToTable. apply well_formed_notify.
    cbn [set_currentValue currentValue tableData].
    apply (well_formed_push s (currentValue s) Hwf Hs). lia.
  - unfold handleCheck. destruct (isBaseSet s) eqn:Hs; cbn [negb].
    + unfold addToTable. apply well_formed_notify.
      apply (well_formed_data
               (set_tableData (set_currentValue s (currentValue s))
                  (push (tableData s) (currentValue s))));
        try reflexivity.
      apply (well_formed_push s (currentValue s) Hwf Hs). lia.
    + destruct (Hunset eq_refl) as (Hnil & Hc).
      unfold addToTable. apply well_formed_notify. unfold well_formed.
      cbn [set_tableData baseNumber currentValue tableData isBaseSet].
      rewrite Hnil. cbn [push app].
      split; [exact Hc |]. split; [discriminate |].
      split; [intros _; split; reflexivity |].
      intros i u v Hu Hv. destruct i; discriminate.
  - unfold handleResume. destruct (tableData s) as [| a l] eqn:Ht; [exact Hwf |].
    apply well_formed_notify.
    assert (Hs : isBaseSet s = true).
    { destruct (isBaseSet s); [reflexivity |].
      destruct (Hunset eq_refl) as (Hnil & _). discriminate. }
    destruct (Hset Hs) as (H0 & _).
    cbn [set_tableData tableData].
    destruct (last_value (removelast (a :: l))) as [v |] eqn:Hl.
    + unfold well_formed.
      cbn [set_currentValue set_tableData baseNumber currentValue tableData isBaseSet].
      split; [exact Hb |]. split; [congruence |]. split.
      * intros _. split; [| exact Hl].
        destruct l as [| a' l']; [discriminate |]. exact H0.
      * intros i u w Hu Hw. apply removelast_prefix in Hu, Hw.
        apply (Hsteps i u w Hu Hw).
    + apply last_value_None in Hl. unfold well_formed.
      cbn [baseNumber currentValue tableData isBaseSet set_tableData]. rewrite Hl.
      split; [exact Hb |]. split; [intros _; split; [reflexivity | lia] |].
      split; [discriminate |]. intros i u w Hu. destruct i; discriminate.
  - unfold handleReset. destruct confirmed; [| exact Hwf].
    apply well_formed_notify. unfold well_formed.
    cbn [baseNumber currentValue tableData isBaseSet].
    split; [lia |]. split; [intros _; split; [reflexivity | lia] |].
    split; [discriminate |]. intros i u w Hu. destruct i; discriminate.
Qed.

Lemma new_well_formed (s : t) :
  baseNumber s = 1 -> currentValue s = 1 -> tableData s = [] ->
  isBaseSet s = false -> well_formed s.
Proof.
  intros H1 H2 H3 H4. unfold well_formed. rewrite H1, H2, H3, H4.
  split; [lia |]. split; [intros _; split; [reflexivity | lia] |].
  split; [discriminate |]. intros i u w Hu. destruct i; discriminate.
Qed.

Lemma run_well_formed (clicks : list button) :
  forall s, well_formed s -> well_formed (run s clicks).
Proof.
  induction clicks as [| b clicks IH]; intros s Hwf; [exact Hwf |].
  cbn [run fold_left]. apply IH. apply click_well_formed. exact Hwf.
Qed.

(** Whatever buttons are clicked, starting from a new table: the base is a
    positive whole number; the base is set exactly when the table has
    values; the first value is then the base and the displayed value the
    last one; and each value differs from the one before it by the base,
    up or down, or not at all. *)
Theorem buttons_keep_the_table_well_formed (clicks : list button) :
  let s := run (onDataChange new) clicks in
  1 <= baseNumber s
  /\ (isBaseSet s = true <-> tableData s <> [])
  /\ (isBaseSet s = false -> 1 <= currentValue s)
  /\ (tableData s <> [] ->
      nth_error (tableData s) 0 = Some (baseNumber s)
      /\ last_value (tableData s) = Some (currentValue s))
  /\ (forall i u v,
         nth_error (tableData s) i = Some u ->
         nth_error (tableData s) (S i) = Some v ->
         v - u = - baseNumber s \/ v - u = 0 \/ v - u = baseNumber s).
Proof.
  intros s.
  assert (Hwf : well_formed s).
  { apply run_well_formed. apply new_well_formed; reflexivity. }
  destruct Hwf as (Hb & Hunset & Hset & Hsteps).
  split; [exact Hb |].
  assert (Hiff : isBaseSet s = true <-> tableData s <> []).
  { split.
    - intros Hs Hnil. destruct (Hset Hs) as (H0 & _). rewrite Hnil in H0. discriminate.
    - intros Hne. destruct (isBaseSet s); [reflexivity |].
      destruct (Hunset eq_refl) as (Hnil & _). contradiction. }
  split; [exact Hiff |]. split; [intros Hs; apply (Hunset Hs) |].
  split; [intros Hne; apply Hset, Hiff, Hne | exact Hsteps].
Qed.

Lemma buttons_keep_the_table_well_formed_witness :
  let s := run (onDataChange new) [Up; Up; Check; Up; Stay; Down; Resume] in
  isBaseSet s = true /\ nth_error (tableData s) 0 = Some (baseNumber s).
Proof.
  intros s.
  destruct (buttons_keep_the_table_well_formed [Up; Up; Check; Up; Stay; Down; Resume])
    as (_ & Hiff & _ & Hfirst & _).
  fold s in Hiff, Hfirst.
  assert (Hne : tableData s <> []) by (vm_compute; discriminate).
  split; [apply Hiff, Hne | apply Hfirst, Hne].
Defined.

Lemma handleResume_push (s : t) (l : list Z) (v c : Z) :
  tableData s = push l v -> last_value l = Some c ->
  let s' := handleResume s in
  baseNumber s' = baseNumber s /\ currentValue s' = c
  /\ tableData s' = l /\ isBaseSet s' = isBaseSet s.
Proof.
  intros Ht Hl. unfold handleResume. rewrite Ht.
  destruct (push l v) as [| a l'] eqn:Hp.
  { unfold push in Hp. destruct l; discriminate. }
  rewrite <- Hp. cbn [set_tableData tableData]. unfold push.
  rewrite removelast_last, Hl.
  destruct (notify_data (set_currentValue (set_tableData s l) c))
    as (H1 & H2 & H3 & H4).
  cbn zeta. rewrite H1, H2, H3, H4. repeat split.
Qed.

(** [Resume] undoes the last append: after [Up], [Down], [Stay] or [Check]
    on a table with values, a click on [Resume] gives back the table, the
    displayed value, the base and the flag of before. *)
Theorem resume_undoes_an_append (clicks : list button) (b : button) :
  let s := run (onDataChange new) clicks in
  isBaseSet s = true ->
  b = Up \/ b = Down \/ b = Stay \/ b = Check ->
  let s' := click (click s b) Resume in
  tableData (click s b) <> tableData s
  /\ baseNumber s' = baseNumber s /\ currentValue s' = currentValue s
  /\ tableData s' = tableData s /\ isBaseSet s' = isBaseSet s.
Proof.
  intros s Hs Hb s'.
  assert (Hwf : well_formed s).
  { apply run_well_formed. apply new_well_formed; reflexivity. }
  destruct Hwf as (_ & _ & Hset & _). destruct (Hset Hs) as (_ & Hlast).
  assert (Hadd : exists v, tableData (click s b) = push (tableData s) v
                           /\ baseNumber (click s b) = baseNumber s
                           /\ isBaseSet (click s b) = isBaseSet s).
  { destruct Hb as [-> | [-> | [-> | ->]]]; cbn [click];
      unfold handleUpDown, handleStay, handleCheck, addToTable;
      rewrite Hs; cbn [negb]; rewrite ?Hlast;
      match goal with
      | |- context [notify ?x] =>
          destruct (notify_data x) as (H1 & _ & H3 & H4); rewrite H1, H3, H4
      end;
      eexists; cbn [set_tableData set_currentValue tableData baseNumber isBaseSet
                    currentValue];
      repeat split; try reflexivity; try (symmetry; assumption); try assumption. }
  destruct Hadd as (v & Ht & Hbn & Hbs).
  split.
  - rewrite Ht. unfold push. intros Heq.
    apply (f_equal (@List.length Z)) in Heq. rewrite length_app in Heq.
    cbn in Heq. lia.
  - destruct (handleResume_push (click s b) (tableData s) v (currentValue s) Ht Hlast)
      as (H1 & H2 & H3 & H4).
    unfold s'. cbn [click]. rewrite H1, H2, H3, H4, Hbn, Hbs. repeat split.
Qed.

Lemma resume_undoes_an_append_witness :
  let s := run (onDataChange new) [Up; Check] in
  tableData (click (click s Down) Resume) = tableData s.
Proof.
  intros s.
  exact (proj1 (proj2 (proj2 (proj2
           (resume_undoes_an_append [Up; Check] Down eq_refl
              (or_intror (or_introl eq_refl))))))).
Defined.

Lemma handleCheck_first (s : t) :
  isBaseSet s = false -> tableData s = [] ->
  let s1 := handleCheck s in
  baseNumber s1 = currentValue s /\ currentValue s1 = currentValue s
  /\ tableData s1 = [currentValue s] /\ isBaseSet s1 = true.
Proof.
  intros Hs Hnil. unfold handleCheck, addToTable. rewrite Hs. cbn [negb].
  match goal with
  | |- context [notify ?x] => destruct (notify_data x) as (H1 & H2 & H3 & H4)
  end.
  cbn zeta. rewrite H1, H2, H3, H4.
  cbn [set_tableData baseNumber currentValue tableData isBaseSet].
  rewrite Hnil. repeat split.
Qed.

Lemma handleUpDown_set (s : t) (delta c : Z) :
  isBaseSet s = true -> last_value (tableData s) = Some c ->
  let s1 := handleUpDown s delta in
  baseNumber s1 = baseNumber s
  /\ currentValue s1 = c + delta * baseNumber s
  /\ tableData s1 = push (tableData s) (c + delta * baseNumber s)
  /\ isBaseSet s1 = true.
Proof.
  intros Hs Hl. unfold handleUpDown, addToTable. rewrite Hs, Hl. cbn [negb].
  match goal with
  | |- context [notify ?x] => destruct (notify_data x) as (H1 & H2 & H3 & H4)
  end.
  cbn zeta. rewrite H1, H2, H3, H4.
  cbn [set_tableData set_currentValue baseNumber currentValue tableData isBaseSet].
  repeat split. exact Hs.
Qed.

(** [Down] directly after the first [Check] appends 0 to the table, a value
    that [validate] rejects: whatever base [b] was chosen, the table is then
    [b, 0]. *)
Theorem down_after_first_check_appends_zero (clicks : list button) :
  let s := run (onDataChange new) clicks in
  isBaseSet s = false ->
  let s' := run s [Check; Down] in
  getData s' = [currentValue s; 0]
  /\ baseNumber s' = currentValue s
  /\ validate s' = false.
Proof.
  intros s Hs s'.
  assert (Hwf : well_formed s).
  { apply run_well_formed. apply new_well_formed; reflexivity. }
  destruct Hwf as (_ & Hunset & _ & _). destruct (Hunset Hs) as (Hnil & Hc).
  assert (Hdata : tableData s' = [currentValue s; 0]
                  /\ baseNumber s' = currentValue s).
  { unfold s'. cbn [run fold_left click].
    destruct (handleCheck_first s Hs Hnil) as (H1 & H2 & H3 & H4).
    destruct (handleUpDown_set (handleCheck s) (-1) (currentValue s) H4)
      as (G1 & _ & G3 & _).
    { rewrite H3. reflexivity. }
    rewrite G3, G1, H3, H1. cbn [push app]. split; [| reflexivity].
    do 2 f_equal. lia. }
  destruct Hdata as (Ht & Hb). unfold getData.
  split; [exact Ht |]. split; [exact Hb |].
  unfold validate. rewrite Ht. cbn [List.length forallb].
  replace (1 <=? 0) with false by reflexivity.
  now rewrite !andb_false_r.
Qed.

Lemma down_after_first_check_appends_zero_witness :
  getData (run (run (onDataChange new) [Up; Up]) [Check; Down]) = [3; 0].
Proof.
  exact (proj1 (down_after_first_check_appends_zero [Up; Up] eq_refl)).
Defined.

End TableMore.

Module PipelineMore.
Import PointCalculator PointCalculatorStats.
Local Open Scope R_scope.

(** A table made with the buttons never makes the placement fall back:
    its values step by the base or not at all, which the spacing of 1.3
    bases always reaches.  [calculate] on it writes no warning, and every
    two neighbours of the profile are exactly one spacing apart. *)
Theorem button_tables_never_fall_back (clicks : list TableManager.button)
  (st : t) (pts : list point) (st' : t) :
  let table := TableManager.run (TableManager.onDataChange TableManager.new) clicks in
  calculate st (map IZR (TableManager.getData table)) = Some (pts, st') ->
  console st' = console st
  /\ List.length pts = List.length (TableManager.getData table)
  /\ forall i p q,
       nth_error pts i = Some p -> nth_error pts (S i) = Some q ->
       sqrt ((x q - x p) * (x q - x p) + (y q - y p) * (y q - y p))
       = getBaseRadius st' * (13 / 10).
Proof.
  intros table Hc.
  assert (Hwf : TableManager.well_formed table).
  { apply TableMore.run_well_formed. apply TableMore.new_well_formed; reflexivity. }
  destruct Hwf as (Hb & Hunset & Hset & Hsteps).
  unfold TableManager.getData in *.
  assert (Hlen : List.length pts = List.length (TableManager.tableData table)).
  { destruct (TableManager.tableData table) as [| c rest].
    - cbn in Hc. inversion Hc; subst. reflexivity.
    - cbn [map] in Hc. rewrite PlacementProofs.calculate_run in Hc.
      inversion Hc; subst. cbn [List.length].
      now rewrite PlacementProofs.place_length,
        PlacementProofs.to_radiusArray_length, length_map. }
  split; [| split; [exact Hlen |]];
    destruct (TableManager.isBaseSet table) eqn:Hs.
  - destruct (Hset eq_refl) as (H0 & _).
    refine (proj1 (PointCalculatorMore.calculate_small_steps st _ pts st'
                     (IZR (TableManager.baseNumber table)) _ _ Hc)).
    + rewrite nth_error_map, H0. reflexivity.
    + intros i u v Hu Hv. rewrite nth_error_map in Hu, Hv.
      destruct (nth_error (TableManager.tableData table) i) as [zu |] eqn:Hzu;
        [| discriminate].
      destruct (nth_error (TableManager.tableData table) (S i)) as [zv |] eqn:Hzv;
        [| discriminate].
      cbn in Hu, Hv. inversion Hu; inversion Hv; subst u v.
      assert (H1 : 1 <= IZR (TableManager.baseNumber table)) by (apply IZR_le; exact Hb).
      rewrite <- minus_IZR.
      destruct (Hsteps i zu zv Hzu Hzv) as [Hd | [Hd | Hd]]; rewrite Hd.
      * rewrite opp_IZR, Rabs_Ropp, Rabs_pos_eq; lra.
      * rewrite Rabs_R0. lra.
      * rewrite Rabs_pos_eq; lra.
  - destruct (Hunset eq_refl) as (Hnil & _). rewrite Hnil in Hc. cbn in Hc.
    inversion Hc; subst. reflexivity.
  - destruct (Hset eq_refl) as (H0 & _).
    refine (proj2 (PointCalculatorMore.calculate_small_steps st _ pts st'
                     (IZR (TableManager.baseNumber table)) _ _ Hc)).
    + rewrite nth_error_map, H0. reflexivity.
    + intros i u v Hu Hv. rewrite nth_error_map in Hu, Hv.
      destruct (nth_error (TableManager.tableData table) i) as [zu |] eqn:Hzu;
        [| discriminate].
      destruct (nth_error (TableManager.tableData table) (S i)) as [zv |] eqn:Hzv;
        [| discriminate].
      cbn in Hu, Hv. inversion Hu; inversion Hv; subst u v.
      assert (H1 : 1 <= IZR (TableManager.baseNumber table)) by (apply IZR_le; exact Hb).
      rewrite <- minus_IZR.
      destruct (Hsteps i zu zv Hzu Hzv) as [Hd | [Hd | Hd]]; rewrite Hd.
      * rewrite opp_IZR, Rabs_Ropp, Rabs_pos_eq; lra.
      * rewrite Rabs_R0. lra.
      * rewrite Rabs_pos_eq; lra.
  - destruct (Hunset eq_refl) as (Hnil & _). rewrite Hnil in Hc. cbn in Hc.
    inversion Hc; subst. intros i p q Hp. destruct i; discriminate.
Qed.

Lemma button_tables_never_fall_back_witness :
  let clicks := [TableManager.Up; TableManager.Check; TableManager.Up;
                 TableManager.Down; TableManager.Down] in
  let table := TableManager.run (TableManager.onDataChange TableManager.new) clicks in
  exists pts st',
    calculate new (map IZR (TableManager.getData table)) = Some (pts, st')
    /\ console st' = []
    /\ List.length pts = 4%nat.
Proof.
  intros clicks table.
  assert (Ht : map IZR (TableManager.getData table) = [2; 4; 2; 0])
    by reflexivity.
  eexists. eexists. split; [rewrite Ht; apply PlacementProofs.calculate_run |].
  destruct (button_tables_never_fall_back clicks new _ _
              (eq_ind_r (fun l => calculate new l = _)
                 (PlacementProofs.calculate_run new 2 [4; 2; 0]) Ht))
    as (Hcon & Hlen & _).
  split; [exact Hcon | exact Hlen].
Defined.

End PipelineMore.

Module InterpolationMore.
Import Shape3DRenderer Interpolation.

(** The Catmull-Rom segment starts at [p1] and ends at [p2], and it is the
    straight line between them when the four control values are equally
    spaced. *)
Theorem catmullRom_passes_through_the_points (p0 p1 p2 p3 : R) :
  catmullRomInterpolate p0 p1 p2 p3 0 = p1
  /\ catmullRomInterpolate p0 p1 p2 p3 1 = p2
  /\ (forall d t, p1 = p0 + d -> p2 = p1 + d -> p3 = p2 + d ->
                  catmullRomInterpolate p0 p1 p2 p3 t = p1 + t * d).
Proof.
  unfold catmullRomInterpolate. split; [field |]. split; [field |].
  intros d t -> -> ->. field.
Qed.

Lemma catmullRom_passes_through_the_points_witness :
  catmullRomInterpolate 0 1 2 3 (1 / 2) = 1 + 1 / 2 * 1.
Proof.
  apply (proj2 (proj2 (catmullRom_passes_through_the_points 0 1 2 3)) 1 (1 / 2));
    ring.
Defined.

Lemma spline_loop_app (turns : nat) :
  forall steps p0 p1 p2 p3 j st acc,
    exists tail,
      fst (spline_loop turns steps p0 p1 p2 p3 j st acc) = acc ++ tail
      /\ List.length tail = turns.
Proof.
  induction turns as [| turns IH]; intros steps p0 p1 p2 p3 j st acc.
  - exists []. cbn. split; [now rewrite app_nil_r | reflexivity].
  - cbn [spline_loop new_point2D].
    match goal with
    | |- context [spline_loop turns steps p0 p1 p2 p3 (S j) ?s (push acc ?o)] =>
        destruct (IH steps p0 p1 p2 p3 (S j) s (push acc o)) as (tail & Ht & Hl);
          exists (o :: tail)
    end.
    rewrite Ht. unfold push. rewrite <- app_assoc. split; [reflexivity | cbn; lia].
Qed.

Lemma point_loop_run (steps : nat) (pointCloud2D : list point2D) (turns : nat) :
  forall i st acc,
    (i + turns = List.length pointCloud2D)%nat ->
    exists tail st',
      point_loop turns steps pointCloud2D i st acc = Some (acc ++ tail, st')
      /\ List.length tail = (turns + (turns - 1) * steps)%nat
      /\ forall k current,
           (k < turns)%nat ->
           nth_error pointCloud2D (i + k) = Some current ->
           exists o, nth_error tail (k * (steps + 1)) = Some o
                     /\ px o = px current /\ py o = py current.
Proof.
  induction turns as [| turns IH]; intros i st acc Hn.
  - exists [], st. cbn. rewrite app_nil_r. repeat split. intros k c Hk. lia.
  - cbn [point_loop].
    destruct (nth_error pointCloud2D i) as [current |] eqn:Hc;
      [| apply nth_error_None in Hc; lia].
    cbn [new_point2D].
    set (copy := {| oid := next_oid st; px := px current; py := py current |}).
    destruct (Nat.ltb_spec i (List.length pointCloud2D - 1)) as [Hlt | Hge].
    + destruct (nth_error pointCloud2D (i + 1)) as [next |] eqn:Hnext;
        [| apply nth_error_None in Hnext; lia].
      assert (Hp0 : exists p0, (if Nat.ltb 0 i then nth_error pointCloud2D (i - 1)
                                else Some current) = Some p0).
      { destruct (Nat.ltb 0 i); [| eexists; reflexivity].
        destruct (nth_error pointCloud2D (i - 1)) eqn:E; [eexists; reflexivity |].
        apply nth_error_None in E. lia. }
      destruct Hp0 as (p0 & Hp0). rewrite Hp0.
      assert (Hp3 : exists p3, (if Nat.ltb i (List.length pointCloud2D - 2)
                                then nth_error pointCloud2D (i + 2)
                                else Some next) = Some p3).
      { destruct (Nat.ltb_spec i (List.length pointCloud2D - 2));
          [| eexists; reflexivity].
        destruct (nth_error pointCloud2D (i + 2)) eqn:E; [eexists; reflexivity |].
        apply nth_error_None in E. lia. }
      destruct Hp3 as (p3 & Hp3). rewrite Hp3.
      match goal with
      | |- context [spline_loop steps steps p0 current next p3 1 ?s ?a] =>
          destruct (spline_loop_app steps steps p0 current next p3 1 s a)
            as (mid & Hmid & Hml);
          destruct (spline_loop steps steps p0 current next p3 1 s a)
            as [interpolated2 st2]
      end.
      cbn [fst] in Hmid. subst interpolated2.
      destruct (IH (S i) st2 (push acc copy ++ mid)) as (tail & st' & Hrun & Hl & Hnth);
        [lia |].
      exists (copy :: mid ++ tail), st'. rewrite Hrun. unfold push.
      split; [now rewrite <- !app_assoc |].
      split; [cbn [List.length]; rewrite length_app, Hl, Hml;
              destruct turns; [lia | cbn; nia] |].
      intros k c Hk Hkc. destruct k as [| k].
      * rewrite Nat.add_0_r in Hkc. rewrite Hc in Hkc. inversion Hkc; subst c.
        exists copy. repeat split.
      * destruct (Hnth k c) as (o & Ho & Hx & Hy); [lia | |].
        { rewrite <- Hkc. f_equal. lia. }
        exists o. split; [| split; assumption].
        replace (S k * (steps + 1))%nat with (S (steps + k * (steps + 1))) by lia.
        cbn [nth_error]. rewrite nth_error_app2 by lia.
        rewrite Hml. replace (steps + k * (steps + 1) - steps)%nat
          with (k * (steps + 1))%nat by lia.
        exact Ho.
    + assert (Ht0 : turns = 0%nat) by lia. subst turns. cbn [point_loop].
      exists [copy]. eexists. unfold push.
      split; [reflexivity |]. split; [reflexivity |].
      intros k c Hk Hkc. assert (k = 0)%nat by lia. subst k.
      rewrite Nat.add_0_r in Hkc. rewrite Hc in Hkc. inversion Hkc; subst c.
      exists copy. repeat split.
Qed.

(** [interpolatePoints] never raises.  On [n >= 2] points, with
    [interpolationSteps] steps, it returns [n + (n - 1) · interpolationSteps]
    points, and the point of index [i] of the input is found again, with
    the same coordinates, at index [i · (interpolationSteps + 1)]: the
    spline adds points between the given ones and moves none. *)
Theorem interpolatePoints_keeps_the_points (steps : nat) (st : t)
  (pointCloud2D : list point2D) :
  (2 <= List.length pointCloud2D)%nat ->
  exists interpolated st',
    interpolatePoints steps st pointCloud2D = Some (interpolated, st')
    /\ List.length interpolated
       = (List.length pointCloud2D + (List.length pointCloud2D - 1) * steps)%nat
    /\ forall i p,
         nth_error pointCloud2D i = Some p ->
         exists o, nth_error interpolated (i * (steps + 1)) = Some o
                   /\ px o = px p /\ py o = py p.
Proof.
  intros Hn. unfold interpolatePoints.
  destruct (Nat.ltb_spec (List.length pointCloud2D) 2) as [Hlt | _]; [lia |].
  destruct (point_loop_run steps pointCloud2D (List.length pointCloud2D) 0 st [])
    as (tail & st' & Hrun & Hl & Hnth); [reflexivity |].
  exists tail, st'. cbn [app] in Hrun. split; [exact Hrun |]. split; [exact Hl |].
  intros i p Hp. apply (Hnth i p); [| exact Hp].
  apply nth_error_Some. congruence.
Qed.

Lemma interpolatePoints_keeps_the_points_witness :
  exists interpolated st',
    interpolatePoints 2 (new 800 600 2) [mk_point2D 0 0 1; mk_point2D 1 1 2]
    = Some (interpolated, st')
    /\ List.length interpolated = 4%nat.
Proof.
  destruct (interpolatePoints_keeps_the_points 2 (new 800 600 2)
              [mk_point2D 0 0 1; mk_point2D 1 1 2])
    as (r & st' & Hrun & Hl & _); [cbn; lia |].
  exists r, st'. split; [exact Hrun | exact Hl].
Defined.

End InterpolationMore.

Module TableDataMore.
Import TableManager TableManagerData.
Local Open Scope Z_scope.

(** Loading the values of a table made with the buttons gives the table
    back: [setData], on what [getData] returned, sets the same values, the
    same base, the same displayed value and the same flag, in whatever
    state the receiving table was; on an empty array it changes nothing. *)
Theorem setData_restores_a_table (clicks : list button) (other : t) :
  let s := run (onDataChange new) clicks in
  setData other [] = other
  /\ (getData s <> [] ->
      let s' := setData other (getData s) in
      getData s' = getData s /\ baseNumber s' = baseNumber s
      /\ currentValue s' = currentValue s /\ isBaseSet s' = isBaseSet s).
Proof.
  intros s. split; [reflexivity |]. intros Hne.
  assert (Hwf : well_formed s).
  { apply TableMore.run_well_formed. apply TableMore.new_well_formed; reflexivity. }
  destruct Hwf as (_ & Hunset & Hset & _). unfold getData in *.
  assert (Hs : isBaseSet s = true).
  { destruct (isBaseSet s); [reflexivity |].
    destruct (Hunset eq_refl) as (Hnil & _). contradiction. }
  destruct (Hset Hs) as (H0 & Hlast).
  unfold setData. destruct (tableData s) as [| first rest] eqn:Ht; [contradiction |].
  cbn [tableData baseNumber currentValue isBaseSet]. rewrite Hlast, Hs.
  cbn in H0. inversion H0. repeat split.
Qed.

Lemma setData_restores_a_table_witness :
  let s := run (onDataChange new) [Up; Check; Up] in
  getData (setData new (getData s)) = getData s.
Proof.
  intros s.
  refine (proj1 (proj2 (setData_restores_a_table [Up; Check; Up] new) _)).
  vm_compute. discriminate.
Defined.

End TableDataMore.
